(** * Genetic Traveling Salesman: a shallow embedding of the engine

    The definitions below follow [genetic_utils.h] and
    [code/source_seqPar/gen_tsp_detailed.cpp] function by function.

    Conventions of the embedding.
    - A C++ [int] used as a size, a loop counter, an array index or a node
      identifier is a [nat]; an [int] that holds a tour cost is a [Z] and its
      addition wraps around at 32 bits ([int_add]).  The command-line integers
      of [main] and the [best_num] that [genetic_tsp] converts from a
      [double], which may be negative, are [Z].
    - A [double] is a primitive binary64 [float].
    - An [int*] or [double*] buffer is a list; [a !!! i] reads it and
      [<[i:=v]> a] writes it.  Out of range the read yields a fixed default
      value (0 for indices, nodes and doubles, 1 for costs) and the write is
      dropped; in C++ both are undefined, and the theorems carry the length
      hypotheses under which neither happens on the rows they speak about.
    - [rand()] takes its values from a list of draws that is threaded through
      the code; a loop that would draw from the empty list stops with
      [NoMoreDraws].  [rand() % 0] stops with [DivByZero]. *)

From Stdlib Require Import ZArith Lia Floats.
From stdpp Require Import base list gmap sets.

Local Open Scope nat_scope.

(** ** Outcomes and the random-number state *)

Inductive result (A : Type) : Type :=
  | Ok (a : A)
  | DivByZero
  | NoMoreDraws.
Arguments Ok {A} a.
Arguments DivByZero {A}.
Arguments NoMoreDraws {A}.

(** A computation that may call [rand()]: it consumes draws from the front
    of the list and hands the rest on. *)
Definition Rand (A : Type) : Type := list nat → result (A * list nat).

Definition ret {A} (a : A) : Rand A := λ rng, Ok (a, rng).

Definition bind {A B} (m : Rand A) (k : A → Rand B) : Rand B :=
  λ rng, match m rng with
         | Ok (a, rng') => k a rng'
         | DivByZero => DivByZero
         | NoMoreDraws => NoMoreDraws
         end.

Notation "'let*' x ':=' m 'in' k" := (bind m (λ x, k))
  (at level 10, x name, m at level 100, k at level 200, only parsing).

(** [rand()] *)
Definition rand : Rand nat :=
  λ rng, match rng with
         | [] => NoMoreDraws
         | r :: rng' => Ok (r, rng')
         end.

(** [rand() % n] *)
Definition rand_mod (n : nat) : Rand nat :=
  λ rng, match rng with
         | [] => NoMoreDraws
         | r :: rng' => if decide (n = 0) then DivByZero else Ok (r mod n, rng')
         end.

(** [myRand] of genetic_utils.h *)
Definition myRand (i : nat) : Rand nat := rand_mod i.

(** [do { x = rand() % n; } while (x == avoid);]
    One draw per iteration; the recursion is on the list of draws. *)
Fixpoint draw_until_differs (n avoid : nat) (rng : list nat)
  : result (nat * list nat) :=
  match rng with
  | [] => NoMoreDraws
  | r :: rng' =>
      if decide (n = 0) then DivByZero
      else if decide (r mod n = avoid) then draw_until_differs n avoid rng'
      else Ok (r mod n, rng')
  end.

(** ** Counted loops *)

(** [for (i = lo; i < lo + count; ++i) s = body i s;] *)
Fixpoint for_loop {S : Type} (count lo : nat) (body : nat → S → S) (s : S) : S :=
  match count with
  | 0 => s
  | Datatypes.S c => for_loop c (Datatypes.S lo) body (body lo s)
  end.

Fixpoint for_loopM {S : Type} (count lo : nat) (body : nat → S → Rand S) (s : S)
  : Rand S :=
  match count with
  | 0 => ret s
  | Datatypes.S c => let* s' := body lo s in for_loopM c (Datatypes.S lo) body s'
  end.

(** ** Machine integers and doubles *)

(** Two's-complement reduction to 32 bits. *)
Definition wrap_int (z : Z) : Z := ((z + 2 ^ 31) mod 2 ^ 32 - 2 ^ 31)%Z.

(** [a + b] on [int]. *)
Definition int_add (a b : Z) : Z := wrap_int (a + b).

Definition in_int_range (z : Z) : Prop := (- 2 ^ 31 ≤ z < 2 ^ 31)%Z.

#[global] Instance float_inhabited : Inhabited float := populate 0%float.

(** Conversion [int -> double] (exact for 32-bit values). *)
Definition double_of_int (z : Z) : float :=
  if (z <? 0)%Z then (- of_uint63 (Uint63.of_Z (- z)))%float
  else of_uint63 (Uint63.of_Z z).

Definition double_of_nat (n : nat) : float := double_of_int (Z.of_nat n).

(** Conversion [double -> int]: truncation toward zero.  Outside the range of
    [int], and for infinities and NaN, C++ leaves the result undefined; the
    model returns what the x86-64 conversion instruction returns, the
    smallest [int]. *)
Definition int_of_double (x : float) : Z :=
  match Prim2SF x with
  | S754_zero _ => 0
  | S754_finite s m e =>
      let a := if (0 <=? e)%Z then (Z.pos m * 2 ^ e)%Z
               else (Z.pos m `quot` 2 ^ (- e))%Z in
      let v := if s then (- a)%Z else a in
      if ((- 2 ^ 31 <=? v) && (v <? 2 ^ 31))%Z then v else (- 2 ^ 31)%Z
  | _ => (- 2 ^ 31)%Z
  end.

(** ** stdDev (genetic_utils.h, lines 31-43) *)

Definition stdDev (array : list float) (len : nat) : float :=
  let avg := 0%float in
  let var := 0%float in
  let avg := for_loop len 0 (λ i avg, (avg + array !!! i)%float) avg in
  let avg := (avg / double_of_nat len)%float in
  let var :=
    for_loop len 0
      (λ i var, (var + (array !!! i - avg) * (array !!! i - avg))%float) var in
  sqrt (var / double_of_nat len).

(** ** sort_vector (genetic_utils.h, lines 53-67) *)

(** The inner [while (j >= 0 && generation_cost[j] > key)] loop.  The
    argument is [j + 1], the slot that is free; the result is the slot where
    the key goes, with both arrays shifted. *)
Fixpoint shift_right (free : nat) (key : Z)
    (generation_rank : list nat) (generation_cost : list Z)
  : nat * list nat * list Z :=
  match free with
  | 0 => (0, generation_rank, generation_cost)
  | Datatypes.S j =>
      if (generation_cost !!! j >? key)%Z then
        let generation_cost := <[Datatypes.S j := generation_cost !!! j]> generation_cost in
        let generation_rank := <[Datatypes.S j := generation_rank !!! j]> generation_rank in
        shift_right j key generation_rank generation_cost
      else (Datatypes.S j, generation_rank, generation_cost)
  end.

Definition sort_step (i : nat) (st : list nat * list Z) : list nat * list Z :=
  let '(generation_rank, generation_cost) := st in
  let key := generation_cost !!! i in
  let key_idx := generation_rank !!! i in
  let '(slot, generation_rank, generation_cost) :=
    shift_right i key generation_rank generation_cost in
  let generation_cost := <[slot := key]> generation_cost in
  let generation_rank := <[slot := key_idx]> generation_rank in
  (generation_rank, generation_cost).

Definition sort_vector (generation_rank : list nat) (generation_cost : list Z)
    (population : nat) : list nat * list Z :=
  for_loop (population - 1) 1 sort_step (generation_rank, generation_cost).

(** ** rank_generation (genetic_utils.h, lines 80-104) *)

(** One pass of the inner loop over the adjacent cells of row [i]. *)
Definition edge_step (generation : list nat) (cost_matrix : list Z)
    (numNodes i j : nat) (st : nat * nat * list Z) : nat * nat * list Z :=
  let '(source, destination, generation_cost) := st in
  let source := destination in
  let destination := generation !!! (i * numNodes + j + 1) in
  let generation_cost :=
    <[i := int_add (generation_cost !!! i)
                   (cost_matrix !!! (source * numNodes + destination))]>
      generation_cost in
  (source, destination, generation_cost).

Definition cost_step (generation : list nat) (cost_matrix : list Z)
    (numNodes i : nat) (st : list nat * list Z) : list nat * list Z :=
  let '(generation_rank, generation_cost) := st in
  let source := generation !!! (i * numNodes + numNodes - 1) in
  let destination := generation !!! (i * numNodes) in
  let generation_cost :=
    <[i := int_add (generation_cost !!! i)
                   (cost_matrix !!! (source * numNodes + destination))]>
      generation_cost in
  let '(_, _, generation_cost) :=
    for_loop (numNodes - 1) 0 (edge_step generation cost_matrix numNodes i)
      (source, destination, generation_cost) in
  let generation_rank := <[i := i]> generation_rank in
  (generation_rank, generation_cost).

(** The cost-vector computation and rank initialisation, before the sort. *)
Definition compute_costs (generation_rank : list nat) (generation_cost : list Z)
    (generation : list nat) (cost_matrix : list Z) (numNodes population : nat)
  : list nat * list Z :=
  for_loop population 0 (cost_step generation cost_matrix numNodes)
    (generation_rank, generation_cost).

Definition rank_generation (generation_rank : list nat) (generation_cost : list Z)
    (generation : list nat) (cost_matrix : list Z)
    (numNodes population best_num : nat) : list nat * list Z :=
  let '(generation_rank, generation_cost) :=
    compute_costs generation_rank generation_cost generation cost_matrix
      numNodes population in
  sort_vector generation_rank generation_cost population.

(** ** move_top (genetic_utils.h, lines 115-124) *)

(** [copy(start, start + numNodes, dest)] with [start = src + from] and
    [dest = dst + to]: element by element, in increasing order. *)
Definition copy_range (src : list nat) (from numNodes : nat) (dst : list nat)
    (to : nat) : list nat :=
  for_loop numNodes 0 (λ k dst, <[to + k := src !!! (from + k)]> dst) dst.

(** The result is the pair of buffers after the pointer swap: the new
    [generation] first, the new [generation_copy] second. *)
Definition move_top (generation_rank : list nat)
    (generation generation_copy : list nat) (numNodes best_num : nat)
  : list nat * list nat :=
  let generation_copy :=
    for_loop best_num 0
      (λ i generation_copy,
         let start := generation_rank !!! i * numNodes in
         copy_range generation start numNodes generation_copy (i * numNodes))
      generation_copy in
  (generation_copy, generation).

(** ** crossover_firstHalf_withMutation (genetic_utils.h, lines 137-169) *)

(** First loop: take the first half from [parent1]. *)
Definition take_step (parent1 son numNodes j : nat) (st : list nat * gset nat)
  : list nat * gset nat :=
  let '(generation, nodes) := st in
  let elem := generation !!! (parent1 * numNodes + j) in
  let generation := <[son + j := elem]> generation in
  let nodes := {[elem]} ∪ nodes in
  (generation, nodes).

(** Second loop: add the remaining elements from [parent2]. *)
Definition fill_step (nodes : gset nat) (parent2 son numNodes k : nat)
    (st : list nat * nat) : list nat * nat :=
  let '(generation, j) := st in
  let elem := generation !!! (parent2 * numNodes + k) in
  if decide (elem ∈ nodes) then (generation, j)
  else (<[son + j := elem]> generation, Datatypes.S j).

(** [(rand() % 100 + 1) <= (mutatProb * 100)]: the left side is converted to
    [double] for the comparison. *)
Definition mutation_triggers (r : nat) (mutatProb : float) : bool :=
  (double_of_nat (r mod 100 + 1) <=? mutatProb * 100)%float.

Definition crossover_firstHalf_withMutation (generation : list nat)
    (parent1 parent2 son numNodes : nat) (mutatProb : float)
  : Rand (list nat) :=
  let half := numNodes / 2 in
  let '(generation, nodes) :=
    for_loop half 0 (take_step parent1 son numNodes) (generation, ∅) in
  let j := half in
  let '(generation, j) :=
    for_loop numNodes 0 (fill_step nodes parent2 son numNodes) (generation, j) in
  let* r := rand in
  if mutation_triggers r mutatProb then
    let* swap1 := rand_mod numNodes in
    let* swap2 := draw_until_differs numNodes swap1 in
    let elem := generation !!! (son + swap1) in
    let generation := <[son + swap1 := generation !!! (son + swap2)]> generation in
    let generation := <[son + swap2 := elem]> generation in
    ret generation
  else ret generation.

(** ** generate (genetic_utils.h, lines 180-201) *)

(** The choice of the two parents of slot [i] (lines 186-195). *)
Definition select_parents (best_num i : nat) : Rand (nat * nat) :=
  let* parent1 :=
    (if decide (i < best_num) then ret i else rand_mod best_num) in
  let* parent2 := draw_until_differs best_num i in
  ret (parent1, parent2).

Definition generate_step (best_num numNodes : nat) (mutatProb : float)
    (i : nat) (generation : list nat) : Rand (list nat) :=
  let* parents := select_parents best_num i in
  let '(parent1, parent2) := parents in
  let son := (best_num + i) * numNodes in
  crossover_firstHalf_withMutation generation parent1 parent2 son numNodes
    mutatProb.

(** The loop runs its iterations in index order: the schedule of one worker
    thread. *)
Definition generate (generation : list nat)
    (population best_num numNodes : nat) (mutatProb : float)
  : Rand (list nat) :=
  for_loopM (population - best_num) 0 (generate_step best_num numNodes mutatProb)
    generation.

(** ** genetic_tsp (gen_tsp_detailed.cpp, lines 38-112) *)

Definition AVGELEMS : nat := 5.

(** [std::iter_swap] on the cells [p] and [q] of a buffer. *)
Definition swap_cells (a : list nat) (p q : nat) : list nat :=
  let x := a !!! p in
  let a := <[p := a !!! q]> a in
  <[q := x]> a.

(** [std::random_shuffle(first, last, myRand)] on the cells [first .. last)
    of a buffer, as libstdc++ runs it: for every offset [d] from 1 on, the
    cell at [first + d] is exchanged with the cell at [first + myRand(d + 1)],
    unless the two are the same cell. *)
Definition random_shuffle (a : list nat) (first last : nat) : Rand (list nat) :=
  for_loopM (last - first - 1) 1
    (λ d a, let* r := myRand (d + 1) in
            ret (if decide (d = r) then a else swap_cells a (first + d) (first + r)))
    a.

(** Lines 53-58: every row is set to the identity tour and shuffled. *)
Definition init_population (generation : list nat) (numNodes population : nat)
  : Rand (list nat) :=
  for_loopM population 0
    (λ i generation,
       let generation :=
         for_loop numNodes 0 (λ j g, <[i * numNodes + j := j]> g) generation in
       random_shuffle generation (i * numNodes) ((i + 1) * numNodes))
    generation.

(** What [new] hands out: buffers of the requested lengths whose contents are
    whatever the memory held. *)
Record fresh_memory := {
  fresh_lastRounds : list float;
  fresh_solution : list Z;
  fresh_generation : list nat;
  fresh_generation_copy : list nat;
  fresh_generation_cost : list Z
}.

(** The buffers the generation loop works on, and two records of what it did:
    the lines printed to [generationFile] (without the elapsed time) and the
    iterations in which [stdDev] was called. *)
Record engine_state := {
  es_generation : list nat;
  es_generation_copy : list nat;
  es_generation_cost : list Z;
  es_lastRounds : list float;
  es_generationFile : list (nat * nat * Z);
  es_stdDev_calls : list nat
}.

(** Lines 89-100 of iteration [i]: the average of the best [AVGELEMS] costs
    goes into the window, then the early-stop test.  The second component is
    the value of [stdDev] when the right operand of [&&] was evaluated. *)
Definition early_stop (generation_cost : list Z) (lastRounds : list float)
    (i earlyStopRounds : nat) (earlyStopParam : float)
  : result (list float * option float * bool) :=
  let avg := 0%float in
  let avg :=
    for_loop AVGELEMS 0
      (λ j avg, (avg + double_of_int (generation_cost !!! j))%float) avg in
  if decide (earlyStopRounds = 0) then DivByZero
  else
    let lastRounds :=
      <[(i - 1) mod earlyStopRounds := (avg / double_of_nat AVGELEMS)%float]>
        lastRounds in
    if decide (earlyStopRounds ≤ i) then
      let sd := stdDev lastRounds earlyStopRounds in
      Ok (lastRounds, Some sd, (sd <=? earlyStopParam)%float)
    else Ok (lastRounds, None, false).

Section Engine.

(** [rank_generation] and [generate] as [genetic_utils_detailed.h] declares
    them (eight and six arguments).  That header is not among the sources,
    so the engine is stated over any pair of functions of these shapes.
    The ranking returns the cost vector and the two population buffers as
    it leaves them.  [best_num] is the [int] that line 44 computes from a
    [double]; it can be negative, so here it is a [Z]. *)
Variable rank_generation_detailed :
  list Z → list nat → list nat → list Z → nat → nat → Z → nat →
  list Z * list nat * list nat.
Variable generate_detailed :
  list nat → nat → Z → nat → Z → nat → Rand (list nat).

Variables (numThreads : nat) (cost_matrix : list Z) (numNodes population : nat).
Variables (best_num probCentile : Z).
Variables (earlyStopRounds : nat) (earlyStopParam : float).

(** One pass of the loop body, lines 74-100.  The boolean tells whether the
    [break] was taken. *)
Definition generation_body (i : nat) (st : engine_state)
  : Rand (engine_state * bool) :=
  let* generation :=
    generate_detailed (es_generation st) population best_num numNodes
      probCentile numThreads in
  let generationFile :=
    es_generationFile st ++ [(numNodes, population, best_num)] in
  let '(generation_cost, generation, generation_copy) :=
    rank_generation_detailed (es_generation_cost st) generation
      (es_generation_copy st) cost_matrix numNodes population best_num
      numThreads in
  λ rng,
    match early_stop generation_cost (es_lastRounds st) i earlyStopRounds
            earlyStopParam with
    | Ok (lastRounds, sd, converged) =>
        Ok ({| es_generation := generation;
               es_generation_copy := generation_copy;
               es_generation_cost := generation_cost;
               es_lastRounds := lastRounds;
               es_generationFile := generationFile;
               es_stdDev_calls :=
                 es_stdDev_calls st ++
                   match sd with Some _ => [i] | None => [] end |},
            converged, rng)
    | DivByZero => DivByZero
    | NoMoreDraws => NoMoreDraws
    end.

(** [for (i = ...; i <= maxIt; ++i) { ...; if (...) break; }] with [count]
    iterations left. *)
Fixpoint generation_loop (count i : nat) (st : engine_state)
  : Rand (engine_state * bool) :=
  match count with
  | 0 => ret (st, false)
  | Datatypes.S c =>
      let* r := generation_body i st in
      let '(st, converged) := r in
      if converged then ret (st, true) else generation_loop c (Datatypes.S i) st
  end.

End Engine.

(** The [solution] array as the function fills it before returning:
    the first row, the first cost, and the flag already stored. *)
Definition write_solution (solution : list Z) (generation : list nat)
    (generation_cost : list Z) (numNodes : nat) : list Z :=
  let solution :=
    for_loop numNodes 0
      (λ k s, <[k := Z.of_nat (generation !!! k)]> s) solution in
  <[numNodes := generation_cost !!! 0]> solution.

(** What a run leaves behind: the returned array and the two records of
    [engine_state]. *)
Record run := {
  run_solution : list Z;
  run_generationFile : list (nat * nat * Z);
  run_stdDev_calls : list nat
}.

Definition genetic_tsp
    (rank_generation_detailed :
       list Z → list nat → list nat → list Z → nat → nat → Z → nat →
       list Z * list nat * list nat)
    (generate_detailed : list nat → nat → Z → nat → Z → nat → Rand (list nat))
    (mem : fresh_memory)
    (numThreads : nat) (cost_matrix : list Z) (numNodes population : nat)
    (top : float) (maxIt : nat) (mutatProb : float) (earlyStopRounds : nat)
    (earlyStopParam : float) : Rand run :=
  let best_num := int_of_double (double_of_nat population * top) in
  let probCentile := int_of_double (mutatProb * 100) in
  let lastRounds := fresh_lastRounds mem in
  let solution := fresh_solution mem in
  let generation := fresh_generation mem in
  let generation_copy := fresh_generation_copy mem in
  let generation_cost := fresh_generation_cost mem in
  let* generation := init_population generation numNodes population in
  let '(generation_cost, generation, generation_copy) :=
    rank_generation_detailed generation_cost generation generation_copy
      cost_matrix numNodes population best_num numThreads in
  let solution := <[numNodes + 1 := 0%Z]> solution in
  if decide (Z.of_nat population = best_num) then
    ret {| run_solution :=
             write_solution solution generation generation_cost numNodes;
           run_generationFile := [];
           run_stdDev_calls := [] |}
  else
    let* r :=
      generation_loop rank_generation_detailed generate_detailed numThreads
        cost_matrix numNodes population best_num probCentile earlyStopRounds
        earlyStopParam maxIt 1
        {| es_generation := generation;
           es_generation_copy := generation_copy;
           es_generation_cost := generation_cost;
           es_lastRounds := lastRounds;
           es_generationFile := [];
           es_stdDev_calls := [] |} in
    let '(st, converged) := r in
    let solution :=
      if converged then <[numNodes + 1 := 1%Z]> solution else solution in
    ret {| run_solution :=
             write_solution solution (es_generation st) (es_generation_cost st)
               numNodes;
           run_generationFile := es_generationFile st;
           run_stdDev_calls := es_stdDev_calls st |}.

(** ** main (gen_tsp_detailed.cpp, lines 114-184) *)

(** The values [atoi] and [atof] return for [argv[1]] to [argv[8]]. *)
Record parsed_args := {
  arg_numThreads : Z;
  arg_numNodes : Z;
  arg_population : Z;
  arg_top : float;
  arg_maxIt : Z;
  arg_mutatProb : float;
  arg_earlyStopRounds : Z;
  arg_earlyStopParam : float
}.

(** The arguments [main] passes to [genetic_tsp]. *)
Record engine_call := {
  call_numThreads : Z;
  call_numNodes : Z;
  call_population : Z;
  call_top : float;
  call_maxIt : Z;
  call_mutatProb : float;
  call_earlyStopRounds : Z;
  call_earlyStopParam : float
}.

Inductive main_outcome : Type :=
  | Returns (status : Z)
  | Invokes (c : engine_call).

(** The test of lines 137-144.  [earlyStopParam] is declared [int] in [main]:
    the value of [atof] is converted on assignment. *)
Definition invalid_arguments (numThreads numNodes population : Z) (top : float)
    (maxIt : Z) (mutatProb : float) (earlyStopRounds earlyStopParam : Z) : bool :=
  (numThreads <? 1)%Z ||
  (top <? 0)%float || (1 <? top)%float ||
  (population <? Z.of_nat AVGELEMS)%Z ||
  (numNodes <=? 1)%Z ||
  (maxIt <? 0)%Z ||
  (mutatProb <? 0)%float || (1 <? mutatProb)%float ||
  (maxIt <? earlyStopRounds)%Z || (earlyStopRounds <=? 0)%Z ||
  (earlyStopParam <? 0)%Z.

(** [main] up to the call of [genetic_tsp]; the process set-up, the output
    files and the reading of the matrix lie between the test and the call and
    do not decide whether the call is made. *)
Definition main (argc : Z) (a : parsed_args) : main_outcome :=
  if (argc <? 10)%Z then Returns 1
  else
    let numThreads := arg_numThreads a in
    let numNodes := arg_numNodes a in
    let population := arg_population a in
    let top := arg_top a in
    let maxIt := arg_maxIt a in
    let mutatProb := arg_mutatProb a in
    let earlyStopRounds := arg_earlyStopRounds a in
    let earlyStopParam := int_of_double (arg_earlyStopParam a) in
    if invalid_arguments numThreads numNodes population top maxIt mutatProb
         earlyStopRounds earlyStopParam
    then Returns 1
    else
      Invokes {| call_numThreads := numThreads;
                 call_numNodes := numNodes;
                 call_population := population;
                 call_top := top;
                 call_maxIt := maxIt;
                 call_mutatProb := mutatProb;
                 call_earlyStopRounds := earlyStopRounds;
                 call_earlyStopParam := double_of_int earlyStopParam |}.

(** * Vocabulary of the properties *)

(** ** Rows, tours and costs *)

(** Row [i] of a row-major buffer with rows of [numNodes] cells. *)
Definition row (generation : list nat) (numNodes i : nat) : list nat :=
  take numNodes (drop (i * numNodes) generation).

(** A tour of [numNodes] nodes: every node of [0 .. numNodes-1] once. *)
Definition is_tour (numNodes : nat) (t : list nat) : Prop :=
  t ≡ₚ seq 0 numNodes.

(** A tour given cell by cell is recognised by computation. *)
Definition is_tourb (numNodes : nat) (t : list nat) : bool :=
  bool_decide (length t = numNodes) &&
  forallb (λ k, bool_decide (k ∈ t)) (seq 0 numNodes).

(** The sum of a list of integers. *)
Definition Zsum (l : list Z) : Z := foldr Z.add 0%Z l.

(** The cost of the claim: the sum of cost(t[k], t[k+1]) for k in
    [0, numNodes-2], plus the closing edge cost(t[numNodes-1], t[0]). *)
Definition tour_cost (cost_matrix : list Z) (numNodes : nat) (t : list nat) : Z :=
  let closing := cost_matrix !!! (t !!! (numNodes - 1) * numNodes + t !!! 0) in
  let edges :=
    map (λ k, cost_matrix !!! (t !!! k * numNodes + t !!! (k + 1)))
        (seq 0 (numNodes - 1)) in
  (Zsum edges + closing)%Z.

(** The edge of row [i] that leaves cell [k], read from the buffer. *)
Definition buffer_edge (generation : list nat) (cost_matrix : list Z)
    (numNodes i k : nat) : Z :=
  cost_matrix !!! (generation !!! (i * numNodes + k) * numNodes
                   + generation !!! (i * numNodes + k + 1)).

(** The edge that closes row [i]: last cell to first cell. *)
Definition buffer_closing_edge (generation : list nat) (cost_matrix : list Z)
    (numNodes i : nat) : Z :=
  cost_matrix !!! (generation !!! (i * numNodes + numNodes - 1) * numNodes
                   + generation !!! (i * numNodes)).

(** The cost vector [compute_costs] hands to the sort, entry by entry. *)
Definition computed_cost (prior : Z) (cost_matrix : list Z) (numNodes : nat)
    (t : list nat) : Z :=
  wrap_int (prior + tour_cost cost_matrix numNodes t).

(** Two buffers of the same length that agree on the cells below [bound]. *)
Definition agree_below (bound : nat) (g1 g2 : list nat) : Prop :=
  length g1 = length g2 ∧ ∀ idx, idx < bound → g1 !!! idx = g2 !!! idx.

(** Two outcomes of the same computation on two buffers: the same failure,
    or two results that leave the same draws and agree on the cells below
    [bound]. *)
Definition same_outcome (bound : nat) (a b : result (list nat * list nat)) : Prop :=
  match a, b with
  | Ok (ga, ra), Ok (gb, rb) => ra = rb ∧ agree_below bound ga gb
  | DivByZero, DivByZero => True
  | NoMoreDraws, NoMoreDraws => True
  | _, _ => False
  end.

(** ** Draws that let the redraw loops exit *)

(** Draws of which no two in a row have the same residue modulo [m]: a loop
    that redraws [rand() % m] until the value differs from a given one exits
    by its second draw. *)
Fixpoint draws_alternate (m : nat) (rng : list nat) : bool :=
  match rng with
  | a :: rest =>
      match rest with
      | b :: _ => negb (a mod m =? b mod m) && draws_alternate m rest
      | [] => true
      end
  | [] => true
  end.

(** ** The state of the sort *)

(** The state of the outer loop before iteration [i], for a rank array that
    started as the identity and a cost array that started as [c0]. *)
Definition sort_inv (c0 : list Z) (n i : nat) (st : list nat * list Z) : Prop :=
  length st.1 = n ∧ length st.2 = n ∧
  (∀ m, i ≤ m < n → st.1 !!! m = m ∧ st.2 !!! m = c0 !!! m) ∧
  (∀ k, k < i → st.1 !!! k < i ∧ st.2 !!! k = c0 !!! (st.1 !!! k)) ∧
  (∀ k l, k < l < i →
          (st.2 !!! k ≤ st.2 !!! l)%Z ∧
          (st.2 !!! k = st.2 !!! l → st.1 !!! k < st.1 !!! l)).

(** ** The child of the crossover *)

(** The child of the crossover as a list: the first half of [p1], then the
    nodes of [p2] that the first half does not hold, in the order of [p2]. *)
Definition crossover_child (numNodes : nat) (p1 p2 : list nat) : list nat :=
  let first := take (numNodes / 2) p1 in
  let nodes : gset nat := list_to_set first in
  first ++ filter (λ x, x ∉ nodes) p2.

(** The exchange of positions [a] and [b]. *)
Definition transpose (a b k : nat) : nat :=
  if decide (k = b) then a else if decide (k = a) then b else k.

(** ** The statistics of the controller *)

(** Left-to-right sum of doubles, starting from 0. *)
Definition float_sum (l : list float) : float := fold_left PrimFloat.add l 0%float.

(** The mean of the first [AVGELEMS] entries of the cost vector. *)
Definition mean_of_best (generation_cost : list Z) : float :=
  (float_sum (map double_of_int (take AVGELEMS generation_cost))
   / double_of_nat AVGELEMS)%float.

(** The population standard deviation of a window: the square root of the
    mean squared deviation from the mean, both means with the length of the
    window as divisor. *)
Definition population_std_dev (window : list float) : float :=
  let n := double_of_nat (length window) in
  let mean := (float_sum window / n)%float in
  sqrt (float_sum (map (λ x, (x - mean) * (x - mean))%float window) / n).

(** ** The functions of the missing header *)

(** Modelled from the spec: the eight-argument [rank_generation] of
    [genetic_utils_detailed.h], which is not among the sources.  Section 4.2:
    the cost of every tour is computed anew, the (index, cost) pairs are
    sorted, and the top [best_num] tours are moved to the front through the
    scratch buffer and a buffer swap.  A [best_num] below 1 moves no tour. *)
Definition rank_generation_detailed_model (generation_cost : list Z)
    (generation generation_copy : list nat) (cost_matrix : list Z)
    (numNodes population : nat) (best_num : Z) (numThreads : nat)
  : list Z * list nat * list nat :=
  let elites := Z.to_nat best_num in
  let generation_rank := replicate population 0 in
  let generation_cost := replicate population 0%Z in
  let '(generation_rank, generation_cost) :=
    rank_generation generation_rank generation_cost generation cost_matrix
      numNodes population elites in
  let '(generation, generation_copy) :=
    move_top generation_rank generation generation_copy numNodes elites in
  (generation_cost, generation, generation_copy).

(** Modelled from the spec: the crossover that the six-argument [generate]
    of [genetic_utils_detailed.h] calls; that header is not among the
    sources.  Section 4.3: the crossover and the exchange of two positions as
    in lines 137-169 of [genetic_utils.h], with the mutation probability
    given in whole percents, so that the test is
    [rand() % 100 + 1 <= probCentile] on integers. *)
Definition crossover_detailed_model (generation : list nat)
    (parent1 parent2 son numNodes : nat) (probCentile : Z)
  : Rand (list nat) :=
  let half := numNodes / 2 in
  let '(generation, nodes) :=
    for_loop half 0 (take_step parent1 son numNodes) (generation, ∅) in
  let j := half in
  let '(generation, j) :=
    for_loop numNodes 0 (fill_step nodes parent2 son numNodes) (generation, j) in
  let* r := rand in
  if (Z.of_nat (r mod 100 + 1) <=? probCentile)%Z then
    let* swap1 := rand_mod numNodes in
    let* swap2 := draw_until_differs numNodes swap1 in
    let elem := generation !!! (son + swap1) in
    let generation := <[son + swap1 := generation !!! (son + swap2)]> generation in
    let generation := <[son + swap2 := elem]> generation in
    ret generation
  else ret generation.

(** Modelled from the spec: the six-argument [generate] of
    [genetic_utils_detailed.h], which is not among the sources.  Section 4.3:
    every slot [i] of [0, population - best_num) gets its two parents as in
    lines 186-195 of [genetic_utils.h] and is filled by the crossover above.
    With a [best_num] below 1 there is no parent to draw: the first
    [rand() % best_num] stops the run. *)
Definition generate_detailed_model (generation : list nat)
    (population : nat) (best_num : Z) (numNodes : nat) (probCentile : Z)
    (numThreads : nat)
  : Rand (list nat) :=
  let elites := Z.to_nat best_num in
  for_loopM (population - elites) 0
    (λ i generation,
       let* parents := select_parents elites i in
       let '(parent1, parent2) := parents in
       let son := (elites + i) * numNodes in
       crossover_detailed_model generation parent1 parent2 son numNodes
         probCentile)
    generation.

(** A reproducible list of [n] draws below 1000 for the test runs: the
    classic linear congruential generator, started from [x]. *)
Fixpoint lcg_draws (n : nat) (x : Z) : list nat :=
  match n with
  | 0 => []
  | Datatypes.S n' =>
      let x' := ((1103515245 * x + 12345) mod 2147483648)%Z in
      Z.to_nat ((x' / 65536) mod 1000)%Z :: lcg_draws n' x'
  end.

(** ** Doubles of the mutation test *)

(** The double nearest to 0.01.  It lies above 0.01, so the doubles below
    0.01 are the doubles below [one_percent]. *)
Definition one_percent : float := 0x1.47ae147ae147bp-7%float.

(** The integers 1 .. 100 as doubles: the mantissa is the integer shifted
    into 53 bits. *)
Definition small_int_float_ok (k : nat) : bool :=
  match Prim2SF (double_of_nat k) with
  | S754_finite false mk ek =>
      ((- 52 <=? ek) && (ek <=? 0) && (Z.pos mk =? Z.of_nat k * 2 ^ (- ek)) &&
       (2 ^ 52 <=? Z.pos mk) && (Z.pos mk <? 2 ^ 53))%Z
  | _ => false
  end.

(** ** Relations between two runs *)

(** Two computations that fail alike or leave the same draws. *)
Definition same_draws {A B : Type} (a : result (A * list nat))
    (b : result (B * list nat)) : Prop :=
  match a, b with
  | Ok (_, ra), Ok (_, rb) => ra = rb
  | DivByZero, DivByZero => True
  | NoMoreDraws, NoMoreDraws => True
  | _, _ => False
  end.

(** A double in the closed interval from 0 to 1. *)
Definition in_unit_interval (x : float) : bool :=
  ((0 <=? x) && (x <=? 1))%float.

(** Two windows of [earlyStopRounds] entries that hold the same values in
    the slots written before iteration [i]. *)
Definition windows_agree (earlyStopRounds i : nat) (w1 w2 : list float) : Prop :=
  length w1 = earlyStopRounds ∧ length w2 = earlyStopRounds ∧
  ∀ s, s < i - 1 → s < earlyStopRounds → w1 !!! s = w2 !!! s.

(** Two states of the loop that differ in the window only. *)
Definition states_agree (earlyStopRounds i : nat) (st1 st2 : engine_state)
  : Prop :=
  es_generation st1 = es_generation st2 ∧
  es_generation_copy st1 = es_generation_copy st2 ∧
  es_generation_cost st1 = es_generation_cost st2 ∧
  es_generationFile st1 = es_generationFile st2 ∧
  es_stdDev_calls st1 = es_stdDev_calls st2 ∧
  windows_agree earlyStopRounds i (es_lastRounds st1) (es_lastRounds st2).

(** Two runs of the loop that fail alike, or stop alike in states that
    differ in the window only. *)
Definition loops_agree (earlyStopRounds : nat)
    (a b : result (engine_state * bool * list nat)) : Prop :=
  match a, b with
  | Ok (st1, c1, r1), Ok (st2, c2, r2) =>
      c1 = c2 ∧ r1 = r2 ∧ ∃ j, states_agree earlyStopRounds j st1 st2
  | DivByZero, DivByZero => True
  | NoMoreDraws, NoMoreDraws => True
  | _, _ => False
  end.

(** * Properties *)

(** ** Loops *)

Lemma for_loop_snoc {S : Type} (count lo : nat) (body : nat → S → S) (s : S) :
  for_loop (Datatypes.S count) lo body s
  = body (lo + count) (for_loop count lo body s).
Proof.
  revert lo s. induction count as [|c IH]; intros lo s.
  - simpl. by rewrite Nat.add_0_r.
  - change (for_loop (Datatypes.S (Datatypes.S c)) lo body s)
      with (for_loop (Datatypes.S c) (Datatypes.S lo) body (body lo s)).
    rewrite IH. simpl. by rewrite Nat.add_succ_r.
Qed.

(** The invariant rule of a counted loop. *)
Lemma for_loop_inv {S : Type} (P : nat → S → Prop) (count lo : nat)
    (body : nat → S → S) (s : S) :
  P lo s →
  (∀ i s, lo ≤ i < lo + count → P i s → P (Datatypes.S i) (body i s)) →
  P (lo + count) (for_loop count lo body s).
Proof.
  revert lo s. induction count as [|c IH]; intros lo s H0 Hstep.
  - by rewrite Nat.add_0_r.
  - simpl. replace (lo + Datatypes.S c) with (Datatypes.S lo + c) by lia.
    apply IH.
    + apply Hstep; [lia | done].
    + intros i s' Hi. apply Hstep. lia.
Qed.

Lemma for_loopM_inv {S : Type} (P : nat → S → Prop) (count lo : nat)
    (body : nat → S → Rand S) (s s' : S) (rng rng' : list nat) :
  for_loopM count lo body s rng = Ok (s', rng') →
  P lo s →
  (∀ i s r s1 r1, lo ≤ i < lo + count → P i s →
                  body i s r = Ok (s1, r1) → P (Datatypes.S i) s1) →
  P (lo + count) s'.
Proof.
  revert lo s rng. induction count as [|c IH]; intros lo s rng Hrun H0 Hstep.
  - simpl in Hrun. injection Hrun as <- <-. by rewrite Nat.add_0_r.
  - simpl in Hrun. unfold bind in Hrun.
    destruct (body lo s rng) as [[s1 r1]| |] eqn:Hb; try discriminate.
    replace (lo + Datatypes.S c) with (Datatypes.S lo + c) by lia.
    apply (IH _ _ _ Hrun).
    + apply (Hstep lo s rng s1 r1); [lia | done | done].
    + intros i s2 r s3 r3 Hi. apply Hstep. lia.
Qed.

(** ** Buffers *)

Ltac arr :=
  repeat first
    [ rewrite length_insert
    | rewrite list_lookup_total_insert_eq by (rewrite ?length_insert; lia)
    | rewrite list_lookup_total_insert_ne by lia ].

(** ** sort_vector *)

Lemma shift_right_spec (free : nat) (key : Z) (rank : list nat) (cost : list Z) :
  free < length rank → free < length cost →
  ∀ slot rank' cost', shift_right free key rank cost = (slot, rank', cost') →
  slot ≤ free ∧ length rank' = length rank ∧ length cost' = length cost ∧
  (∀ m, m ≤ slot ∨ free < m →
        rank' !!! m = rank !!! m ∧ cost' !!! m = cost !!! m) ∧
  (∀ m, slot < m ≤ free →
        rank' !!! m = rank !!! (m - 1) ∧ cost' !!! m = cost !!! (m - 1) ∧
        (key < cost !!! (m - 1)%nat)%Z) ∧
  (slot = 0 ∨ (cost !!! (slot - 1)%nat ≤ key)%Z).
Proof.
  revert rank cost. induction free as [|j IH]; intros rank cost Hr Hc slot rank' cost' Hrun.
  - simpl in Hrun. injection Hrun as <- <- <-.
    repeat split; auto; intros; lia.
  - simpl in Hrun. destruct (Z.gtb_spec (cost !!! j) key) as [Hgt|Hle].
    + apply IH in Hrun; [|rewrite length_insert; lia ..].
      destruct Hrun as (Hs & Hlr & Hlc & Hsame & Hmov & Hstop).
      rewrite length_insert in Hlr. rewrite length_insert in Hlc.
      split; [lia|]. split; [done|]. split; [done|]. split; [|split].
      * intros m Hm. destruct (Hsame m) as [-> ->]; [lia|]. by arr.
      * intros m Hm. destruct (decide (m = Datatypes.S j)) as [->|Hne].
        -- destruct (Hsame (Datatypes.S j)) as [-> ->]; [lia|].
           arr. replace (Datatypes.S j - 1) with j by lia. done.
        -- destruct (Hmov m) as (-> & -> & Hk); [lia|].
           revert Hk. by arr.
      * destruct Hstop as [->|Hk]; [by left|]. right. revert Hk.
        destruct (decide (slot = 0)) as [->|?]; by arr.
    + injection Hrun as <- <- <-.
      repeat split; auto; try (intros; lia).
      right. by replace (Datatypes.S j - 1) with j by lia.
Qed.

Lemma sort_step_inv (c0 : list Z) (n i : nat) (st : list nat * list Z) :
  1 ≤ i < n → sort_inv c0 n i st → sort_inv c0 n (Datatypes.S i) (sort_step i st).
Proof.
  intros Hi. destruct st as [rank cost].
  intros (Hlr & Hlc & Hsuf & Hpre & Hord). simpl in *.
  unfold sort_step.
  destruct (shift_right i (cost !!! i) rank cost) as [[slot rank'] cost'] eqn:Hsh.
  apply shift_right_spec in Hsh; [|lia..].
  destruct Hsh as (Hs & Hlr' & Hlc' & Hsame & Hmov & Hstop).
  destruct (Hsuf i) as [Hri Hci]; [lia|].
  assert (Hkey: ∀ k, k < slot → (cost !!! k ≤ cost !!! i)%Z).
  { intros k Hk. destruct Hstop as [->|Hstop]; [lia|].
    destruct (decide (k = slot - 1)) as [->|?]; [done|].
    destruct (Hord k (slot - 1)) as [? _]; lia. }
  unfold sort_inv; simpl. arr.
  split; [lia|]. split; [lia|]. split; [|split].
  - intros m Hm. arr. destruct (Hsame m) as [-> ->]; [lia|]. apply Hsuf. lia.
  - intros k Hk. destruct (decide (k = slot)) as [->|Hne].
    + arr. rewrite Hri, Hci. split; [lia|done].
    + arr. destruct (decide (k < slot)).
      * destruct (Hsame k) as [-> ->]; [lia|]. destruct (Hpre k); [lia|]. split; [lia|done].
      * destruct (Hmov k) as (-> & -> & _); [lia|].
        destruct (Hpre (k - 1)); [lia|]. split; [lia|done].
  - intros k l Hkl.
    destruct (decide (k = slot)) as [->|Hk]; destruct (decide (l = slot)) as [->|Hl];
      try lia; arr.
    + destruct (Hmov l) as (-> & -> & Hlt); [lia|]. lia.
    + destruct (Hsame k) as [-> ->]; [lia|]. rewrite Hri.
      specialize (Hkey k). destruct (Hpre k); [lia|]. lia.
    + destruct (decide (k < slot)); destruct (decide (l < slot)); try lia.
      * destruct (Hsame k) as [-> ->]; [lia|]. destruct (Hsame l) as [-> ->]; [lia|].
        apply Hord. lia.
      * destruct (Hsame k) as [-> ->]; [lia|]. destruct (Hmov l) as (-> & -> & _); [lia|].
        apply Hord. lia.
      * destruct (Hmov k) as (-> & -> & _); [lia|]. destruct (Hmov l) as (-> & -> & _); [lia|].
        apply Hord. lia.
Qed.

Lemma sort_vector_inv (c0 : list Z) (rank : list nat) (n : nat) :
  length rank = n → length c0 = n → (∀ m, m < n → rank !!! m = m) →
  sort_inv c0 n n (sort_vector rank c0 n).
Proof.
  intros Hlr Hlc Hid. unfold sort_vector. destruct n as [|n].
  - simpl. repeat split; simpl; auto; intros; lia.
  - replace (Datatypes.S n - 1) with n by lia.
    change (Datatypes.S n) with (1 + n) at 2.
    apply (for_loop_inv (sort_inv c0 (Datatypes.S n))).
    + repeat split; simpl; auto; try (intros; lia).
      * apply Hid. lia.
      * replace k with 0 by lia. rewrite Hid; lia.
      * replace k with 0 by lia. rewrite Hid by lia. done.
    + intros i st Hi. apply sort_step_inv. lia.
Qed.

(** A list of length [n] whose entries are below [n] and pairwise distinct
    enumerates [0 .. n-1]. *)
Lemma injective_below_Permutation (l : list nat) (n : nat) :
  length l = n →
  (∀ k, k < n → l !!! k < n) →
  (∀ k k', k < n → k' < n → l !!! k = l !!! k' → k = k') →
  l ≡ₚ seq 0 n.
Proof.
  intros Hl Hlt Hinj. apply submseteq_length_Permutation.
  - apply NoDup_submseteq.
    + apply NoDup_alt. intros i j x Hi Hj.
      pose proof (lookup_lt_Some _ _ _ Hi). pose proof (lookup_lt_Some _ _ _ Hj).
      apply Hinj; [lia..|].
      rewrite !list_lookup_total_alt, Hi, Hj. done.
    + intros x [i Hi]%list_elem_of_lookup.
      pose proof (lookup_lt_Some _ _ _ Hi).
      apply elem_of_seq. specialize (Hlt i).
      rewrite list_lookup_total_alt, Hi in Hlt. simpl in Hlt. lia.
  - rewrite length_seq. lia.
Qed.

Lemma row_lookup_total (generation : list nat) (numNodes i k : nat) :
  k < numNodes → row generation numNodes i !!! k = generation !!! (i * numNodes + k).
Proof.
  intros Hk. unfold row.
  rewrite !list_lookup_total_alt, lookup_take_lt, lookup_drop by done. done.
Qed.

Lemma row_length (generation : list nat) (numNodes i : nat) :
  (i + 1) * numNodes ≤ length generation →
  length (row generation numNodes i) = numNodes.
Proof. intros H. unfold row. rewrite length_take, length_drop. lia. Qed.

Lemma row_ext (g g' : list nat) (numNodes i : nat) :
  length g' = length g →
  (∀ k, k < numNodes → g' !!! (i * numNodes + k) = g !!! (i * numNodes + k)) →
  row g' numNodes i = row g numNodes i.
Proof.
  intros Hlen H. apply list_eq. intros k. unfold row.
  destruct (decide (k < numNodes)) as [Hk|Hk].
  - rewrite !lookup_take_lt, !lookup_drop by done.
    destruct (decide (i * numNodes + k < length g)) as [Hin|Hout].
    + rewrite !list_lookup_lookup_total_lt by lia. f_equal. by apply H.
    + rewrite !lookup_ge_None_2 by lia. done.
  - rewrite !lookup_take_ge by lia. done.
Qed.

Lemma wrap_int_idemp_l (a b : Z) : wrap_int (wrap_int a + b) = wrap_int (a + b).
Proof.
  unfold wrap_int. f_equal.
  replace ((a + 2 ^ 31) `mod` 2 ^ 32 - 2 ^ 31 + b + 2 ^ 31)%Z
    with ((a + 2 ^ 31) `mod` 2 ^ 32 + b)%Z by lia.
  rewrite Zplus_mod_idemp_l. f_equal. lia.
Qed.

Lemma wrap_int_in_range (z : Z) : in_int_range z → wrap_int z = z.
Proof.
  unfold in_int_range, wrap_int. intros H.
  rewrite Z.mod_small; lia.
Qed.

Lemma wrap_int_range (z : Z) : in_int_range (wrap_int z).
Proof.
  unfold in_int_range, wrap_int.
  pose proof (Z.mod_pos_bound (z + 2 ^ 31) (2 ^ 32)). lia.
Qed.

Lemma Zsum_seq_S (f : nat → Z) (n : nat) :
  Zsum (map f (seq 0 (Datatypes.S n))) = (Zsum (map f (seq 0 n)) + f n)%Z.
Proof.
  rewrite seq_S, map_app. unfold Zsum. rewrite foldr_app. simpl.
  generalize (map f (seq 0 n)). intros l. induction l as [|x l IH]; simpl; lia.
Qed.

(** ** rank_generation: the cost vector *)

Lemma edge_loop_spec (generation : list nat) (cost_matrix : list Z)
    (numNodes i count source : nat) (cost : list Z) (a : Z) :
  i < length cost → cost !!! i = wrap_int a →
  ∀ st, st = for_loop count 0 (edge_step generation cost_matrix numNodes i)
               (source, generation !!! (i * numNodes), cost) →
  length st.2 = length cost ∧
  (∀ m, m ≠ i → st.2 !!! m = cost !!! m) ∧
  st.2 !!! i
  = wrap_int (a + Zsum (map (buffer_edge generation cost_matrix numNodes i)
                            (seq 0 count))).
Proof.
  intros Hi Ha st ->.
  pose (P := λ (j : nat) (st : nat * nat * list Z),
    st.1.2 = generation !!! (i * numNodes + j) ∧
    length st.2 = length cost ∧
    (∀ m, m ≠ i → st.2 !!! m = cost !!! m) ∧
    st.2 !!! i
    = wrap_int (a + Zsum (map (buffer_edge generation cost_matrix numNodes i)
                              (seq 0 j)))).
  cut (P (0 + count) (for_loop count 0 (edge_step generation cost_matrix numNodes i)
                        (source, generation !!! (i * numNodes), cost))).
  { intros (_ & ? & ? & ?). done. }
  apply for_loop_inv.
  - unfold P; simpl. rewrite Nat.add_0_r, Z.add_0_r. done.
  - intros j [[src dst] c] _ (Hd & Hl & Hoth & Hacc). simpl in *.
    unfold P, edge_step; cbn [fst snd]. arr.
    split; [f_equal; lia|]. split; [done|]. split.
    + intros m Hm. arr. by apply Hoth.
    + rewrite Hacc, Zsum_seq_S. unfold int_add.
      rewrite wrap_int_idemp_l. f_equal.
      unfold buffer_edge. rewrite Hd. lia.
Qed.

Lemma tour_cost_row (generation : list nat) (cost_matrix : list Z)
    (numNodes i : nat) :
  1 ≤ numNodes →
  tour_cost cost_matrix numNodes (row generation numNodes i)
  = (Zsum (map (buffer_edge generation cost_matrix numNodes i)
               (seq 0 (numNodes - 1)))
     + buffer_closing_edge generation cost_matrix numNodes i)%Z.
Proof.
  intros Hn. unfold tour_cost. cbv zeta. f_equal.
  - f_equal. apply map_ext_in. intros k Hk%in_seq.
    unfold buffer_edge. rewrite !row_lookup_total by lia.
    by rewrite Nat.add_assoc.
  - unfold buffer_closing_edge. rewrite !row_lookup_total by lia.
    rewrite Nat.add_0_r. do 4 f_equal. lia.
Qed.

Lemma cost_step_spec (generation : list nat) (cost_matrix : list Z)
    (numNodes i : nat) (rank : list nat) (cost : list Z) :
  1 ≤ numNodes → i < length rank → i < length cost →
  ∀ st, st = cost_step generation cost_matrix numNodes i (rank, cost) →
  length st.1 = length rank ∧ length st.2 = length cost ∧
  st.1 !!! i = i ∧
  st.2 !!! i
  = wrap_int (cost !!! i
              + tour_cost cost_matrix numNodes (row generation numNodes i)) ∧
  (∀ m, m ≠ i → st.1 !!! m = rank !!! m ∧ st.2 !!! m = cost !!! m).
Proof.
  intros Hn Hir Hic st ->. unfold cost_step.
  fold (buffer_closing_edge generation cost_matrix numNodes i).
  set (closing := buffer_closing_edge generation cost_matrix numNodes i).
  set (cost1 := <[i := int_add (cost !!! i) closing]> cost).
  destruct (for_loop (numNodes - 1) 0 (edge_step generation cost_matrix numNodes i)
              (generation !!! (i * numNodes + numNodes - 1),
               generation !!! (i * numNodes), cost1)) as [[src dst] cost2] eqn:Hloop.
  symmetry in Hloop.
  apply (edge_loop_spec _ _ _ _ _ _ _ (cost !!! i + closing)) in Hloop;
    [| subst cost1; arr; lia | subst cost1; arr; done].
  destruct Hloop as (Hl & Hoth & Hacc). simpl in *.
  subst cost1. rewrite length_insert in Hl. arr.
  split; [done|]. split; [done|]. split; [done|]. split.
  - rewrite Hacc, tour_cost_row by done. fold closing. f_equal. lia.
  - intros m Hm. arr. split; [done|]. rewrite Hoth by done. by arr.
Qed.

Lemma compute_costs_spec (rank : list nat) (cost : list Z)
    (generation : list nat) (cost_matrix : list Z) (numNodes population : nat) :
  1 ≤ numNodes → length rank = population → length cost = population →
  ∀ st, st = compute_costs rank cost generation cost_matrix numNodes population →
  length st.1 = population ∧ length st.2 = population ∧
  ∀ i, i < population →
       st.1 !!! i = i ∧
       st.2 !!! i
       = wrap_int (cost !!! i
                   + tour_cost cost_matrix numNodes (row generation numNodes i)).
Proof.
  intros Hn Hlr Hlc st ->. unfold compute_costs.
  pose (P := λ (i : nat) (st : list nat * list Z),
    length st.1 = population ∧ length st.2 = population ∧
    (∀ m, m < i →
          st.1 !!! m = m ∧
          st.2 !!! m
          = wrap_int (cost !!! m
                      + tour_cost cost_matrix numNodes (row generation numNodes m))) ∧
    (∀ m, i ≤ m → st.2 !!! m = cost !!! m)).
  cut (P (0 + population)
         (for_loop population 0 (cost_step generation cost_matrix numNodes)
            (rank, cost))).
  { intros (? & ? & H & _). done. }
  apply for_loop_inv.
  - unfold P; simpl. split; [done|]. split; [done|]. split; [intros; lia|done].
  - intros i [r c] Hi (Hr & Hc & Hdone & Htodo). cbn [fst snd] in *.
    destruct (cost_step_spec generation cost_matrix numNodes i r c Hn
                ltac:(lia) ltac:(lia) _ eq_refl) as (Hr' & Hc' & Hri & Hci & Hoth).
    unfold P. split; [lia|]. split; [lia|]. split.
    + intros m Hm. destruct (decide (m = i)) as [->|Hne].
      * rewrite Hri, Hci, Htodo by lia. done.
      * destruct (Hoth m Hne) as [-> ->]. apply Hdone. lia.
    + intros m Hm. destruct (Hoth m) as [_ ->]; [lia|]. apply Htodo. lia.
Qed.

Lemma rank_generation_spec (rank : list nat) (cost : list Z)
    (generation : list nat) (cost_matrix : list Z)
    (numNodes population best_num : nat) (rank' : list nat) (cost' : list Z) :
  1 ≤ numNodes → length rank = population → length cost = population →
  rank_generation rank cost generation cost_matrix numNodes population best_num
  = (rank', cost') →
  length rank' = population ∧ length cost' = population ∧
  rank' ≡ₚ seq 0 population ∧
  (∀ k, k < population →
        rank' !!! k < population ∧
        cost' !!! k
        = computed_cost (cost !!! (rank' !!! k)) cost_matrix numNodes
            (row generation numNodes (rank' !!! k))) ∧
  (∀ k l, k < l < population →
          (cost' !!! k ≤ cost' !!! l)%Z ∧
          (cost' !!! k = cost' !!! l → rank' !!! k < rank' !!! l)).
Proof.
  intros Hn Hlr Hlc. unfold rank_generation.
  destruct (compute_costs rank cost generation cost_matrix numNodes population)
    as [rank1 cost1] eqn:Hcc. symmetry in Hcc.
  apply compute_costs_spec in Hcc; [|done..].
  destruct Hcc as (Hlr1 & Hlc1 & Hcost). cbn [fst snd] in *.
  intros Hsort.
  pose proof (sort_vector_inv cost1 rank1 population Hlr1 Hlc1
                (λ m Hm, proj1 (Hcost m Hm))) as Hinv.
  rewrite Hsort in Hinv. destruct Hinv as (Hlr' & Hlc' & _ & Hpre & Hord).
  cbn [fst snd] in *.
  split; [done|]. split; [done|]. split; [|split; [|done]].
  - apply injective_below_Permutation; [done| |].
    + intros k Hk. by apply Hpre.
    + assert (Hlt: ∀ k k', k < k' < population → rank' !!! k ≠ rank' !!! k').
      { intros k k' Hkk Heq. destruct (Hord k k' Hkk) as [_ Hst].
        destruct (Hpre k) as [_ Hck]; [lia|]. destruct (Hpre k') as [_ Hck']; [lia|].
        rewrite Heq in Hck. rewrite <- Hck' in Hck. specialize (Hst Hck). lia. }
      intros k k' Hk Hk' Heq.
      destruct (Nat.lt_trichotomy k k') as [Hlt'|[->|Hgt]]; [|done|].
      * exfalso. by apply (Hlt k k').
      * exfalso. by apply (Hlt k' k).
  - intros k Hk. destruct (Hpre k Hk) as [Hr Hc]. split; [done|].
    rewrite Hc. unfold computed_cost. by apply Hcost.
Qed.

(** ** move_top *)

Lemma copy_range_spec (src : list nat) (from numNodes : nat) (dst : list nat)
    (to : nat) :
  ∀ dst', dst' = copy_range src from numNodes dst to →
  length dst' = length dst ∧
  (∀ idx, ¬ (to ≤ idx < to + numNodes) → dst' !!! idx = dst !!! idx) ∧
  (∀ k, k < numNodes → to + k < length dst →
        dst' !!! (to + k) = src !!! (from + k)).
Proof.
  intros dst' ->. unfold copy_range.
  pose (P := λ (n : nat) (d : list nat),
    length d = length dst ∧
    (∀ idx, ¬ (to ≤ idx < to + n) → d !!! idx = dst !!! idx) ∧
    (∀ k, k < n → to + k < length dst → d !!! (to + k) = src !!! (from + k))).
  cut (P (0 + numNodes)
         (for_loop numNodes 0 (λ k d, <[to + k := src !!! (from + k)]> d) dst)).
  { intros (? & ? & ?). done. }
  apply for_loop_inv.
  - unfold P. split; [done|]. split; [done|]. intros; lia.
  - intros k d _ (Hl & Hout & Hin). unfold P. arr.
    split; [done|]. split.
    + intros idx Hidx. arr. apply Hout. lia.
    + intros k' Hk' Hr. destruct (decide (k' = k)) as [->|Hne].
      * by arr.
      * arr. apply Hin; lia.
Qed.

Lemma move_top_spec (rank : list nat) (generation generation_copy : list nat)
    (numNodes best_num : nat) (generation' generation_copy' : list nat) :
  move_top rank generation generation_copy numNodes best_num
  = (generation', generation_copy') →
  generation_copy' = generation ∧
  length generation' = length generation_copy ∧
  (∀ idx, best_num * numNodes ≤ idx →
          generation' !!! idx = generation_copy !!! idx) ∧
  (∀ i k, i < best_num → k < numNodes →
          best_num * numNodes ≤ length generation_copy →
          generation' !!! (i * numNodes + k)
          = generation !!! (rank !!! i * numNodes + k)).
Proof.
  unfold move_top. intros [= <- <-]. split; [done|].
  pose (P := λ (b : nat) (d : list nat),
    length d = length generation_copy ∧
    (∀ idx, b * numNodes ≤ idx → d !!! idx = generation_copy !!! idx) ∧
    (∀ i k, i < b → k < numNodes →
            b * numNodes ≤ length generation_copy →
            d !!! (i * numNodes + k) = generation !!! (rank !!! i * numNodes + k))).
  cut (P (0 + best_num)
         (for_loop best_num 0
            (λ i d, let start := rank !!! i * numNodes in
                    copy_range generation start numNodes d (i * numNodes))
            generation_copy)).
  { intros (? & ? & ?). done. }
  apply for_loop_inv.
  - unfold P. split; [done|]. split; [done|]. intros; lia.
  - intros b d _ (Hl & Hstale & Hcopied). cbv zeta.
    destruct (copy_range_spec generation (rank !!! b * numNodes) numNodes d
                (b * numNodes) _ eq_refl) as (Hl' & Hout & Hin).
    unfold P. split; [lia|]. split.
    + intros idx Hidx. rewrite Hout by lia. apply Hstale. lia.
    + intros i k Hi Hk Hfit. destruct (decide (i = b)) as [->|Hne].
      * apply Hin; [done|]. lia.
      * rewrite Hout by nia. apply Hcopied; [lia|done|lia].
Qed.

(** ** Tours, element by element *)

Lemma is_tour_alt (numNodes : nat) (t : list nat) :
  is_tour numNodes t ↔
  length t = numNodes ∧
  (∀ k, k < numNodes → t !!! k < numNodes) ∧
  (∀ k k', k < numNodes → k' < numNodes → t !!! k = t !!! k' → k = k').
Proof.
  split.
  - intros Hp. unfold is_tour in Hp.
    assert (Hlen: length t = numNodes).
    { rewrite (Permutation_length Hp), length_seq. done. }
    split; [done|]. split.
    + intros k Hk.
      assert (Hin: t !!! k ∈ t).
      { apply list_elem_of_lookup. exists k.
        apply list_lookup_lookup_total_lt. lia. }
      apply (elem_of_Permutation_proper _ _ _ Hp), elem_of_seq in Hin. lia.
    + intros k k' Hk Hk' Heq.
      assert (Hnd: NoDup t) by (rewrite Hp; apply NoDup_seq).
      apply (proj1 (NoDup_alt t) Hnd k k' (t !!! k)).
      * apply list_lookup_lookup_total_lt. lia.
      * rewrite Heq. apply list_lookup_lookup_total_lt. lia.
  - intros (Hl & Hlt & Hinj). by apply injective_below_Permutation.
Qed.

Lemma filter_outside_nil (l : list nat) (s : gset nat) :
  (∀ x, x ∈ l → x ∈ s) → filter (λ x, x ∉ s) l = [].
Proof.
  induction l as [|a l IH]; intros Hs; [done|].
  rewrite filter_cons. destruct (decide (a ∉ s)) as [Hn|_].
  - exfalso. apply Hn, Hs. left.
  - apply IH. intros x Hx. apply Hs. by right.
Qed.

Lemma filter_outside_id (l : list nat) (s : gset nat) :
  (∀ x, x ∈ l → x ∉ s) → filter (λ x, x ∉ s) l = l.
Proof.
  induction l as [|a l IH]; intros Hs; [done|].
  rewrite filter_cons. destruct (decide (a ∉ s)) as [_|Hn].
  - f_equal. apply IH. intros x Hx. apply Hs. by right.
  - exfalso. apply Hn, Hs. left.
Qed.

Lemma crossover_child_tour (numNodes : nat) (p1 p2 : list nat) :
  is_tour numNodes p1 → is_tour numNodes p2 →
  is_tour numNodes (crossover_child numNodes p1 p2).
Proof.
  unfold is_tour, crossover_child. intros H1 H2. cbv zeta.
  set (first := take (numNodes / 2) p1).
  set (rest := drop (numNodes / 2) p1).
  assert (Hsplit: p1 = first ++ rest) by (symmetry; apply take_drop).
  assert (Hnd: NoDup (first ++ rest)).
  { rewrite <- Hsplit, H1. apply NoDup_seq. }
  apply NoDup_app in Hnd as (_ & Hdisj & _).
  assert (Hperm: p2 ≡ₚ first ++ rest) by (rewrite <- Hsplit, H1; done).
  rewrite Hperm, filter_app.
  rewrite (filter_outside_nil first), (filter_outside_id rest).
  - simpl. rewrite <- Hsplit. done.
  - intros x Hx Hin. apply elem_of_list_to_set in Hin. by apply (Hdisj x).
  - intros x Hx. by apply elem_of_list_to_set.
Qed.

Lemma crossover_child_length (numNodes : nat) (p1 p2 : list nat) :
  is_tour numNodes p1 → is_tour numNodes p2 →
  length (crossover_child numNodes p1 p2) = numNodes.
Proof.
  intros H1 H2.
  pose proof (crossover_child_tour _ _ _ H1 H2) as H.
  apply is_tour_alt in H. tauto.
Qed.

(** ** crossover_firstHalf_withMutation: the two copying loops *)

Lemma take_loop_spec (g0 : list nat) (parent1 son numNodes half : nat)
    (p1 : list nat) :
  parent1 * numNodes + half ≤ son → half ≤ length p1 →
  (∀ k, k < half → g0 !!! (parent1 * numNodes + k) = p1 !!! k) →
  ∀ st, st = for_loop half 0 (take_step parent1 son numNodes) (g0, ∅) →
  length st.1 = length g0 ∧
  (∀ idx, ¬ (son ≤ idx < son + half) → st.1 !!! idx = g0 !!! idx) ∧
  (∀ k, k < half → son + k < length g0 → st.1 !!! (son + k) = p1 !!! k) ∧
  st.2 = list_to_set (take half p1).
Proof.
  intros Hbelow Hlen Hp1 st ->.
  pose (P := λ (j : nat) (st : list nat * gset nat),
    j ≤ half ∧
    length st.1 = length g0 ∧
    (∀ idx, ¬ (son ≤ idx < son + j) → st.1 !!! idx = g0 !!! idx) ∧
    (∀ k, k < j → son + k < length g0 → st.1 !!! (son + k) = p1 !!! k) ∧
    st.2 = list_to_set (take j p1)).
  cut (P (0 + half) (for_loop half 0 (take_step parent1 son numNodes) (g0, ∅))).
  { intros (_ & ? & ? & ? & ?). done. }
  apply for_loop_inv.
  - unfold P; cbn [fst snd]. split; [lia|]. split; [done|]. split; [done|].
    split; [intros; lia|]. by rewrite take_0.
  - intros j [g nodes] Hj (_ & Hl & Hout & Hin & Hnodes). cbn [fst snd] in *.
    unfold P, take_step; cbn [fst snd]. arr.
    assert (Hread: g !!! (parent1 * numNodes + j) = p1 !!! j).
    { rewrite Hout by lia. apply Hp1. lia. }
    rewrite Hread.
    split; [lia|]. split; [done|]. split; [|split].
    + intros idx Hidx. arr. apply Hout. lia.
    + intros k Hk Hr. destruct (decide (k = j)) as [->|Hne].
      * by arr.
      * arr. apply Hin; [lia|done].
    + rewrite (take_S_r p1 j (p1 !!! j));
        [|apply list_lookup_lookup_total_lt; lia].
      rewrite list_to_set_app_L, list_to_set_singleton_L, Hnodes.
      apply (comm_L (∪)).
Qed.

Lemma fill_loop_spec (g1 : list nat) (nodes : gset nat)
    (parent2 son numNodes j0 : nat) (p2 : list nat) :
  (parent2 + 1) * numNodes ≤ son → length p2 = numNodes →
  (∀ k, k < numNodes → g1 !!! (parent2 * numNodes + k) = p2 !!! k) →
  ∀ st, st = for_loop numNodes 0 (fill_step nodes parent2 son numNodes) (g1, j0) →
  let rest := filter (λ x, x ∉ nodes) p2 in
  length st.1 = length g1 ∧
  st.2 = j0 + length rest ∧
  (∀ idx, ¬ (son + j0 ≤ idx < son + j0 + length rest) →
          st.1 !!! idx = g1 !!! idx) ∧
  (∀ m, m < length rest → son + j0 + m < length g1 →
        st.1 !!! (son + j0 + m) = rest !!! m).
Proof.
  intros Hbelow Hlen Hp2 st ->. cbv zeta.
  pose (F := λ k : nat, filter (λ x, x ∉ nodes) (take k p2)).
  pose (P := λ (k : nat) (st : list nat * nat),
    length st.1 = length g1 ∧
    st.2 = j0 + length (F k) ∧
    (∀ idx, ¬ (son + j0 ≤ idx < son + j0 + length (F k)) →
            st.1 !!! idx = g1 !!! idx) ∧
    (∀ m, m < length (F k) → son + j0 + m < length g1 →
          st.1 !!! (son + j0 + m) = F k !!! m)).
  cut (P (0 + numNodes)
         (for_loop numNodes 0 (fill_step nodes parent2 son numNodes) (g1, j0))).
  { unfold P, F. rewrite Nat.add_0_l, take_ge by lia. done. }
  apply for_loop_inv.
  - unfold P, F; cbn [fst snd]. rewrite take_0, filter_nil. simpl.
    split; [done|]. split; [lia|]. split; [done|]. intros; lia.
  - intros k [g j] Hk (Hl & Hj & Hout & Hin). cbn [fst snd] in *.
    assert (Hread: g !!! (parent2 * numNodes + k) = p2 !!! k).
    { rewrite Hout by lia. apply Hp2. lia. }
    assert (HF: F (Datatypes.S k) = F k ++ filter (λ x, x ∉ nodes) [p2 !!! k]).
    { unfold F. rewrite (take_S_r p2 k (p2 !!! k));
        [|apply list_lookup_lookup_total_lt; lia].
      apply filter_app. }
    unfold P, fill_step. rewrite Hread, HF.
    destruct (decide (p2 !!! k ∈ nodes)) as [Hmem|Hfresh]; cbn [fst snd].
    + rewrite filter_cons_False; [|intros Hn; by apply Hn].
      rewrite filter_nil, app_nil_r. done.
    + rewrite filter_cons_True; [|done]. rewrite filter_nil.
      rewrite length_app. simpl. arr.
      split; [done|]. split; [lia|]. split.
      * intros idx Hidx. arr. apply Hout. lia.
      * intros m Hm Hr. destruct (decide (m = length (F k))) as [->|Hne].
        -- replace (son + j0 + length (F k)) with (son + j) by lia.
           arr. by rewrite list_lookup_total_middle.
        -- arr. rewrite lookup_total_app_l by lia. apply Hin; [lia|done].
Qed.

(** The buffer after the two loops: the son row holds [crossover_child],
    every other cell is as before, and the write index has reached
    [numNodes]. *)
Lemma crossover_copy_spec (g : list nat) (parent1 parent2 son numNodes : nat) :
  (parent1 + 1) * numNodes ≤ son → (parent2 + 1) * numNodes ≤ son →
  son + numNodes ≤ length g →
  is_tour numNodes (row g numNodes parent1) →
  is_tour numNodes (row g numNodes parent2) →
  ∀ st1 st2,
    st1 = for_loop (numNodes / 2) 0 (take_step parent1 son numNodes) (g, ∅) →
    st2 = for_loop numNodes 0 (fill_step st1.2 parent2 son numNodes)
            (st1.1, numNodes / 2) →
    length st2.1 = length g ∧ st2.2 = numNodes ∧
    (∀ idx, ¬ (son ≤ idx < son + numNodes) → st2.1 !!! idx = g !!! idx) ∧
    (∀ m, m < numNodes →
          st2.1 !!! (son + m)
          = crossover_child numNodes (row g numNodes parent1)
              (row g numNodes parent2) !!! m).
Proof.
  intros Hb1 Hb2 Hfit Ht1 Ht2 st1 st2 Hst1 Hst2.
  set (p1 := row g numNodes parent1) in *.
  set (p2 := row g numNodes parent2) in *.
  set (half := numNodes / 2) in *.
  assert (Hhalf: half ≤ numNodes) by (apply Nat.Div0.div_le_upper_bound; lia).
  assert (Hl1: length p1 = numNodes) by (apply is_tour_alt in Ht1; tauto).
  assert (Hl2: length p2 = numNodes) by (apply is_tour_alt in Ht2; tauto).
  pose proof (crossover_child_length _ _ _ Ht1 Ht2) as Hlc.
  unfold crossover_child in *. fold half in Hlc |- *. fold p1 p2 in Hlc |- *.
  cbv zeta in *.
  apply (take_loop_spec g parent1 son numNodes half p1) in Hst1;
    [|lia|lia|intros k Hk; symmetry; apply row_lookup_total; lia].
  destruct Hst1 as (Hlen1 & Hout1 & Hin1 & Hnodes). rewrite Hnodes in Hst2.
  apply (fill_loop_spec (st1.1) _ parent2 son numNodes half p2) in Hst2;
    [|lia|done|].
  2:{ intros k Hk. rewrite Hout1 by lia. symmetry. apply row_lookup_total. lia. }
  cbv zeta in Hst2. destruct Hst2 as (Hlen2 & Hj & Hout2 & Hin2).
  set (rest := filter (λ x, x ∉ (list_to_set (take half p1) : gset nat)) p2) in *.
  assert (Hlt: length (take half p1) = half) by (rewrite length_take; lia).
  assert (Hlr: length rest = numNodes - half).
  { rewrite length_app, Hlt in Hlc. lia. }
  split; [lia|]. split; [lia|]. split.
  - intros idx Hidx. rewrite Hout2 by lia. apply Hout1. lia.
  - intros m Hm. destruct (decide (m < half)) as [Hlo|Hhi].
    + rewrite Hout2 by lia. rewrite Hin1 by lia.
      rewrite lookup_total_app_l by lia.
      rewrite !list_lookup_total_alt, lookup_take_lt by lia. done.
    + replace (son + m) with (son + half + (m - half)) by lia.
      rewrite Hin2 by lia. rewrite lookup_total_app_r by lia.
      by rewrite Hlt.
Qed.

(** ** The redraw loop *)

Lemma draw_until_differs_spec (n avoid : nat) (rng : list nat) (x : nat)
    (rng' : list nat) :
  draw_until_differs n avoid rng = Ok (x, rng') →
  n ≠ 0 ∧ x < n ∧ x ≠ avoid ∧
  ∃ skipped r, rng = skipped ++ r :: rng' ∧ x = r mod n ∧
               Forall (λ d, d mod n = avoid) skipped.
Proof.
  revert x rng'. induction rng as [|r rng IH]; intros x rng' Hrun; [done|].
  simpl in Hrun. destruct (decide (n = 0)) as [|Hn]; [done|].
  destruct (decide (r mod n = avoid)) as [Heq|Hne].
  - destruct (IH _ _ Hrun) as (_ & Hx & Hxa & skipped & r' & -> & -> & Hall).
    split; [done|]. split; [done|]. split; [done|].
    exists (r :: skipped), r'. split; [done|]. split; [done|].
    by constructor.
  - injection Hrun as <- <-. split; [done|].
    split; [by apply Nat.mod_upper_bound|]. split; [done|].
    exists [], r. split; [done|]. split; [done|]. constructor.
Qed.

(** The redraw loop ends as soon as one of the remaining draws differs. *)
Lemma draw_until_differs_total (n avoid : nat) (rng : list nat) :
  n ≠ 0 → Exists (λ d, d mod n ≠ avoid) rng →
  ∃ x rng', draw_until_differs n avoid rng = Ok (x, rng').
Proof.
  intros Hn. induction 1 as [r rng Hr|r rng _ IH]; simpl.
  - destruct (decide (n = 0)); [done|].
    destruct (decide (r mod n = avoid)); [done|]. eauto.
  - destruct (decide (n = 0)); [done|].
    destruct (decide (r mod n = avoid)); [done|]. eauto.
Qed.

(** With one elite and slot 0 every draw is rejected: the loop of lines
    193-195 never exits. *)
Lemma draw_until_differs_one (rng : list nat) :
  draw_until_differs 1 0 rng = NoMoreDraws.
Proof.
  induction rng as [|r rng IH]; [done|]. simpl.
  destruct (decide (r mod 1 = 0)) as [_|Hne]; [done|].
  exfalso. apply Hne. apply Nat.mod_1_r.
Qed.

(** ** crossover_firstHalf_withMutation: the whole function *)

(** A list whose cells are those of a tour, read through an injective
    renumbering of the positions, is a tour. *)
Lemma is_tour_cells (numNodes : nat) (t t' : list nat) (f : nat → nat) :
  is_tour numNodes t → length t' = numNodes →
  (∀ k, k < numNodes → f k < numNodes) →
  (∀ k k', k < numNodes → k' < numNodes → f k = f k' → k = k') →
  (∀ k, k < numNodes → t' !!! k = t !!! f k) →
  is_tour numNodes t'.
Proof.
  intros (Hl & Hlt & Hinj)%is_tour_alt Hl' Hf Hfi Hcells.
  apply is_tour_alt. split; [done|]. split.
  - intros k Hk. rewrite Hcells by done. apply Hlt. by apply Hf.
  - intros k k' Hk Hk' Heq. rewrite !Hcells in Heq by done.
    apply Hfi; [done..|]. apply Hinj; [by apply Hf..|done].
Qed.

Lemma transpose_lt (a b n k : nat) :
  a < n → b < n → k < n → transpose a b k < n.
Proof. unfold transpose. intros. repeat case_decide; lia. Qed.

Lemma transpose_inj (a b k k' : nat) :
  transpose a b k = transpose a b k' → k = k'.
Proof. unfold transpose. repeat case_decide; lia. Qed.

Lemma crossover_spec (g : list nat) (parent1 parent2 s numNodes : nat)
    (mutatProb : float) (rng : list nat) (g' : list nat) (rng' : list nat) :
  parent1 < s → parent2 < s → (s + 1) * numNodes ≤ length g →
  is_tour numNodes (row g numNodes parent1) →
  is_tour numNodes (row g numNodes parent2) →
  crossover_firstHalf_withMutation g parent1 parent2 (s * numNodes) numNodes
    mutatProb rng = Ok (g', rng') →
  length g' = length g ∧
  (∀ idx, ¬ (s * numNodes ≤ idx < s * numNodes + numNodes) →
          g' !!! idx = g !!! idx) ∧
  is_tour numNodes (row g' numNodes s).
Proof.
  intros Hp1 Hp2 Hfit Ht1 Ht2. unfold crossover_firstHalf_withMutation.
  destruct (for_loop (numNodes / 2) 0 (take_step parent1 (s * numNodes) numNodes)
              (g, ∅)) as [g1 nodes] eqn:Hst1.
  destruct (for_loop numNodes 0 (fill_step nodes parent2 (s * numNodes) numNodes)
              (g1, numNodes / 2)) as [g2 j] eqn:Hst2.
  destruct (crossover_copy_spec g parent1 parent2 (s * numNodes) numNodes
              ltac:(nia) ltac:(nia) ltac:(lia) Ht1 Ht2 _ _
              (eq_sym Hst1) (eq_sym Hst2)) as (Hlen & _ & Hout & Hin).
  cbn [fst snd] in *.
  pose proof (crossover_child_tour _ _ _ Ht1 Ht2) as Hchild.
  set (child := crossover_child numNodes (row g numNodes parent1)
                  (row g numNodes parent2)) in *.
  unfold bind, rand. destruct rng as [|r rng]; [done|].
  destruct (mutation_triggers r mutatProb).
  - unfold rand_mod. destruct rng as [|r1 rng]; [done|].
    destruct (decide (numNodes = 0)) as [|Hn]; [done|].
    destruct (draw_until_differs numNodes (r1 mod numNodes) rng)
      as [[swap2 rng2]| |] eqn:Hdraw; [|done..].
    apply draw_until_differs_spec in Hdraw as (_ & Hs2 & Hne & _).
    pose proof (Nat.mod_upper_bound r1 numNodes Hn) as Hs1.
    set (swap1 := r1 mod numNodes) in *.
    unfold ret. intros [= <- <-]. arr.
    split; [done|]. split.
    + intros idx Hidx. arr. apply Hout. lia.
    + apply (is_tour_cells numNodes child _ (transpose swap1 swap2) Hchild).
      * apply row_length. arr. lia.
      * intros k Hk. by apply transpose_lt.
      * intros k k' _ _. apply transpose_inj.
      * intros k Hk. rewrite row_lookup_total by done. unfold transpose.
        destruct (decide (k = swap2)) as [->|Hk2].
        { arr. by apply Hin. }
        destruct (decide (k = swap1)) as [->|Hk1].
        { arr. by apply Hin. }
        arr. by apply Hin.
  - unfold ret. intros [= <- <-].
    split; [done|]. split; [done|].
    apply (is_tour_cells numNodes child _ id Hchild).
    + apply row_length. lia.
    + done.
    + done.
    + intros k Hk. rewrite row_lookup_total by done. by apply Hin.
Qed.

(** Whatever the parents hold, no cell below [son] is written. *)
Lemma crossover_frame_below (g : list nat) (parent1 parent2 son numNodes : nat)
    (mutatProb : float) (rng : list nat) (g' : list nat) (rng' : list nat) :
  crossover_firstHalf_withMutation g parent1 parent2 son numNodes mutatProb rng
  = Ok (g', rng') →
  length g' = length g ∧ ∀ idx, idx < son → g' !!! idx = g !!! idx.
Proof.
  unfold crossover_firstHalf_withMutation.
  pose (P := λ (_ : nat) (st : list nat * gset nat),
    length st.1 = length g ∧ ∀ idx, idx < son → st.1 !!! idx = g !!! idx).
  assert (H1: P (0 + numNodes / 2)
                (for_loop (numNodes / 2) 0 (take_step parent1 son numNodes) (g, ∅))).
  { apply for_loop_inv; [done|].
    intros j [g1 n1] _ [Hl Hf]. unfold P, take_step; cbn [fst snd] in *. arr.
    split; [done|]. intros idx Hidx. arr. by apply Hf. }
  destruct (for_loop (numNodes / 2) 0 (take_step parent1 son numNodes) (g, ∅))
    as [g1 nodes]. destruct H1 as [Hl1 Hf1]. cbn [fst snd] in *.
  pose (Q := λ (_ : nat) (st : list nat * nat),
    length st.1 = length g ∧ ∀ idx, idx < son → st.1 !!! idx = g !!! idx).
  assert (H2: Q (0 + numNodes)
                (for_loop numNodes 0 (fill_step nodes parent2 son numNodes)
                   (g1, numNodes / 2))).
  { apply for_loop_inv; [done|].
    intros k [g2 j2] _ [Hl Hf]. unfold Q, fill_step; cbn [fst snd] in *.
    case_decide; cbn [fst snd]; [done|]. arr.
    split; [done|]. intros idx Hidx. arr. by apply Hf. }
  destruct (for_loop numNodes 0 (fill_step nodes parent2 son numNodes)
              (g1, numNodes / 2)) as [g2 j]. destruct H2 as [Hl2 Hf2].
  cbn [fst snd] in *.
  unfold bind, rand. destruct rng as [|r rng]; [done|].
  destruct (mutation_triggers r mutatProb).
  - unfold rand_mod. destruct rng as [|r1 rng]; [done|].
    destruct (decide (numNodes = 0)); [done|].
    destruct (draw_until_differs numNodes (r1 mod numNodes) rng)
      as [[swap2 rng2]| |]; [|done..].
    unfold ret. intros [= <- <-]. arr. split; [done|].
    intros idx Hidx. arr. by apply Hf2.
  - unfold ret. intros [= <- <-]. done.
Qed.

(** ** generate *)

Lemma select_parents_spec (best_num i : nat) (rng : list nat)
    (parent1 parent2 : nat) (rng' : list nat) :
  select_parents best_num i rng = Ok (parent1, parent2, rng') →
  (i < best_num → parent1 = i) ∧
  (best_num ≤ i → ∃ r rest, rng = r :: rest ∧ parent1 = r mod best_num) ∧
  parent1 < best_num ∧ parent2 < best_num ∧ parent2 ≠ i ∧
  ∃ rng1 skipped r,
    (if decide (i < best_num) then rng1 = rng else rng1 = drop 1 rng) ∧
    rng1 = skipped ++ r :: rng' ∧ parent2 = r mod best_num ∧
    Forall (λ d, d mod best_num = i) skipped.
Proof.
  unfold select_parents, bind, ret.
  destruct (decide (i < best_num)) as [Hlt|Hge].
  - destruct (draw_until_differs best_num i rng) as [[p2 rng2]| |] eqn:Hd;
      [|done..].
    intros [= <- <- <-].
    apply draw_until_differs_spec in Hd as (_ & Hp2 & Hne & sk & r & -> & -> & Hall).
    split; [done|]. split; [lia|]. split; [done|]. split; [done|]. split; [done|].
    exists (sk ++ r :: rng2), sk, r. done.
  - unfold rand_mod. destruct rng as [|r0 rng]; [done|].
    destruct (decide (best_num = 0)) as [|Hb]; [done|].
    destruct (draw_until_differs best_num i rng) as [[p2 rng2]| |] eqn:Hd;
      [|done..].
    intros [= <- <- <-].
    apply draw_until_differs_spec in Hd as (_ & Hp2 & Hne & sk & r & -> & -> & Hall).
    split; [lia|]. split; [eauto|].
    split; [by apply Nat.mod_upper_bound|]. split; [done|]. split; [done|].
    exists (sk ++ r :: rng2), sk, r. done.
Qed.

Lemma generate_step_frame (best_num numNodes : nat) (mutatProb : float)
    (i : nat) (g : list nat) (rng : list nat) (g' : list nat) (rng' : list nat) :
  generate_step best_num numNodes mutatProb i g rng = Ok (g', rng') →
  length g' = length g ∧
  ∀ idx, idx < (best_num + i) * numNodes → g' !!! idx = g !!! idx.
Proof.
  unfold generate_step, bind.
  destruct (select_parents best_num i rng) as [[[p1 p2] rng1]| |]; [|done..].
  apply crossover_frame_below.
Qed.

Lemma generate_step_spec (best_num numNodes : nat) (mutatProb : float)
    (i : nat) (g : list nat) (rng : list nat) (g' : list nat) (rng' : list nat) :
  (best_num + i + 1) * numNodes ≤ length g →
  (∀ p, p < best_num → is_tour numNodes (row g numNodes p)) →
  generate_step best_num numNodes mutatProb i g rng = Ok (g', rng') →
  length g' = length g ∧
  (∀ idx, ¬ ((best_num + i) * numNodes ≤ idx < (best_num + i + 1) * numNodes) →
          g' !!! idx = g !!! idx) ∧
  is_tour numNodes (row g' numNodes (best_num + i)).
Proof.
  intros Hfit Helite. unfold generate_step, bind.
  destruct (select_parents best_num i rng) as [[[p1 p2] rng1]| |] eqn:Hsel;
    [|done..].
  apply select_parents_spec in Hsel as (_ & _ & Hp1 & Hp2 & _).
  intros Hrun.
  apply crossover_spec in Hrun; [|lia|lia|lia|by apply Helite..].
  destruct Hrun as (Hl & Hout & Htour). split; [done|]. split; [|done].
  intros idx Hidx. apply Hout. lia.
Qed.

(** Elite rows are never written, whatever they hold. *)
Lemma generate_frame (g : list nat) (population best_num numNodes : nat)
    (mutatProb : float) (rng : list nat) (g' : list nat) (rng' : list nat) :
  generate g population best_num numNodes mutatProb rng = Ok (g', rng') →
  length g' = length g ∧
  ∀ idx, idx < best_num * numNodes → g' !!! idx = g !!! idx.
Proof.
  unfold generate. intros Hrun.
  apply (for_loopM_inv
           (λ _ g1, length g1 = length g ∧
                    ∀ idx, idx < best_num * numNodes → g1 !!! idx = g !!! idx))
    in Hrun; [done|done|].
  intros i g1 r g2 r2 _ [Hl Hf] Hstep.
  apply generate_step_frame in Hstep as [Hl2 Hf2].
  split; [lia|]. intros idx Hidx. rewrite Hf2 by nia. by apply Hf.
Qed.

(** When the elite rows are tours, the loop fills every row from [best_num]
    to [population - 1] with a tour and writes nowhere else. *)
Lemma generate_spec (g : list nat) (population best_num numNodes : nat)
    (mutatProb : float) (rng : list nat) (g' : list nat) (rng' : list nat) :
  population * numNodes ≤ length g →
  (∀ p, p < best_num → is_tour numNodes (row g numNodes p)) →
  generate g population best_num numNodes mutatProb rng = Ok (g', rng') →
  length g' = length g ∧
  (∀ idx, ¬ (best_num * numNodes ≤ idx < population * numNodes) →
          g' !!! idx = g !!! idx) ∧
  (∀ p, p < best_num → row g' numNodes p = row g numNodes p) ∧
  (∀ s, best_num ≤ s < population → is_tour numNodes (row g' numNodes s)).
Proof.
  intros Hfit Helite Hrun.
  destruct (decide (best_num ≤ population)) as [Hle|Hgt].
  2:{ unfold generate in Hrun.
      replace (population - best_num) with 0 in Hrun by lia.
      simpl in Hrun. injection Hrun as <- <-.
      split; [done|]. split; [done|]. split; [done|]. intros; lia. }
  unfold generate in Hrun.
  pose (P := λ (i : nat) (g1 : list nat),
    length g1 = length g ∧
    (∀ idx, ¬ (best_num * numNodes ≤ idx < (best_num + i) * numNodes) →
            g1 !!! idx = g !!! idx) ∧
    (∀ s, best_num ≤ s < best_num + i → is_tour numNodes (row g1 numNodes s))).
  assert (HP: P (0 + (population - best_num)) g').
  { apply (for_loopM_inv P _ _ _ _ _ _ _ Hrun).
    - unfold P. split; [done|]. split; [done|]. intros; lia.
    - intros i g1 r g2 r2 Hi (Hl & Hout & Hnew) Hstep.
      assert (Helite1: ∀ p, p < best_num → is_tour numNodes (row g1 numNodes p)).
      { intros p Hp. rewrite (row_ext g g1); [by apply Helite|done|].
        intros k Hk. apply Hout. nia. }
      apply generate_step_spec in Hstep; [|nia|done].
      destruct Hstep as (Hl2 & Hout2 & Htour).
      unfold P. split; [lia|]. split; [|].
      + intros idx Hidx. rewrite Hout2 by nia. apply Hout. nia.
      + intros s Hs. destruct (decide (s = best_num + i)) as [->|Hne]; [done|].
        rewrite (row_ext g1 g2); [apply Hnew; lia|done|].
        intros k Hk. apply Hout2. nia. }
  destruct HP as (Hl & Hout & Hnew).
  replace (best_num + (0 + (population - best_num))) with population in * by lia.
  split; [done|]. split; [done|]. split.
  - intros p Hp. apply row_ext; [done|]. intros k Hk. apply Hout. nia.
  - done.
Qed.

(** With a single elite the first slot never gets its second parent:
    [generate] does not return, however many draws there are. *)
Lemma generate_with_one_elite (g : list nat) (population numNodes : nat)
    (mutatProb : float) (rng : list nat) :
  1 < population → generate g population 1 numNodes mutatProb rng = NoMoreDraws.
Proof.
  intros Hp. unfold generate.
  destruct (population - 1) as [|c] eqn:Hc; [lia|].
  simpl. unfold bind at 1. unfold generate_step, bind at 1.
  unfold select_parents, bind, ret. simpl.
  by rewrite draw_until_differs_one.
Qed.

(** ** generate and the rows it does not read *)

Lemma crossover_agree (ga gb : list nat) (parent1 parent2 s numNodes : nat)
    (mutatProb : float) (rng : list nat) :
  parent1 < s → parent2 < s → (s + 1) * numNodes ≤ length ga →
  is_tour numNodes (row ga numNodes parent1) →
  is_tour numNodes (row ga numNodes parent2) →
  agree_below (s * numNodes) ga gb →
  same_outcome ((s + 1) * numNodes)
    (crossover_firstHalf_withMutation ga parent1 parent2 (s * numNodes) numNodes
       mutatProb rng)
    (crossover_firstHalf_withMutation gb parent1 parent2 (s * numNodes) numNodes
       mutatProb rng).
Proof.
  intros Hp1 Hp2 Hfit Ht1 Ht2 [Hlen Hagree].
  assert (Hr1: row gb numNodes parent1 = row ga numNodes parent1).
  { apply row_ext; [done|]. intros k Hk. symmetry. apply Hagree. nia. }
  assert (Hr2: row gb numNodes parent2 = row ga numNodes parent2).
  { apply row_ext; [done|]. intros k Hk. symmetry. apply Hagree. nia. }
  unfold crossover_firstHalf_withMutation.
  destruct (for_loop (numNodes / 2) 0 (take_step parent1 (s * numNodes) numNodes)
              (ga, ∅)) as [ga1 nodesa] eqn:Ha1.
  destruct (for_loop numNodes 0 (fill_step nodesa parent2 (s * numNodes) numNodes)
              (ga1, numNodes / 2)) as [ga2 ja] eqn:Ha2.
  destruct (crossover_copy_spec ga parent1 parent2 (s * numNodes) numNodes
              ltac:(nia) ltac:(nia) ltac:(lia) Ht1 Ht2 _ _
              (eq_sym Ha1) (eq_sym Ha2)) as (Hla & _ & Houta & Hina).
  destruct (for_loop (numNodes / 2) 0 (take_step parent1 (s * numNodes) numNodes)
              (gb, ∅)) as [gb1 nodesb] eqn:Hb1.
  destruct (for_loop numNodes 0 (fill_step nodesb parent2 (s * numNodes) numNodes)
              (gb1, numNodes / 2)) as [gb2 jb] eqn:Hb2.
  destruct (crossover_copy_spec gb parent1 parent2 (s * numNodes) numNodes
              ltac:(nia) ltac:(nia) ltac:(lia)
              ltac:(by rewrite Hr1) ltac:(by rewrite Hr2) _ _
              (eq_sym Hb1) (eq_sym Hb2)) as (Hlb & _ & Houtb & Hinb).
  cbn [fst snd] in *. rewrite Hr1, Hr2 in Hinb.
  assert (Hcopy: agree_below ((s + 1) * numNodes) ga2 gb2).
  { split; [lia|]. intros idx Hidx.
    destruct (decide (idx < s * numNodes)) as [Hlo|Hhi].
    - rewrite Houta, Houtb by lia. by apply Hagree.
    - replace idx with (s * numNodes + (idx - s * numNodes)) by lia.
      rewrite Hina, Hinb by lia. done. }
  destruct Hcopy as [Hl2 Hc2].
  unfold bind, rand. destruct rng as [|r rng]; [done|].
  destruct (mutation_triggers r mutatProb); [|by split].
  unfold rand_mod. destruct rng as [|r1 rng]; [done|].
  destruct (decide (numNodes = 0)) as [|Hn]; [done|].
  destruct (draw_until_differs numNodes (r1 mod numNodes) rng)
    as [[swap2 rng2]| |] eqn:Hdraw; [|done..].
  apply draw_until_differs_spec in Hdraw as (_ & Hs2 & _).
  pose proof (Nat.mod_upper_bound r1 numNodes Hn) as Hs1.
  set (swap1 := r1 mod numNodes) in *.
  unfold ret, same_outcome. split; [done|]. split; [by arr|].
  intros idx Hidx.
  rewrite !(Hc2 (s * numNodes + swap1)), !(Hc2 (s * numNodes + swap2)) by lia.
  destruct (decide (idx = s * numNodes + swap2)) as [->|H2]; [by arr|].
  destruct (decide (idx = s * numNodes + swap1)) as [->|H1]; [by arr|].
  arr. by apply Hc2.
Qed.

Lemma generate_step_agree (best_num numNodes : nat) (mutatProb : float)
    (i : nat) (ga gb : list nat) (rng : list nat) :
  (best_num + i + 1) * numNodes ≤ length ga →
  (∀ p, p < best_num → is_tour numNodes (row ga numNodes p)) →
  agree_below ((best_num + i) * numNodes) ga gb →
  same_outcome ((best_num + i + 1) * numNodes)
    (generate_step best_num numNodes mutatProb i ga rng)
    (generate_step best_num numNodes mutatProb i gb rng).
Proof.
  intros Hfit Helite Hagree. unfold generate_step, bind.
  destruct (select_parents best_num i rng) as [[[p1 p2] rng1]| |] eqn:Hsel;
    [|done..].
  apply select_parents_spec in Hsel as (_ & _ & Hp1 & Hp2 & _).
  apply crossover_agree; [lia|lia|lia|by apply Helite..|done].
Qed.

(** [generate] never reads a cell from row [best_num] on before writing it:
    on two buffers that agree on the elite rows it fails alike or leaves the
    same draws and the same first [population] rows. *)
Lemma generate_agree (ga gb : list nat) (population best_num numNodes : nat)
    (mutatProb : float) (rng : list nat) :
  population * numNodes ≤ length ga → best_num ≤ population →
  (∀ p, p < best_num → is_tour numNodes (row ga numNodes p)) →
  agree_below (best_num * numNodes) ga gb →
  same_outcome (population * numNodes)
    (generate ga population best_num numNodes mutatProb rng)
    (generate gb population best_num numNodes mutatProb rng).
Proof.
  intros Hfit Hb Helite Hagree. unfold generate.
  assert (Hgen: ∀ count lo ga gb rng,
            best_num + lo + count = population →
            length ga = length gb →
            population * numNodes ≤ length ga →
            (∀ p, p < best_num → is_tour numNodes (row ga numNodes p)) →
            agree_below ((best_num + lo) * numNodes) ga gb →
            same_outcome (population * numNodes)
              (for_loopM count lo (generate_step best_num numNodes mutatProb)
                 ga rng)
              (for_loopM count lo (generate_step best_num numNodes mutatProb)
                 gb rng)).
  { clear. induction count as [|c IH]; intros lo ga gb rng Hc Hl Hfit Helite Hag.
    - simpl. unfold ret. split; [done|].
      replace population with (best_num + lo) by lia. done.
    - simpl. unfold bind.
      pose proof (generate_step_agree best_num numNodes mutatProb lo ga gb rng
                    ltac:(nia) Helite Hag) as Hstep.
      destruct (generate_step best_num numNodes mutatProb lo ga rng)
        as [[ga1 r1]| |] eqn:Ha;
        destruct (generate_step best_num numNodes mutatProb lo gb rng)
          as [[gb1 r2]| |] eqn:Hbb; try done.
      destruct Hstep as [<- Hag1].
      apply generate_step_frame in Ha as [Hla Hfa].
      apply IH; [lia|by destruct Hag1|lia| |].
      + intros p Hp. rewrite (row_ext ga ga1); [by apply Helite|done|].
        intros k Hk. apply Hfa. nia.
      + replace ((best_num + Datatypes.S lo) * numNodes)
          with ((best_num + lo + 1) * numNodes) by lia. done. }
  apply Hgen; [lia|by destruct Hagree|done|done|].
  by rewrite Nat.add_0_r.
Qed.

(** ** The initial population *)

Lemma identity_row_spec (g : list nat) (numNodes i : nat) :
  (i + 1) * numNodes ≤ length g →
  ∀ g', g' = for_loop numNodes 0 (λ j g, <[i * numNodes + j := j]> g) g →
  length g' = length g ∧
  (∀ idx, ¬ (i * numNodes ≤ idx < (i + 1) * numNodes) → g' !!! idx = g !!! idx) ∧
  is_tour numNodes (row g' numNodes i).
Proof.
  intros Hfit g' ->.
  pose (P := λ (j : nat) (g1 : list nat),
    length g1 = length g ∧
    (∀ idx, ¬ (i * numNodes ≤ idx < i * numNodes + j) → g1 !!! idx = g !!! idx) ∧
    (∀ k, k < j → g1 !!! (i * numNodes + k) = k)).
  assert (HP: P (0 + numNodes)
                (for_loop numNodes 0 (λ j g, <[i * numNodes + j := j]> g) g)).
  { apply for_loop_inv.
    - unfold P. split; [done|]. split; [done|]. intros; lia.
    - intros j g1 Hj (Hl & Hout & Hin). unfold P. arr.
      split; [done|]. split.
      + intros idx Hidx. arr. apply Hout. lia.
      + intros k Hk. destruct (decide (k = j)) as [->|Hne]; arr; [done|].
        apply Hin. lia. }
  destruct HP as (Hl & Hout & Hin). split; [done|]. split.
  - intros idx Hidx. apply Hout. lia.
  - apply is_tour_alt. split; [apply row_length; lia|]. split.
    + intros k Hk. rewrite row_lookup_total, Hin by lia. done.
    + intros k k' Hk Hk'. rewrite !row_lookup_total, !Hin by lia. done.
Qed.

Lemma random_shuffle_spec (a : list nat) (numNodes i : nat) (rng : list nat)
    (a' : list nat) (rng' : list nat) :
  (i + 1) * numNodes ≤ length a →
  is_tour numNodes (row a numNodes i) →
  random_shuffle a (i * numNodes) ((i + 1) * numNodes) rng = Ok (a', rng') →
  length a' = length a ∧
  (∀ idx, ¬ (i * numNodes ≤ idx < (i + 1) * numNodes) → a' !!! idx = a !!! idx) ∧
  is_tour numNodes (row a' numNodes i).
Proof.
  intros Hfit Htour. unfold random_shuffle.
  replace ((i + 1) * numNodes - i * numNodes - 1) with (numNodes - 1) by lia.
  intros Hrun.
  apply (for_loopM_inv
           (λ _ a1,
              length a1 = length a ∧
              (∀ idx, ¬ (i * numNodes ≤ idx < (i + 1) * numNodes) →
                      a1 !!! idx = a !!! idx) ∧
              is_tour numNodes (row a1 numNodes i))) in Hrun; [done|done|].
  intros d a1 r a2 r2 Hd (Hl & Hout & Ht). unfold bind, myRand, rand_mod, ret.
  destruct r as [|x r]; [done|].
  destruct (decide (d + 1 = 0)); [lia|].
  pose proof (Nat.mod_upper_bound x (d + 1) ltac:(lia)) as Hx.
  destruct (decide (d = x mod (d + 1))) as [Heq|Hne]; intros [= <- <-]; [done|].
  unfold swap_cells. arr. split; [done|]. split.
  - intros idx Hidx. arr. by apply Hout.
  - apply (is_tour_cells numNodes (row a1 numNodes i) _
             (transpose (x mod (d + 1)) d) Ht).
    + apply row_length. arr. lia.
    + intros k Hk. apply transpose_lt; lia.
    + intros k k' _ _. apply transpose_inj.
    + intros k Hk. rewrite !row_lookup_total by (done || apply transpose_lt; lia).
      unfold transpose.
      destruct (decide (k = d)) as [->|Hkd]; [by arr|].
      destruct (decide (k = x mod (d + 1))) as [->|Hkx]; by arr.
Qed.

Lemma init_population_spec (g : list nat) (numNodes population : nat)
    (rng : list nat) (g' : list nat) (rng' : list nat) :
  population * numNodes ≤ length g →
  init_population g numNodes population rng = Ok (g', rng') →
  length g' = length g ∧
  ∀ s, s < population → is_tour numNodes (row g' numNodes s).
Proof.
  intros Hfit Hrun. unfold init_population in Hrun.
  apply (for_loopM_inv
           (λ i g1, length g1 = length g ∧
                    ∀ s, s < i → is_tour numNodes (row g1 numNodes s)))
    in Hrun; [done| |].
  - split; [done|]. intros; lia.
  - intros i g1 r g2 r2 Hi [Hl Hrows] Hstep. cbv beta zeta in Hstep.
    destruct (identity_row_spec g1 numNodes i ltac:(nia) _ eq_refl)
      as (Hl1 & Hout1 & Ht1).
    apply random_shuffle_spec in Hstep; [|nia|done].
    destruct Hstep as (Hl2 & Hout2 & Ht2).
    split; [lia|]. intros s Hs.
    destruct (decide (s = i)) as [->|Hne]; [done|].
    rewrite (row_ext g1 g2); [apply Hrows; lia|lia|].
    intros k Hk. rewrite Hout2 by nia. apply Hout1. nia.
Qed.

Lemma row_eq_cells (g1 g2 : list nat) (numNodes i j : nat) :
  (i + 1) * numNodes ≤ length g1 → (j + 1) * numNodes ≤ length g2 →
  (∀ k, k < numNodes → g1 !!! (i * numNodes + k) = g2 !!! (j * numNodes + k)) →
  row g1 numNodes i = row g2 numNodes j.
Proof.
  intros H1 H2 Hcells. apply list_eq. intros k. unfold row.
  destruct (decide (k < numNodes)) as [Hk|Hk].
  - rewrite !lookup_take_lt, !lookup_drop by done.
    rewrite !list_lookup_lookup_total_lt by lia. f_equal. by apply Hcells.
  - rewrite !lookup_take_ge by lia. done.
Qed.

(** * The ranking engine *)


(** C4, as amended.  After [rank_generation] and [move_top], with at least
    one elite, a cost vector that is zero on entry and tours whose edge sums
    fit in an [int]: the cost vector is non-decreasing and holds the edge sums
    of the tours in the order [rank'] ([rank' !!! k] is the original index of
    the tour whose cost is now at position [k]); the elite rows of the
    population are these tours, so row 0 is a tour of least cost among all
    [population] tours; and tours of equal cost keep the order of their
    original indices. *)
Theorem ranking_order (rank : list nat) (cost : list Z)
    (generation generation_copy : list nat) (cost_matrix : list Z)
    (numNodes population best_num : nat)
    (rank' : list nat) (cost' : list Z) (generation' generation_copy' : list nat) :
  1 ≤ numNodes → 0 < best_num ≤ population →
  length rank = population → length cost = population →
  population * numNodes ≤ length generation →
  best_num * numNodes ≤ length generation_copy →
  (∀ j, j < population → cost !!! j = 0%Z) →
  (∀ j, j < population →
        in_int_range (tour_cost cost_matrix numNodes (row generation numNodes j))) →
  rank_generation rank cost generation cost_matrix numNodes population best_num
  = (rank', cost') →
  move_top rank' generation generation_copy numNodes best_num
  = (generation', generation_copy') →
  (∀ k l, k < l < population → (cost' !!! k ≤ cost' !!! l)%Z) ∧
  (rank' ≡ₚ seq 0 population ∧
   ∀ k, k < population →
        cost' !!! k
        = tour_cost cost_matrix numNodes (row generation numNodes (rank' !!! k))) ∧
  (∀ k, k < best_num →
        row generation' numNodes k = row generation numNodes (rank' !!! k) ∧
        cost' !!! k = tour_cost cost_matrix numNodes (row generation' numNodes k)) ∧
  (∀ j, j < population →
        (tour_cost cost_matrix numNodes (row generation' numNodes 0)
         ≤ tour_cost cost_matrix numNodes (row generation numNodes j))%Z) ∧
  (∀ k l, k < l < population →
          tour_cost cost_matrix numNodes (row generation numNodes (rank' !!! k))
          = tour_cost cost_matrix numNodes (row generation numNodes (rank' !!! l)) →
          rank' !!! k < rank' !!! l).
Proof.
  intros Hn Hb Hlr Hlc Hfit Hfitc Hzero Hrange Hrank Hmove.
  destruct (rank_generation_spec _ _ _ _ _ _ _ _ _ Hn Hlr Hlc Hrank)
    as (Hlr' & Hlc' & Hperm & Hcost & Hord).
  destruct (move_top_spec _ _ _ _ _ _ _ Hmove) as (_ & Hlen & _ & Hcopied).
  assert (Hexact: ∀ k, k < population →
            cost' !!! k
            = tour_cost cost_matrix numNodes
                (row generation numNodes (rank' !!! k))).
  { intros k Hk. destruct (Hcost k Hk) as [Hr ->]. unfold computed_cost.
    rewrite (Hzero _ Hr), Z.add_0_l. apply wrap_int_in_range. by apply Hrange. }
  assert (Hrows: ∀ k, k < best_num →
            row generation' numNodes k = row generation numNodes (rank' !!! k)).
  { intros k Hk. destruct (Hcost k ltac:(lia)) as [Hr _].
    apply row_eq_cells; [nia|nia|].
    intros c Hc. apply (Hcopied k c); [lia|done|done]. }
  split; [|split; [|split; [|split]]].
  - intros k l Hkl. by apply Hord.
  - done.
  - intros k Hk. split; [by apply Hrows|].
    rewrite Hrows by done. apply Hexact. lia.
  - intros j Hj. rewrite Hrows by lia. rewrite <- Hexact by lia.
    assert (Hin: j ∈ rank').
    { rewrite Hperm. apply elem_of_seq. lia. }
    apply list_elem_of_lookup in Hin as [k Hk].
    pose proof (lookup_lt_Some _ _ _ Hk) as Hklt.
    assert (Hkj: rank' !!! k = j) by (rewrite list_lookup_total_alt, Hk; done).
    rewrite <- Hkj, <- Hexact by lia.
    destruct (decide (k = 0)) as [->|Hne]; [lia|]. apply Hord. lia.
  - intros k l Hkl Heq. apply Hord; [done|].
    rewrite !Hexact by lia. done.
Qed.

Lemma ranking_order_witness :
  let generation := [0; 1; 2; 3; 0; 2; 1; 3; 0; 1; 3; 2; 0; 3; 1; 2] in
  let cost_matrix :=
    [0; 10; 15; 20; 10; 0; 35; 25; 15; 35; 0; 30; 20; 25; 30; 0]%Z in
  let rank' := [2; 0; 1; 3] in
  let cost' := [80; 95; 95; 95]%Z in
  let generation' := [0; 1; 3; 2; 0; 1; 2; 3; 9; 9; 9; 9; 9; 9; 9; 9] in
  rank_generation [0; 0; 0; 0] [0; 0; 0; 0]%Z generation cost_matrix 4 4 2
  = (rank', cost') ∧
  move_top rank' generation (replicate 16 9) 4 2 = (generation', generation) ∧
  (∀ k l, k < l < 4 → (cost' !!! k ≤ cost' !!! l)%Z) ∧
  (rank' ≡ₚ seq 0 4 ∧
   ∀ k, k < 4 →
        cost' !!! k = tour_cost cost_matrix 4 (row generation 4 (rank' !!! k))) ∧
  (∀ k, k < 2 →
        row generation' 4 k = row generation 4 (rank' !!! k) ∧
        cost' !!! k = tour_cost cost_matrix 4 (row generation' 4 k)) ∧
  (∀ j, j < 4 →
        (tour_cost cost_matrix 4 (row generation' 4 0)
         ≤ tour_cost cost_matrix 4 (row generation 4 j))%Z) ∧
  (∀ k l, k < l < 4 →
          tour_cost cost_matrix 4 (row generation 4 (rank' !!! k))
          = tour_cost cost_matrix 4 (row generation 4 (rank' !!! l)) →
          rank' !!! k < rank' !!! l).
Proof.
  cbv zeta. split; [vm_compute; reflexivity|]. split; [vm_compute; reflexivity|].
  apply (ranking_order [0; 0; 0; 0] [0; 0; 0; 0]%Z
           [0; 1; 2; 3; 0; 2; 1; 3; 0; 1; 3; 2; 0; 3; 1; 2] (replicate 16 9)
           [0; 10; 15; 20; 10; 0; 35; 25; 15; 35; 0; 30; 20; 25; 30; 0]%Z 4 4 2
           [2; 0; 1; 3] [80; 95; 95; 95]%Z
           [0; 1; 3; 2; 0; 1; 2; 3; 9; 9; 9; 9; 9; 9; 9; 9]
           [0; 1; 2; 3; 0; 2; 1; 3; 0; 1; 3; 2; 0; 3; 1; 2]).
  - lia.
  - lia.
  - reflexivity.
  - reflexivity.
  - simpl. lia.
  - simpl. lia.
  - intros j Hj. destruct j as [|[|[|[|j]]]]; [reflexivity..|lia].
  - intros j Hj. unfold in_int_range.
    destruct j as [|[|[|[|j]]]];
      [vm_compute; split; [discriminate|reflexivity]..|lia].
  - vm_compute. reflexivity.
  - vm_compute. reflexivity.
Defined.

(** C4, as the claim states it, fails in three ways.  Both tours 0-1-2-3 and
    0-2-1-3 cost 95 on the matrix of the test scenario, and 0-1-3-2 costs 80.
    - Without elite ([top = 0], which [main] accepts), [move_top] copies no
      row: the population is what the scratch buffer held, here a tour of
      cost 95 in row 0 and one of cost 80 in row 1, as unordered as it was,
      while the cost vector holds 80 and 95.
    - On a cost vector that holds 50, 0, 100 on entry, the tour of cost 80
      ends last, and the two tours of cost 95 change their order.
    - With two edges of cost 2^30 the sum of the tour 0-1-2-3 leaves the
      range of [int]; it is ranked first, before a tour of cost 4. *)
Lemma ranking_misses_the_cheapest_tour :
  let cost_matrix :=
    [0; 10; 15; 20; 10; 0; 35; 25; 15; 35; 0; 30; 20; 25; 30; 0]%Z in
  (let generation := [0; 1; 2; 3; 0; 1; 3; 2] in
   let scratch := [0; 2; 1; 3; 0; 1; 3; 2] in
   let '(rank', cost') :=
     rank_generation [0; 0] [0; 0]%Z generation cost_matrix 4 2 0 in
   let '(generation', _) := move_top rank' generation scratch 4 0 in
   cost' = [80; 95]%Z ∧ row generation' 4 0 = [0; 2; 1; 3] ∧
   tour_cost cost_matrix 4 (row generation' 4 0) = 95%Z ∧
   tour_cost cost_matrix 4 (row generation' 4 1) = 80%Z ∧
   tour_cost cost_matrix 4 (row generation 4 1) = 80%Z) ∧
  (let generation := [0; 1; 2; 3; 0; 2; 1; 3; 0; 1; 3; 2] in
   let '(rank', cost') :=
     rank_generation [0; 0; 0] [50; 0; 100]%Z generation cost_matrix 4 3 1 in
   let '(generation', _) := move_top rank' generation (replicate 12 9) 4 1 in
   rank' = [1; 0; 2] ∧ cost' = [95; 145; 180]%Z ∧
   row generation' 4 0 = [0; 2; 1; 3] ∧
   tour_cost cost_matrix 4 (row generation' 4 0) = 95%Z ∧
   tour_cost cost_matrix 4 (row generation 4 0) = 95%Z ∧
   tour_cost cost_matrix 4 (row generation 4 2) = 80%Z) ∧
  (let big := (2 ^ 30)%Z in
   let cost_matrix := [0; big; 1; 1; big; 0; 1; 1; 1; 1; 0; big; 1; 1; big; 0]%Z in
   let generation := [0; 1; 2; 3; 0; 2; 1; 3] in
   let '(rank', cost') :=
     rank_generation [0; 0] [0; 0]%Z generation cost_matrix 4 2 1 in
   let '(generation', _) := move_top rank' generation (replicate 8 9) 4 1 in
   cost' = [-2147483646; 4]%Z ∧ row generation' 4 0 = [0; 1; 2; 3] ∧
   tour_cost cost_matrix 4 (row generation' 4 0) = 2147483650%Z ∧
   tour_cost cost_matrix 4 (row generation 4 1) = 4%Z).
Proof. vm_compute. repeat split. Qed.

(** C9.  [move_top] copies the [best_num] ranked rows into the scratch
    buffer and exchanges the two buffers: the old population becomes the
    scratch buffer, untouched; every cell of the new population from row
    [best_num] on is what the scratch buffer held before the call; a second
    call exchanges the buffers back.  [generate], run on the new population,
    leaves everything outside rows [best_num .. population-1] as it was and
    puts a tour in each of those rows; and what it returns on the first
    [population] rows does not depend on what the scratch buffer held. *)
Theorem move_top_leaves_stale_rows (rank : list nat)
    (generation generation_copy : list nat) (numNodes best_num : nat)
    (generation' generation_copy' : list nat) :
  move_top rank generation generation_copy numNodes best_num
  = (generation', generation_copy') →
  generation_copy' = generation ∧
  length generation' = length generation_copy ∧
  (∀ idx, best_num * numNodes ≤ idx →
          generation' !!! idx = generation_copy !!! idx) ∧
  (best_num * numNodes ≤ length generation_copy →
   ∀ i k, i < best_num → k < numNodes →
          generation' !!! (i * numNodes + k)
          = generation !!! (rank !!! i * numNodes + k)) ∧
  (∀ rank2 generation'' generation_copy'',
     move_top rank2 generation' generation_copy' numNodes best_num
     = (generation'', generation_copy'') →
     generation_copy'' = generation' ∧
     length generation'' = length generation ∧
     ∀ idx, best_num * numNodes ≤ idx →
            generation'' !!! idx = generation !!! idx) ∧
  (∀ population mutatProb rng g2 rng2,
     population * numNodes ≤ length generation' →
     (∀ p, p < best_num → is_tour numNodes (row generation' numNodes p)) →
     generate generation' population best_num numNodes mutatProb rng
     = Ok (g2, rng2) →
     (∀ idx, ¬ (best_num * numNodes ≤ idx < population * numNodes) →
             g2 !!! idx = generation' !!! idx) ∧
     (∀ s, best_num ≤ s < population → is_tour numNodes (row g2 numNodes s))) ∧
  (∀ other generation_o copy_o population mutatProb rng,
     length other = length generation_copy →
     move_top rank generation other numNodes best_num = (generation_o, copy_o) →
     population * numNodes ≤ length generation' → best_num ≤ population →
     (∀ p, p < best_num → is_tour numNodes (row generation' numNodes p)) →
     same_outcome (population * numNodes)
       (generate generation' population best_num numNodes mutatProb rng)
       (generate generation_o population best_num numNodes mutatProb rng)).
Proof.
  intros Hmove.
  destruct (move_top_spec _ _ _ _ _ _ _ Hmove) as (Hc & Hl & Hstale & Hcopied).
  split; [done|]. split; [done|]. split; [done|]. split; [|split; [|split]].
  - intros Hfit i k Hi Hk. by apply Hcopied.
  - intros rank2 g'' c'' Hmove2.
    destruct (move_top_spec _ _ _ _ _ _ _ Hmove2) as (Hc2 & Hl2 & Hstale2 & _).
    subst generation_copy'. done.
  - intros population mutatProb rng g2 rng2 Hfit Helite Hgen.
    destruct (generate_spec _ _ _ _ _ _ _ _ Hfit Helite Hgen)
      as (_ & Hout & _ & Hnew).
    done.
  - intros other generation_o copy_o population mutatProb rng Hlo Hmove_o
      Hfit Hb Helite.
    destruct (move_top_spec _ _ _ _ _ _ _ Hmove_o) as (_ & Hl_o & _ & Hcopied_o).
    apply generate_agree; [done..|].
    split; [lia|]. intros idx Hidx.
    assert (Hn: numNodes ≠ 0) by (intros ->; lia).
    pose proof (Nat.div_mod_eq idx numNodes) as Hdm.
    pose proof (Nat.mod_upper_bound idx numNodes Hn) as Hk.
    assert (Hi: idx / numNodes < best_num).
    { apply Nat.Div0.div_lt_upper_bound. lia. }
    rewrite Hdm, (Nat.mul_comm numNodes).
    rewrite Hcopied, Hcopied_o by nia. done.
Qed.

Lemma is_tourb_correct (numNodes : nat) (t : list nat) :
  is_tourb numNodes t = true → is_tour numNodes t.
Proof.
  unfold is_tourb. intros [Hl Hall]%andb_prop.
  apply bool_decide_eq_true in Hl.
  unfold is_tour. symmetry. apply submseteq_length_Permutation.
  - apply NoDup_submseteq; [apply NoDup_seq|].
    intros x Hx. rewrite forallb_forall in Hall.
    specialize (Hall x). rewrite <- list_elem_of_In in Hall.
    apply Hall in Hx. by apply bool_decide_eq_true in Hx.
  - rewrite length_seq. lia.
Qed.

Lemma move_top_leaves_stale_rows_witness :
  [1; 0; 2; 0; 1; 2; 9; 9; 9; 6; 6; 6] !!! 7
  = [7; 7; 7; 8; 8; 8; 9; 9; 9; 6; 6; 6] !!! 7 ∧
  is_tour 3 (row [1; 0; 2; 0; 1; 2; 1; 0; 2; 0; 1; 2] 3 3).
Proof.
  destruct (move_top_leaves_stale_rows [2; 0; 1; 3]
              [0; 1; 2; 2; 0; 1; 1; 0; 2; 2; 1; 0]
              [7; 7; 7; 8; 8; 8; 9; 9; 9; 6; 6; 6] 3 2
              [1; 0; 2; 0; 1; 2; 9; 9; 9; 6; 6; 6]
              [0; 1; 2; 2; 0; 1; 1; 0; 2; 2; 1; 0] eq_refl)
    as (_ & _ & Hstale & _ & _ & Hgen & _).
  split.
  - apply (Hstale 7). simpl. lia.
  - apply (Hgen 4 0%float [5; 1; 7; 5; 0; 1]
             [1; 0; 2; 0; 1; 2; 1; 0; 2; 0; 1; 2] []).
    + simpl. lia.
    + intros p Hp. apply is_tourb_correct.
      destruct p as [|[|p]]; [reflexivity|reflexivity|lia].
    + reflexivity.
    + lia.
Defined.

(** * The reproduction engine *)

Lemma crossover_returns (g : list nat) (parent1 parent2 son numNodes : nat)
    (mutatProb : float) (r r1 : nat) (rest : list nat) :
  numNodes ≠ 0 → Exists (λ d, d mod numNodes ≠ r1 mod numNodes) rest →
  ∃ g' rng',
    crossover_firstHalf_withMutation g parent1 parent2 son numNodes mutatProb
      (r :: r1 :: rest) = Ok (g', rng').
Proof.
  intros Hn Hex. unfold crossover_firstHalf_withMutation.
  destruct (for_loop (numNodes / 2) 0 (take_step parent1 son numNodes) (g, ∅))
    as [g1 nodes].
  destruct (for_loop numNodes 0 (fill_step nodes parent2 son numNodes)
              (g1, numNodes / 2)) as [g2 j].
  unfold bind, rand, rand_mod, ret.
  destruct (mutation_triggers r mutatProb); [|eauto].
  destruct (decide (numNodes = 0)); [done|].
  destruct (draw_until_differs_total numNodes (r1 mod numNodes) rest Hn Hex)
    as (x & rng' & ->).
  eauto.
Qed.

(** ** generate returns *)

Lemma draws_alternate_cons (m a b : nat) (rest : list nat) :
  draws_alternate m (a :: b :: rest) = true →
  a mod m ≠ b mod m ∧ draws_alternate m (b :: rest) = true.
Proof.
  cbn [draws_alternate]. intros [Hne Hrest]%andb_prop. split; [|done].
  by apply negb_true_iff, Nat.eqb_neq in Hne.
Qed.

Lemma draws_alternate_drop (m k : nat) (rng : list nat) :
  draws_alternate m rng = true → draws_alternate m (drop k rng) = true.
Proof.
  revert rng. induction k as [|k IH]; intros rng Halt; [by rewrite drop_0|].
  destruct rng as [|a [|b rest]]; [done|by destruct k|].
  apply draws_alternate_cons in Halt as [_ Halt]. by apply IH.
Qed.

(** The choice of the parents takes at most two draws. *)
Lemma select_parents_returns (best_num i : nat) (rng : list nat) :
  best_num ≠ 0 → draws_alternate best_num rng = true → 2 ≤ length rng →
  ∃ parents k,
    k ≤ 2 ∧ select_parents best_num i rng = Ok (parents, drop k rng).
Proof.
  intros Hb Halt Hlen.
  destruct rng as [|a [|b rest]]; [simpl in Hlen; lia..|].
  apply draws_alternate_cons in Halt as [Hab _].
  unfold select_parents, bind, ret, rand_mod.
  destruct (decide (i < best_num)) as [Hi|Hi].
  - cbn [draw_until_differs]. destruct (decide (best_num = 0)); [done|].
    destruct (decide (a mod best_num = i)) as [Hai|Hai].
    + destruct (decide (b mod best_num = i)) as [Hbi|Hbi]; [congruence|].
      exists (i, b mod best_num), 2. split; [lia|done].
    + exists (i, a mod best_num), 1. split; [lia|done].
  - destruct (decide (best_num = 0)); [done|].
    cbn [draw_until_differs]. destruct (decide (best_num = 0)); [done|].
    pose proof (Nat.mod_upper_bound b best_num Hb).
    destruct (decide (b mod best_num = i)) as [Hbi|Hbi]; [lia|].
    exists (a mod best_num, b mod best_num), 2. split; [lia|done].
Qed.

(** The crossover takes at most three draws. *)
Lemma crossover_returns_alternate (g : list nat)
    (parent1 parent2 son numNodes : nat) (mutatProb : float) (rng : list nat) :
  numNodes ≠ 0 → draws_alternate numNodes rng = true → 3 ≤ length rng →
  ∃ g' k,
    k ≤ 3 ∧
    crossover_firstHalf_withMutation g parent1 parent2 son numNodes mutatProb rng
    = Ok (g', drop k rng).
Proof.
  intros Hn Halt Hlen.
  destruct rng as [|r [|a [|b rest]]]; [simpl in Hlen; lia..|].
  apply draws_alternate_cons in Halt as [_ Halt].
  apply draws_alternate_cons in Halt as [Hab _].
  unfold crossover_firstHalf_withMutation.
  destruct (for_loop (numNodes / 2) 0 (take_step parent1 son numNodes) (g, ∅))
    as [g1 nodes].
  destruct (for_loop numNodes 0 (fill_step nodes parent2 son numNodes)
              (g1, numNodes / 2)) as [g2 j].
  unfold bind, rand, rand_mod, ret.
  destruct (mutation_triggers r mutatProb).
  - destruct (decide (numNodes = 0)); [done|].
    cbn [draw_until_differs]. destruct (decide (numNodes = 0)); [done|].
    destruct (decide (b mod numNodes = a mod numNodes)); [congruence|].
    eexists _, 3. split; [lia|done].
  - eexists _, 1. split; [lia|done].
Qed.

(** One iteration of the loop of [generate] takes at most five draws. *)
Lemma generate_step_returns (best_num numNodes : nat) (mutatProb : float)
    (i : nat) (g : list nat) (rng : list nat) :
  best_num ≠ 0 → numNodes ≠ 0 →
  draws_alternate best_num rng = true → draws_alternate numNodes rng = true →
  5 ≤ length rng →
  ∃ g' k,
    k ≤ 5 ∧
    generate_step best_num numNodes mutatProb i g rng = Ok (g', drop k rng).
Proof.
  intros Hb Hn Hab Han Hlen. unfold generate_step. unfold bind at 1.
  destruct (select_parents_returns best_num i rng Hb Hab ltac:(lia))
    as ([parent1 parent2] & k & Hk & ->).
  destruct (crossover_returns_alternate g parent1 parent2
              ((best_num + i) * numNodes) numNodes mutatProb (drop k rng) Hn)
    as (g' & k' & Hk' & ->).
  - by apply draws_alternate_drop.
  - rewrite length_drop. lia.
  - exists g', (k + k'). split; [lia|]. by rewrite drop_drop.
Qed.

(** [generate] returns when the draws let every redraw loop exit by its
    second draw and there are five of them for every row to fill. *)
Lemma generate_returns (g : list nat) (population best_num numNodes : nat)
    (mutatProb : float) (rng : list nat) :
  best_num ≠ 0 → numNodes ≠ 0 →
  draws_alternate best_num rng = true → draws_alternate numNodes rng = true →
  5 * (population - best_num) ≤ length rng →
  ∃ g' k,
    k ≤ 5 * (population - best_num) ∧
    generate g population best_num numNodes mutatProb rng = Ok (g', drop k rng).
Proof.
  intros Hb Hn. unfold generate.
  generalize (population - best_num) as count.
  assert (Hloop: ∀ count lo g rng,
            draws_alternate best_num rng = true →
            draws_alternate numNodes rng = true →
            5 * count ≤ length rng →
            ∃ g' k,
              k ≤ 5 * count ∧
              for_loopM count lo (generate_step best_num numNodes mutatProb) g rng
              = Ok (g', drop k rng)); [|intros count; apply Hloop].
  clear g rng. intros count.
  induction count as [|c IH]; intros lo g rng Hab Han Hlen.
  - exists g, 0. split; [lia|]. by rewrite drop_0.
  - cbn [for_loopM]. unfold bind.
    destruct (generate_step_returns best_num numNodes mutatProb lo g rng
                Hb Hn Hab Han ltac:(lia)) as (g1 & k & Hk & ->).
    destruct (IH (Datatypes.S lo) g1 (drop k rng)) as (g' & k' & Hk' & ->).
    + by apply draws_alternate_drop.
    + by apply draws_alternate_drop.
    + rewrite length_drop. lia.
    + exists g', (k + k'). split; [lia|]. by rewrite drop_drop.
Qed.

(** C1.  The child that [crossover_firstHalf_withMutation] writes into the
    son row, from two parent rows that are tours, is a tour, mutated or not;
    the function returns as soon as the draws hold a second swap position
    that differs from the first.  Consequently every row of the population is
    a tour: after the initialisation, and after each generation (ranking,
    [move_top], [generate]) that starts from a population of tours.  The
    generation does return such a population: with at least one elite,
    [generate] returns whenever no two draws in a row have the same residue
    modulo [best_num] or modulo [numNodes] and there are five draws for
    every row to fill. *)
Theorem tours_remain_tours :
  (∀ (g : list nat) (parent1 parent2 s numNodes : nat) (mutatProb : float)
     (rng g' rng' : list nat),
     parent1 < s → parent2 < s → (s + 1) * numNodes ≤ length g →
     is_tour numNodes (row g numNodes parent1) →
     is_tour numNodes (row g numNodes parent2) →
     crossover_firstHalf_withMutation g parent1 parent2 (s * numNodes) numNodes
       mutatProb rng = Ok (g', rng') →
     is_tour numNodes (row g' numNodes s)) ∧
  (∀ (g : list nat) (parent1 parent2 son numNodes : nat) (mutatProb : float)
     (r r1 : nat) (rest : list nat),
     numNodes ≠ 0 → Exists (λ d, d mod numNodes ≠ r1 mod numNodes) rest →
     ∃ g' rng',
       crossover_firstHalf_withMutation g parent1 parent2 son numNodes
         mutatProb (r :: r1 :: rest) = Ok (g', rng')) ∧
  (∀ (g : list nat) (numNodes population : nat) (rng g' rng' : list nat),
     population * numNodes ≤ length g →
     init_population g numNodes population rng = Ok (g', rng') →
     ∀ s, s < population → is_tour numNodes (row g' numNodes s)) ∧
  (∀ (rank : list nat) (cost : list Z) (g copy : list nat)
     (cost_matrix : list Z) (numNodes population best_num : nat)
     (mutatProb : float) (rng : list nat)
     (rank' : list nat) (cost' : list Z) (g1 copy1 g2 rng' : list nat),
     1 ≤ numNodes → best_num ≤ population →
     length rank = population → length cost = population →
     population * numNodes ≤ length g → population * numNodes ≤ length copy →
     (∀ s, s < population → is_tour numNodes (row g numNodes s)) →
     rank_generation rank cost g cost_matrix numNodes population best_num
     = (rank', cost') →
     move_top rank' g copy numNodes best_num = (g1, copy1) →
     generate g1 population best_num numNodes mutatProb rng = Ok (g2, rng') →
     ∀ s, s < population → is_tour numNodes (row g2 numNodes s)) ∧
  (∀ (rank : list nat) (cost : list Z) (g copy : list nat)
     (cost_matrix : list Z) (numNodes population best_num : nat)
     (mutatProb : float) (rng : list nat)
     (rank' : list nat) (cost' : list Z) (g1 copy1 : list nat),
     1 ≤ numNodes → 1 ≤ best_num ≤ population →
     length rank = population → length cost = population →
     population * numNodes ≤ length g → population * numNodes ≤ length copy →
     (∀ s, s < population → is_tour numNodes (row g numNodes s)) →
     rank_generation rank cost g cost_matrix numNodes population best_num
     = (rank', cost') →
     move_top rank' g copy numNodes best_num = (g1, copy1) →
     draws_alternate best_num rng = true →
     draws_alternate numNodes rng = true →
     5 * (population - best_num) ≤ length rng →
     ∃ g2 k,
       k ≤ 5 * (population - best_num) ∧
       generate g1 population best_num numNodes mutatProb rng
       = Ok (g2, drop k rng) ∧
       ∀ s, s < population → is_tour numNodes (row g2 numNodes s)).
Proof.
  assert (Hgeneration:
    ∀ (rank : list nat) (cost : list Z) (g copy : list nat)
      (cost_matrix : list Z) (numNodes population best_num : nat)
      (mutatProb : float) (rng : list nat)
      (rank' : list nat) (cost' : list Z) (g1 copy1 g2 rng' : list nat),
      1 ≤ numNodes → best_num ≤ population →
      length rank = population → length cost = population →
      population * numNodes ≤ length g → population * numNodes ≤ length copy →
      (∀ s, s < population → is_tour numNodes (row g numNodes s)) →
      rank_generation rank cost g cost_matrix numNodes population best_num
      = (rank', cost') →
      move_top rank' g copy numNodes best_num = (g1, copy1) →
      generate g1 population best_num numNodes mutatProb rng = Ok (g2, rng') →
      ∀ s, s < population → is_tour numNodes (row g2 numNodes s)).
  { intros rank cost g copy cost_matrix numNodes population best_num mutatProb
      rng rank' cost' g1 copy1 g2 rng' Hn Hb Hlr Hlc Hfit Hfitc Htours
      Hrank Hmove Hgen.
    destruct (rank_generation_spec _ _ _ _ _ _ _ _ _ Hn Hlr Hlc Hrank)
      as (_ & _ & _ & Hcost & _).
    destruct (move_top_spec _ _ _ _ _ _ _ Hmove) as (_ & Hl1 & _ & Hcopied).
    assert (Helite: ∀ p, p < best_num → is_tour numNodes (row g1 numNodes p)).
    { intros p Hp. destruct (Hcost p ltac:(lia)) as [Hr _].
      rewrite (row_eq_cells g1 g numNodes p (rank' !!! p)); [|nia|nia|].
      - by apply Htours.
      - intros k Hk. apply Hcopied; [done|done|nia]. }
    destruct (generate_spec g1 population best_num numNodes mutatProb rng g2 rng'
                ltac:(lia) Helite Hgen) as (_ & _ & Hkeep & Hnew).
    intros s Hs. destruct (decide (s < best_num)) as [Hlo|Hhi].
    + rewrite Hkeep by done. by apply Helite.
    + apply Hnew. lia. }
  split; [|split; [|split; [|split]]].
  - intros g parent1 parent2 s numNodes mutatProb rng g' rng'
      Hp1 Hp2 Hfit Ht1 Ht2 Hrun.
    by destruct (crossover_spec _ _ _ _ _ _ _ _ _ Hp1 Hp2 Hfit Ht1 Ht2 Hrun)
      as (_ & _ & ?).
  - intros. by apply crossover_returns.
  - intros g numNodes population rng g' rng' Hfit Hrun.
    by destruct (init_population_spec _ _ _ _ _ _ Hfit Hrun).
  - exact Hgeneration.
  - intros rank cost g copy cost_matrix numNodes population best_num mutatProb
      rng rank' cost' g1 copy1 Hn Hb Hlr Hlc Hfit Hfitc Htours Hrank Hmove
      Hab Han Hlen.
    destruct (generate_returns g1 population best_num numNodes mutatProb rng
                ltac:(lia) ltac:(lia) Hab Han Hlen) as (g2 & k & Hk & Hgen).
    exists g2, k. split; [done|]. split; [done|].
    apply (Hgeneration rank cost g copy cost_matrix numNodes population
             best_num mutatProb rng rank' cost' g1 copy1 g2 (drop k rng));
      [done|lia|done..].
Qed.

Lemma tours_remain_tours_witness :
  is_tour 4 (row [0; 1; 2; 3; 3; 2; 1; 0; 0; 1; 2; 3] 4 2) ∧
  is_tour 3 (row [0; 1; 2; 1; 0; 2; 0; 1; 2; 1; 0; 2] 3 3) ∧
  ∃ g2 k,
    k ≤ 5 * (4 - 2) ∧
    generate [0; 1; 2; 1; 0; 2; 9; 9; 9; 6; 6; 6] 4 2 3 1%float
      [0; 1; 2; 3; 4; 5; 6; 7; 8; 9]
    = Ok (g2, drop k [0; 1; 2; 3; 4; 5; 6; 7; 8; 9]) ∧
    ∀ s, s < 4 → is_tour 3 (row g2 3 s).
Proof.
  destruct tours_remain_tours as (Hcross & _ & _ & Hgen & Hret).
  assert (Htours: ∀ s, s < 4 →
            is_tour 3 (row [0; 1; 2; 1; 0; 2; 0; 1; 2; 2; 1; 0] 3 s)).
  { intros s Hs. apply is_tourb_correct.
    destruct s as [|[|[|[|s]]]]; [reflexivity..|lia]. }
  split; [|split].
  - apply (Hcross [0; 1; 2; 3; 3; 2; 1; 0; 9; 9; 9; 9] 0 1 2 4 1%float
             [5; 2; 6; 3] _ []).
    + lia.
    + lia.
    + simpl. lia.
    + apply is_tourb_correct. reflexivity.
    + apply is_tourb_correct. reflexivity.
    + reflexivity.
  - apply (Hgen [0; 0; 0; 0] [0; 0; 0; 0]%Z
             [0; 1; 2; 1; 0; 2; 0; 1; 2; 2; 1; 0]
             [7; 7; 7; 8; 8; 8; 9; 9; 9; 6; 6; 6]
             [0; 1; 2; 1; 0; 4; 2; 4; 0]%Z 3 4 2 0%float [5; 1; 7; 5; 0; 1]
             [0; 1; 2; 3] [7; 7; 7; 7]%Z
             [0; 1; 2; 1; 0; 2; 9; 9; 9; 6; 6; 6]
             [0; 1; 2; 1; 0; 2; 0; 1; 2; 2; 1; 0] _ []).
    + lia.
    + lia.
    + reflexivity.
    + reflexivity.
    + simpl. lia.
    + simpl. lia.
    + exact Htours.
    + reflexivity.
    + reflexivity.
    + reflexivity.
    + lia.
  - apply (Hret [0; 0; 0; 0] [0; 0; 0; 0]%Z
             [0; 1; 2; 1; 0; 2; 0; 1; 2; 2; 1; 0]
             [7; 7; 7; 8; 8; 8; 9; 9; 9; 6; 6; 6]
             [0; 1; 2; 1; 0; 4; 2; 4; 0]%Z 3 4 2 1%float
             [0; 1; 2; 3; 4; 5; 6; 7; 8; 9]
             [0; 1; 2; 3] [7; 7; 7; 7]%Z
             [0; 1; 2; 1; 0; 2; 9; 9; 9; 6; 6; 6]
             [0; 1; 2; 1; 0; 2; 0; 1; 2; 2; 1; 0]).
    + lia.
    + lia.
    + reflexivity.
    + reflexivity.
    + simpl. lia.
    + simpl. lia.
    + exact Htours.
    + reflexivity.
    + reflexivity.
    + reflexivity.
    + reflexivity.
    + simpl. lia.
Defined.

(** C5.  For slot [i], [parent1] is [i] when [i < best_num] and otherwise
    the first draw reduced modulo [best_num]; [parent2] is a draw reduced
    modulo [best_num], taken after every earlier draw reduced to [i], so on
    exit it lies in [0, best_num) and differs from [i].  Nothing keeps it from
    being equal to [parent1]: slot 2 with two elites and the draws 1, 1 gets
    both parents equal to 1. *)
Theorem parent_selection :
  (∀ (best_num i : nat) (rng : list nat) (parent1 parent2 : nat)
     (rng' : list nat),
     select_parents best_num i rng = Ok (parent1, parent2, rng') →
     (i < best_num → parent1 = i) ∧
     (best_num ≤ i → ∃ r rest, rng = r :: rest ∧ parent1 = r mod best_num) ∧
     parent1 < best_num ∧ parent2 < best_num ∧ parent2 ≠ i ∧
     ∃ rng1 skipped r,
       (if decide (i < best_num) then rng1 = rng else rng1 = drop 1 rng) ∧
       rng1 = skipped ++ r :: rng' ∧ parent2 = r mod best_num ∧
       Forall (λ d, d mod best_num = i) skipped) ∧
  select_parents 2 2 [1; 1] = Ok (1, 1, []).
Proof.
  split; [|reflexivity].
  intros best_num i rng parent1 parent2 rng'. apply select_parents_spec.
Qed.

Lemma parent_selection_witness :
  select_parents 3 1 [7; 4; 5; 6] = Ok (1, 2, [6]) ∧ 2 < 3 ∧ 2 ≠ 1 ∧
  select_parents 3 4 [7; 4; 3; 6] = Ok (1, 1, [3; 6]) ∧ 1 < 3 ∧ 1 ≠ 4.
Proof.
  destruct parent_selection as [Hsel _].
  destruct (Hsel 3 1 [7; 4; 5; 6] 1 2 [6] eq_refl)
    as (_ & _ & H1 & H2 & H3 & _).
  destruct (Hsel 3 4 [7; 4; 3; 6] 1 1 [3; 6] eq_refl)
    as (_ & _ & H4 & _ & H6 & _).
  split; [reflexivity|]. split; [exact H2|]. split; [exact H3|].
  split; [reflexivity|]. split; [exact H4|]. exact H6.
Defined.

(** C7.  [generate] writes no cell of the first [best_num] rows: each elite
    row is the same list after the call as before it.  When the elite rows
    are tours, it writes no cell from row [population] on either, so the
    rows it writes are those with index in [best_num, population). *)
Theorem generate_preserves_elite (generation : list nat)
    (population best_num numNodes : nat) (mutatProb : float)
    (rng : list nat) (generation' : list nat) (rng' : list nat) :
  generate generation population best_num numNodes mutatProb rng
  = Ok (generation', rng') →
  length generation' = length generation ∧
  (∀ idx, idx < best_num * numNodes → generation' !!! idx = generation !!! idx) ∧
  (∀ i, i < best_num → row generation' numNodes i = row generation numNodes i) ∧
  (population * numNodes ≤ length generation →
   (∀ p, p < best_num → is_tour numNodes (row generation numNodes p)) →
   ∀ idx, population * numNodes ≤ idx → generation' !!! idx = generation !!! idx).
Proof.
  intros Hrun. destruct (generate_frame _ _ _ _ _ _ _ _ Hrun) as [Hl Hf].
  split; [done|]. split; [done|]. split.
  - intros i Hi. apply row_ext; [done|]. intros k Hk. apply Hf. nia.
  - intros Hfit Helite idx Hidx.
    destruct (generate_spec _ _ _ _ _ _ _ _ Hfit Helite Hrun) as (_ & Hout & _).
    apply Hout. lia.
Qed.

Lemma generate_preserves_elite_witness :
  row [1; 0; 2; 0; 1; 2; 1; 0; 2; 0; 1; 2; 5; 5] 3 1
  = row [1; 0; 2; 0; 1; 2; 9; 9; 9; 6; 6; 6; 5; 5] 3 1 ∧
  [1; 0; 2; 0; 1; 2; 1; 0; 2; 0; 1; 2; 5; 5] !!! 13
  = [1; 0; 2; 0; 1; 2; 9; 9; 9; 6; 6; 6; 5; 5] !!! 13.
Proof.
  destruct (generate_preserves_elite
              [1; 0; 2; 0; 1; 2; 9; 9; 9; 6; 6; 6; 5; 5] 4 2 3 0%float
              [5; 1; 7; 5; 0; 1]
              [1; 0; 2; 0; 1; 2; 1; 0; 2; 0; 1; 2; 5; 5] [] eq_refl)
    as (_ & _ & Hrows & Hup).
  split.
  - apply Hrows. lia.
  - apply Hup.
    + simpl. lia.
    + intros p Hp. apply is_tourb_correct.
      destruct p as [|[|p]]; [reflexivity|reflexivity|lia].
    + lia.
Defined.

(** * The convergence controller *)

Lemma for_loop_fold {A : Type} `{Inhabited A} (f : float → A → float)
    (a : list A) (len : nat) (acc : float) :
  len ≤ length a →
  for_loop len 0 (λ i acc, f acc (a !!! i)) acc = fold_left f (take len a) acc.
Proof.
  induction len as [|len IH]; intros Hlen.
  - by rewrite take_0.
  - rewrite for_loop_snoc, IH by lia. simpl.
    rewrite (take_S_r a len (a !!! len));
      [|apply list_lookup_lookup_total_lt; lia].
    by rewrite fold_left_app.
Qed.

Lemma fold_left_map {A B C : Type} (f : C → B → C) (g : A → B) (l : list A)
    (acc : C) :
  fold_left f (map g l) acc = fold_left (λ c a, f c (g a)) l acc.
Proof. revert acc. induction l as [|x l IH]; intros acc; simpl; [done|]. apply IH. Qed.

Lemma stdDev_population_std_dev (window : list float) :
  stdDev window (length window) = population_std_dev window.
Proof.
  unfold stdDev, population_std_dev, float_sum. cbv zeta.
  rewrite (for_loop_fold PrimFloat.add window) by done.
  rewrite (for_loop_fold (λ var x, var + (x - _) * (x - _))%float window) by done.
  rewrite firstn_all. by rewrite fold_left_map.
Qed.

(** C3.  In iteration [i] (from 1 on) the controller stores the mean of the
    first [AVGELEMS] costs in slot [(i - 1) mod earlyStopRounds] of the window
    and leaves the other slots alone.  While [i < earlyStopRounds] it does not
    call [stdDev] and does not signal.  From [i = earlyStopRounds] on it
    calls [stdDev] on the updated window, which is the population standard
    deviation of its [earlyStopRounds] entries, and signals exactly when that
    value is [<= earlyStopParam]. *)
Theorem convergence_controller (generation_cost : list Z)
    (lastRounds : list float) (i earlyStopRounds : nat) (earlyStopParam : float) :
  earlyStopRounds ≠ 0 → 1 ≤ i → AVGELEMS ≤ length generation_cost →
  length lastRounds = earlyStopRounds →
  let slot := (i - 1) mod earlyStopRounds in
  let window := <[slot := mean_of_best generation_cost]> lastRounds in
  ∃ sd converged,
    early_stop generation_cost lastRounds i earlyStopRounds earlyStopParam
    = Ok (window, sd, converged) ∧
    window !!! slot = mean_of_best generation_cost ∧
    (∀ s, s ≠ slot → window !!! s = lastRounds !!! s) ∧
    (i < earlyStopRounds → sd = None ∧ converged = false) ∧
    (earlyStopRounds ≤ i → sd = Some (population_std_dev window)) ∧
    (converged = true ↔
     earlyStopRounds ≤ i ∧
     (population_std_dev window <=? earlyStopParam)%float = true).
Proof.
  intros HR Hi Hcost Hlen. cbv zeta.
  assert (Hslot: (i - 1) mod earlyStopRounds < earlyStopRounds)
    by (by apply Nat.mod_upper_bound).
  unfold early_stop.
  rewrite (for_loop_fold (λ avg c, avg + double_of_int c)%float generation_cost)
    by done.
  rewrite <- (fold_left_map PrimFloat.add double_of_int).
  fold (float_sum (map double_of_int (take AVGELEMS generation_cost))).
  fold (mean_of_best generation_cost).
  destruct (decide (earlyStopRounds = 0)) as [|_]; [done|].
  set (window := <[(i - 1) mod earlyStopRounds := mean_of_best generation_cost]>
                   lastRounds).
  assert (Hsd: stdDev window earlyStopRounds = population_std_dev window).
  { rewrite <- stdDev_population_std_dev. f_equal.
    unfold window. by rewrite length_insert. }
  destruct (decide (earlyStopRounds ≤ i)) as [Hfull|Hpart].
  - eexists _, _. split; [done|]. rewrite Hsd.
    split; [unfold window; rewrite list_lookup_total_insert_eq; [done|lia]|].
    split; [intros s Hs; unfold window; by rewrite list_lookup_total_insert_ne|].
    split; [intros; lia|]. split; [done|]. tauto.
  - eexists _, _. split; [done|].
    split; [unfold window; rewrite list_lookup_total_insert_eq; [done|lia]|].
    split; [intros s Hs; unfold window; by rewrite list_lookup_total_insert_ne|].
    split; [done|]. split; [intros; lia|].
    split; [done|]. intros [? _]. lia.
Qed.

Lemma convergence_controller_witness :
  early_stop [10; 10; 10; 10; 10; 12]%Z [10; 10; 9]%float 3 3 0%float
  = Ok ([10; 10; 10]%float, Some 0%float, true).
Proof.
  destruct (convergence_controller [10; 10; 10; 10; 10; 12]%Z [10; 10; 9]%float
              3 3 0%float ltac:(lia) ltac:(lia)
              ltac:(unfold AVGELEMS; simpl; lia) eq_refl)
    as (sd & converged & Hrun & _ & _ & _ & Hsd & Hconv).
  rewrite Hrun, (Hsd ltac:(lia)).
  replace converged with true.
  - reflexivity.
  - symmetry. apply Hconv. split; [lia|reflexivity].
Defined.

Lemma early_stop_called (generation_cost : list Z) (lastRounds : list float)
    (i earlyStopRounds : nat) (earlyStopParam : float)
    (window : list float) (v : float) (converged : bool) :
  early_stop generation_cost lastRounds i earlyStopRounds earlyStopParam
  = Ok (window, Some v, converged) →
  earlyStopRounds ≤ i.
Proof.
  unfold early_stop. destruct (decide (earlyStopRounds = 0)); [done|].
  destruct (decide (earlyStopRounds ≤ i)); [done|]. intros [=].
Qed.

(** Over a whole run of the loop, [stdDev] is called in no iteration before
    the window is full. *)
Lemma generation_loop_stdDev_calls
    (rank_generation_detailed :
       list Z → list nat → list nat → list Z → nat → nat → Z → nat →
       list Z * list nat * list nat)
    (generate_detailed : list nat → nat → Z → nat → Z → nat → Rand (list nat))
    (numThreads : nat) (cost_matrix : list Z) (numNodes population : nat)
    (best_num probCentile : Z) (earlyStopRounds : nat)
    (earlyStopParam : float) (count i : nat) (st : engine_state)
    (rng : list nat) (st' : engine_state) (converged : bool) (rng' : list nat) :
  generation_loop rank_generation_detailed generate_detailed numThreads
    cost_matrix numNodes population best_num probCentile earlyStopRounds
    earlyStopParam count i st rng = Ok (st', converged, rng') →
  Forall (λ j, earlyStopRounds ≤ j) (es_stdDev_calls st) →
  Forall (λ j, earlyStopRounds ≤ j) (es_stdDev_calls st').
Proof.
  revert i st rng. induction count as [|c IH]; intros i st rng Hrun Hst.
  - simpl in Hrun. by injection Hrun as <- <- <-.
  - simpl in Hrun. unfold bind at 1 in Hrun.
    destruct (generation_body _ _ _ _ _ _ _ _ _ _ i st rng)
      as [[[st1 conv1] rng1]| |] eqn:Hbody; [|done..].
    assert (Hst1: Forall (λ j, earlyStopRounds ≤ j) (es_stdDev_calls st1)).
    { unfold generation_body, bind in Hbody.
      destruct (generate_detailed _ _ _ _ _ _ rng) as [[g1 r1]| |]; [|done..].
      destruct (rank_generation_detailed _ _ _ _ _ _ _ _) as [[c1 g2] gc2].
      destruct (early_stop c1 (es_lastRounds st) i earlyStopRounds earlyStopParam)
        as [[[w sd] cv]| |] eqn:Hes; [|done..].
      injection Hbody as <- <- <-. simpl.
      apply Forall_app. split; [done|].
      destruct sd as [v|]; [|constructor].
      apply early_stop_called in Hes. by repeat constructor. }
    destruct conv1.
    + by injection Hrun as <- <- <-.
    + by apply (IH _ _ _ Hrun).
Qed.

(** ** The initialisation returns *)

Lemma for_loopM_returns {S : Type} (c count lo : nat)
    (body : nat → S → Rand S) (s : S) (rng : list nat) :
  (∀ i s rng, c ≤ length rng → ∃ s', body i s rng = Ok (s', drop c rng)) →
  count * c ≤ length rng →
  ∃ s', for_loopM count lo body s rng = Ok (s', drop (count * c) rng).
Proof.
  intros Hbody. revert lo s rng.
  induction count as [|n IH]; intros lo s rng Hlen.
  - simpl. unfold ret. rewrite drop_0. eauto.
  - simpl. unfold bind.
    destruct (Hbody lo s rng ltac:(lia)) as [s1 ->].
    destruct (IH (Datatypes.S lo) s1 (drop c rng)) as [s2 ->].
    + rewrite length_drop. lia.
    + rewrite drop_drop. eauto.
Qed.

Lemma random_shuffle_returns (a : list nat) (first last : nat) (rng : list nat) :
  last - first - 1 ≤ length rng →
  ∃ a', random_shuffle a first last rng = Ok (a', drop (last - first - 1) rng).
Proof.
  intros Hlen. unfold random_shuffle.
  destruct (for_loopM_returns 1 (last - first - 1) 1
              (λ d a, let* r := myRand (d + 1) in
                      ret (if decide (d = r) then a
                           else swap_cells a (first + d) (first + r)))
              a rng) as [a' Ha'].
  - intros d a1 r Hr. destruct r as [|x r]; [simpl in Hr; lia|].
    unfold bind, myRand, rand_mod, ret.
    destruct (decide (d + 1 = 0)); [lia|]. simpl. rewrite drop_0. eauto.
  - lia.
  - rewrite Nat.mul_1_r in Ha'. eauto.
Qed.

Lemma init_population_returns (g : list nat) (numNodes population : nat)
    (rng : list nat) :
  population * (numNodes - 1) ≤ length rng →
  ∃ g', init_population g numNodes population rng
        = Ok (g', drop (population * (numNodes - 1)) rng).
Proof.
  intros Hlen. unfold init_population.
  apply for_loopM_returns; [|done].
  intros i g1 r Hr. cbv beta zeta.
  replace (numNodes - 1) with ((i + 1) * numNodes - i * numNodes - 1) by lia.
  apply random_shuffle_returns. lia.
Qed.

(** * The engine *)

Lemma write_solution_spec (solution : list Z) (generation : list nat)
    (generation_cost : list Z) (numNodes : nat) :
  numNodes + 2 ≤ length solution →
  ∀ s, s = write_solution solution generation generation_cost numNodes →
  length s = length solution ∧
  (∀ k, k < numNodes → s !!! k = Z.of_nat (generation !!! k)) ∧
  s !!! numNodes = generation_cost !!! 0 ∧
  (∀ idx, numNodes < idx → s !!! idx = solution !!! idx).
Proof.
  intros Hlen s ->. unfold write_solution.
  pose (P := λ (j : nat) (s : list Z),
    length s = length solution ∧
    (∀ k, k < j → s !!! k = Z.of_nat (generation !!! k)) ∧
    (∀ idx, j ≤ idx → s !!! idx = solution !!! idx)).
  assert (HP: P (0 + numNodes)
                (for_loop numNodes 0
                   (λ k s, <[k := Z.of_nat (generation !!! k)]> s) solution)).
  { apply for_loop_inv.
    - unfold P. split; [done|]. split; [intros; lia|done].
    - intros j s Hj (Hl & Hin & Hout). unfold P. arr. split; [done|]. split.
      + intros k Hk. destruct (decide (k = j)) as [->|?].
        * by arr.
        * arr. apply Hin. lia.
      + intros idx Hidx. arr. apply Hout. lia. }
  destruct HP as (Hl & Hin & Hout). arr. split; [done|]. split; [|split].
  - intros k Hk. arr. by apply Hin.
  - done.
  - intros idx Hidx. arr. apply Hout. lia.
Qed.

(** C6.  When [best_num], computed as [population * top], equals
    [population], [genetic_tsp] returns right after the first ranking: the
    loop body is never run (nothing is printed to [generationFile], [stdDev]
    is never called, no draw is taken after the initialisation, and neither
    [generate] nor [maxIt] has any influence), and the returned array holds
    row 0 of the ranked population, entry 0 of the cost vector, and the flag
    0.  The run does not fail: it returns as soon as the draws suffice for
    the initial shuffles. *)
Theorem degenerate_configuration
    (rank_generation_detailed :
       list Z → list nat → list nat → list Z → nat → nat → Z → nat →
       list Z * list nat * list nat)
    (generate_detailed : list nat → nat → Z → nat → Z → nat → Rand (list nat))
    (mem : fresh_memory)
    (numThreads : nat) (cost_matrix : list Z) (numNodes population : nat)
    (top : float) (maxIt : nat) (mutatProb : float) (earlyStopRounds : nat)
    (earlyStopParam : float) (rng : list nat) :
  let best_num := int_of_double (double_of_nat population * top) in
  Z.of_nat population = best_num →
  length (fresh_solution mem) = numNodes + 2 →
  population * (numNodes - 1) ≤ length rng →
  ∃ g0 rng0 cost1 g1 copy1 solution,
    init_population (fresh_generation mem) numNodes population rng
    = Ok (g0, rng0) ∧
    rank_generation_detailed (fresh_generation_cost mem) g0
      (fresh_generation_copy mem) cost_matrix numNodes population best_num
      numThreads = (cost1, g1, copy1) ∧
    genetic_tsp rank_generation_detailed generate_detailed mem numThreads
      cost_matrix numNodes population top maxIt mutatProb earlyStopRounds
      earlyStopParam rng
    = Ok ({| run_solution := solution;
             run_generationFile := [];
             run_stdDev_calls := [] |}, rng0) ∧
    length solution = numNodes + 2 ∧
    (∀ k, k < numNodes → solution !!! k = Z.of_nat (g1 !!! k)) ∧
    solution !!! numNodes = cost1 !!! 0 ∧
    solution !!! (numNodes + 1) = 0%Z.
Proof.
  intros best_num Hbest Hsol Hrng.
  destruct (init_population_returns (fresh_generation mem) numNodes population
              rng Hrng) as [g0 Hinit].
  destruct (rank_generation_detailed (fresh_generation_cost mem) g0
              (fresh_generation_copy mem) cost_matrix numNodes population
              best_num numThreads) as [[cost1 g1] copy1] eqn:Hrank.
  exists g0, (drop (population * (numNodes - 1)) rng), cost1, g1, copy1.
  eexists. split; [done|]. split; [done|].
  destruct (write_solution_spec (<[numNodes + 1 := 0%Z]> (fresh_solution mem))
              g1 cost1 numNodes ltac:(rewrite length_insert; lia) _ eq_refl)
    as (Hl & Hrow & Hcost & Hflag).
  split; [|split; [|split; [done|split; [done|]]]].
  - unfold genetic_tsp. fold best_num. unfold bind at 1. rewrite Hinit, Hrank.
    destruct (decide (Z.of_nat population = best_num)) as [_|Hne]; [|done].
    reflexivity.
  - rewrite Hl, length_insert. done.
  - rewrite Hflag by lia. rewrite list_lookup_total_insert_eq by lia. done.
Qed.

Lemma degenerate_configuration_witness :
  genetic_tsp rank_generation_detailed_model generate_detailed_model
    {| fresh_lastRounds := [3; 3]%float;
       fresh_solution := [7; 7; 7; 7; 7; 7]%Z;
       fresh_generation := replicate 20 9;
       fresh_generation_copy := replicate 20 8;
       fresh_generation_cost := [5; 5; 5; 5; 5]%Z |}
    1 [0; 10; 15; 20; 10; 0; 35; 25; 15; 35; 0; 30; 20; 25; 30; 0]%Z 4 5
    1%float 50 0.5%float 2 0%float
    [5; 1; 7; 5; 0; 1; 3; 8; 2; 6; 4; 9; 1; 1; 2; 77]
  = Ok ({| run_solution := [0; 1; 3; 2; 80; 0]%Z;
           run_generationFile := [];
           run_stdDev_calls := [] |}, [77]).
Proof.
  destruct (degenerate_configuration rank_generation_detailed_model
              generate_detailed_model
              {| fresh_lastRounds := [3; 3]%float;
                 fresh_solution := [7; 7; 7; 7; 7; 7]%Z;
                 fresh_generation := replicate 20 9;
                 fresh_generation_copy := replicate 20 8;
                 fresh_generation_cost := [5; 5; 5; 5; 5]%Z |}
              1 [0; 10; 15; 20; 10; 0; 35; 25; 15; 35; 0; 30; 20; 25; 30; 0]%Z
              4 5 1%float 50 0.5%float 2 0%float
              [5; 1; 7; 5; 0; 1; 3; 8; 2; 6; 4; 9; 1; 1; 2; 77]
              eq_refl eq_refl ltac:(simpl; lia))
    as (g0 & rng0 & cost1 & g1 & copy1 & solution & _ & _ & Hrun & _).
  rewrite Hrun. vm_compute in Hrun. injection Hrun as <- <-. reflexivity.
Defined.

(** A run of the whole engine on the four-node matrix of the test scenario,
    with six tours, three elites, at most 50 generations, a window of five
    and threshold 0: the fifth generation fills the window with five equal
    averages, [stdDev] is called once, and the tour returned costs 80. *)
Example scenario_run :
  ∃ rng',
    genetic_tsp rank_generation_detailed_model generate_detailed_model
      {| fresh_lastRounds := replicate 5 3%float;
         fresh_solution := replicate 6 7%Z;
         fresh_generation := replicate 24 9;
         fresh_generation_copy := replicate 24 8;
         fresh_generation_cost := replicate 6 5%Z |}
      1 [0; 10; 15; 20; 10; 0; 35; 25; 15; 35; 0; 30; 20; 25; 30; 0]%Z 4 6
      0.5%float 50 0.125%float 5 0%float (lcg_draws 2000 42)
    = Ok ({| run_solution := [2; 0; 1; 3; 80; 1]%Z;
             run_generationFile := replicate 5 (4, 6, 3%Z);
             run_stdDev_calls := [5] |}, rng').
Proof. eexists. vm_compute. reflexivity. Qed.

(** * The validation in main *)

(** What the test of lines 137-144 accepts, condition by condition.  The
    threshold enters through its conversion to [int]. *)
Lemma main_invokes_iff (argc : Z) (a : parsed_args) :
  (∃ c, main argc a = Invokes c) ↔
  (10 ≤ argc)%Z ∧
  (1 ≤ arg_numThreads a)%Z ∧
  (arg_top a <? 0)%float = false ∧ (1 <? arg_top a)%float = false ∧
  (Z.of_nat AVGELEMS ≤ arg_population a)%Z ∧
  (2 ≤ arg_numNodes a)%Z ∧
  (0 ≤ arg_maxIt a)%Z ∧
  (arg_mutatProb a <? 0)%float = false ∧ (1 <? arg_mutatProb a)%float = false ∧
  (0 < arg_earlyStopRounds a ≤ arg_maxIt a)%Z ∧
  (0 ≤ int_of_double (arg_earlyStopParam a))%Z.
Proof.
  unfold main, invalid_arguments.
  destruct (Z.ltb_spec argc 10).
  { split; [intros [c [=]]|lia]. }
  destruct (Z.ltb_spec (arg_numThreads a) 1); simpl.
  { split; [intros [c [=]]|lia]. }
  destruct (arg_top a <? 0)%float; simpl.
  { split; [intros [c [=]]|]. intros (_ & _ & [=] & _). }
  destruct (1 <? arg_top a)%float; simpl.
  { split; [intros [c [=]]|]. intros (_ & _ & _ & [=] & _). }
  destruct (Z.ltb_spec (arg_population a) (Z.of_nat AVGELEMS)); simpl.
  { split; [intros [c [=]]|lia]. }
  destruct (Z.leb_spec (arg_numNodes a) 1); simpl.
  { split; [intros [c [=]]|lia]. }
  destruct (Z.ltb_spec (arg_maxIt a) 0); simpl.
  { split; [intros [c [=]]|lia]. }
  destruct (arg_mutatProb a <? 0)%float; simpl.
  { split; [intros [c [=]]|]. intros (_ & _ & _ & _ & _ & _ & _ & [=] & _). }
  destruct (1 <? arg_mutatProb a)%float; simpl.
  { split; [intros [c [=]]|]. intros (_ & _ & _ & _ & _ & _ & _ & _ & [=] & _). }
  destruct (Z.ltb_spec (arg_maxIt a) (arg_earlyStopRounds a)); simpl.
  { split; [intros [c [=]]|lia]. }
  destruct (Z.leb_spec (arg_earlyStopRounds a) 0); simpl.
  { split; [intros [c [=]]|lia]. }
  destruct (Z.ltb_spec (int_of_double (arg_earlyStopParam a)) 0); simpl.
  { split; [intros [c [=]]|lia]. }
  split; [|eauto]. intros _. repeat split; try done; lia.
Qed.

Lemma main_returns_or_invokes (argc : Z) (a : parsed_args) :
  main argc a = Returns 1 ∨ ∃ c, main argc a = Invokes c.
Proof.
  unfold main. destruct (argc <? 10)%Z; [by left|].
  destruct (invalid_arguments _ _ _ _ _ _ _ _); [by left|]. right. eauto.
Qed.

(** A fraction that is not a number passes both range tests, since every
    comparison with it is false. *)
Lemma main_accepts_nan_fraction :
  ∃ c, main 10 {| arg_numThreads := 1;
                  arg_numNodes := 4;
                  arg_population := 6;
                  arg_top := nan;
                  arg_maxIt := 50;
                  arg_mutatProb := 0.125;
                  arg_earlyStopRounds := 5;
                  arg_earlyStopParam := 0 |} = Invokes c.
Proof. eexists. reflexivity. Qed.

(** C8 at the failing input.  With the threshold argument -0.5 and every
    other argument within its bounds, the conversion to [int] turns the
    threshold into 0, the test of lines 137-144 passes, and [genetic_tsp] is
    called with threshold 0. *)
Theorem main_accepts_negative_threshold :
  main 10 {| arg_numThreads := 1;
             arg_numNodes := 4;
             arg_population := 6;
             arg_top := 0.5;
             arg_maxIt := 50;
             arg_mutatProb := 0.125;
             arg_earlyStopRounds := 5;
             arg_earlyStopParam := (-0.5) |}
  = Invokes {| call_numThreads := 1;
               call_numNodes := 4;
               call_population := 6;
               call_top := 0.5;
               call_maxIt := 50;
               call_mutatProb := 0.125;
               call_earlyStopRounds := 5;
               call_earlyStopParam := 0 |}.
Proof. reflexivity. Qed.

(** * Doubles *)

Section Doubles.

Local Open Scope Z_scope.

Lemma digits2_pos_bounds (p : positive) :
  2 ^ (Z.pos (digits2_pos p) - 1) ≤ Z.pos p < 2 ^ Z.pos (digits2_pos p).
Proof.
  induction p as [p IH|p IH|]; simpl digits2_pos.
  - rewrite Pos2Z.inj_succ, (Pos2Z.inj_xI p).
    replace (Z.succ (Z.pos (digits2_pos p)) - 1) with (Z.succ (Z.pos (digits2_pos p) - 1)) by lia.
    rewrite !Z.pow_succ_r by lia.
    generalize dependent (2 ^ (Z.pos (digits2_pos p) - 1)). generalize (2 ^ Z.pos (digits2_pos p)). intros; lia.
  - rewrite Pos2Z.inj_succ, (Pos2Z.inj_xO p).
    replace (Z.succ (Z.pos (digits2_pos p)) - 1) with (Z.succ (Z.pos (digits2_pos p) - 1)) by lia.
    rewrite !Z.pow_succ_r by lia.
    generalize dependent (2 ^ (Z.pos (digits2_pos p) - 1)). generalize (2 ^ Z.pos (digits2_pos p)). intros; lia.
  - simpl. lia.
Qed.

Lemma shr_1_m (mrs : shr_record) :
  0 ≤ shr_m mrs → shr_m (shr_1 mrs) = shr_m mrs / 2.
Proof.
  destruct mrs as [m r s]. simpl. intros Hm.
  rewrite <- Z.div2_div.
  destruct m as [|[p|p|]|p]; try reflexivity. lia.
Qed.

Lemma iter_pos_shr_1_m (p : positive) (mrs : shr_record) :
  0 ≤ shr_m mrs →
  shr_m (SpecFloat.iter_pos shr_1 p mrs) = shr_m mrs / 2 ^ Z.pos p.
Proof.
  revert mrs. induction p as [p IH|p IH|]; intros mrs Hm; simpl SpecFloat.iter_pos.
  - assert (H1: 0 ≤ shr_m (shr_1 mrs)) by (rewrite shr_1_m by done; apply Z.div_pos; lia).
    assert (H2: 0 ≤ shr_m (SpecFloat.iter_pos shr_1 p (shr_1 mrs))) by (rewrite IH by done; apply Z.div_pos; lia).
    rewrite IH, IH, shr_1_m by done.
    rewrite !Z.div_div by lia. f_equal.
    rewrite (Pos2Z.inj_xI p).
    replace (2 * Z.pos p + 1) with (1 + Z.pos p + Z.pos p) by lia.
    rewrite !Z.pow_add_r by lia. rewrite Z.pow_1_r. ring.
  - assert (H2: 0 ≤ shr_m (SpecFloat.iter_pos shr_1 p mrs)) by (rewrite IH by done; apply Z.div_pos; lia).
    rewrite IH, IH by done. rewrite Z.div_div by lia. f_equal.
    rewrite (Pos2Z.inj_xO p).
    replace (2 * Z.pos p) with (Z.pos p + Z.pos p) by lia.
    rewrite Z.pow_add_r by lia. done.
  - rewrite shr_1_m by done. done.
Qed.

Lemma shr_exact_spec (m e n : Z) (mrs : shr_record) (e' : Z) :
  0 ≤ m → shr (shr_record_of_loc m loc_Exact) e n = (mrs, e') →
  shr_m mrs = m / 2 ^ Z.max n 0 ∧ e' = e + Z.max n 0.
Proof.
  intros Hm. unfold shr. destruct n as [|p|p]; intros [= <- <-].
  - simpl. rewrite Z.div_1_r. lia.
  - rewrite iter_pos_shr_1_m by done. simpl shr_m.
    replace (Z.max (Z.pos p) 0) with (Z.pos p) by lia. done.
  - simpl shr_m. replace (Z.max (Z.neg p) 0) with 0 by lia.
    simpl. rewrite Z.div_1_r. lia.
Qed.

Lemma round_nearest_even_bounds (m : Z) (l : location) :
  m ≤ round_nearest_even m l ≤ m + 1.
Proof.
  unfold round_nearest_even. destruct l as [|[| |]]; try lia.
  destruct (Z.even m); lia.
Qed.

Lemma Zdigits2_le (m k : Z) : 0 ≤ k → 0 ≤ m < 2 ^ k → Zdigits2 m ≤ k.
Proof.
  intros Hk Hm. destruct m as [|p|p]; simpl; [lia| |lia].
  pose proof (digits2_pos_bounds p) as [Hlo _].
  assert (2 ^ (Z.pos (digits2_pos p) - 1) < 2 ^ k) by lia.
  apply Z.pow_lt_mono_r_iff in H; lia.
Qed.

Lemma fexp_64 (z : Z) : fexp prec emax z = Z.max (z - 53) (-1074).
Proof. reflexivity. Qed.

(** A product below [1 - 2^-53] rounds to a double below 1. *)
Lemma binary_round_aux_below_one (M : positive) (E : Z) :
  2 ^ 52 ≤ Z.pos M → E + 53 ≤ 0 →
  Z.pos M < (2 ^ 53 - 1) * 2 ^ (- 53 - E) →
  binary_round_aux prec emax false (Z.pos M) E loc_Exact = S754_zero false ∨
  ∃ m' e', binary_round_aux prec emax false (Z.pos M) E loc_Exact
           = S754_finite false m' e' ∧ e' ≤ - 53.
Proof.
  intros Hlo HE Hhi.
  pose proof (digits2_pos_bounds M) as [Hd1 Hd2].
  set (d := Z.pos (digits2_pos M)) in *.
  assert (Hd53: 53 ≤ d).
  { assert (2 ^ 52 < 2 ^ d) by lia. apply Z.pow_lt_mono_r_iff in H; lia. }
  assert (HdE: d + E ≤ 0).
  { assert (Z.pos M < 2 ^ (- E)).
    { replace (- E) with (53 + (- 53 - E)) by lia.
      rewrite Z.pow_add_r by lia.
      assert (0 < 2 ^ (- 53 - E)) by (apply Z.pow_pos_nonneg; lia). nia. }
    assert (2 ^ (d - 1) < 2 ^ (- E)) by lia.
    apply Z.pow_lt_mono_r_iff in H0; lia. }
  unfold binary_round_aux, shr_fexp.
  change (Zdigits2 (Z.pos M)) with d. rewrite fexp_64.
  set (e1 := Z.max (d + E - 53) (-1074)).
  assert (He1: E ≤ e1 ≤ - 53) by lia.
  destruct (shr (shr_record_of_loc (Z.pos M) loc_Exact) E (e1 - E))
    as [mrs' e'] eqn:Hs1.
  apply shr_exact_spec in Hs1 as [Hm1 ->]; [|lia].
  replace (Z.max (e1 - E) 0) with (e1 - E) in * by lia.
  replace (E + (e1 - E)) with e1 by lia.
  pose proof (round_nearest_even_bounds (shr_m mrs') (loc_of_shr_record mrs'))
    as Hr.
  set (m1r := round_nearest_even (shr_m mrs') (loc_of_shr_record mrs')) in *.
  set (A := (2 ^ 53 - 1) * 2 ^ (- 53 - e1)).
  assert (HA: 0 < 2 ^ (- 53 - e1)) by (apply Z.pow_pos_nonneg; lia).
  assert (Hm1A: 0 ≤ shr_m mrs' < A).
  { rewrite Hm1. split; [apply Z.div_pos; [lia|apply Z.pow_pos_nonneg; lia]|].
    apply Z.div_lt_upper_bound; [apply Z.pow_pos_nonneg; lia|].
    unfold A. replace (- 53 - E) with ((e1 - E) + (- 53 - e1)) in Hhi by lia.
    rewrite Z.pow_add_r in Hhi by lia. lia. }
  assert (Hm1r: 0 ≤ m1r < 2 ^ (- e1)).
  { replace (- e1) with (53 + (- 53 - e1)) by lia.
    rewrite Z.pow_add_r by lia. unfold A in Hm1A. nia. }
  pose proof (Zdigits2_le m1r (- e1) ltac:(lia) Hm1r) as Hd2'.
  rewrite fexp_64.
  destruct (shr (shr_record_of_loc m1r loc_Exact) e1
              (Z.max (Zdigits2 m1r + e1 - 53) (-1074) - e1))
    as [mrs'' e''] eqn:Hs2.
  apply shr_exact_spec in Hs2 as [Hm2 ->]; [|lia].
  assert (Hm2': 0 ≤ shr_m mrs'').
  { rewrite Hm2. apply Z.div_pos; [lia|apply Z.pow_pos_nonneg; lia]. }
  destruct (shr_m mrs'') as [|m2|m2]; [by left| |lia].
  right. eexists _, _. split; [|shelve].
  destruct (Z.leb_spec (e1 + Z.max (Z.max (Zdigits2 m1r + e1 - 53) (-1074) - e1) 0)
              (emax - prec)) as [Hle|Hgt]; [done|].
  change (emax - prec) with 971 in Hgt. lia.
  Unshelve. lia.
Qed.

Lemma finite_valid (s : bool) (m : positive) (e : Z) :
  valid_binary (S754_finite s m e) = true →
  Z.pos m < 2 ^ 53 ∧ - 1074 ≤ e ≤ 971 ∧ (2 ^ 52 ≤ Z.pos m ∨ e = - 1074).
Proof.
  unfold SpecFloat.valid_binary, bounded, canonical_mantissa.
  rewrite fexp_64. intros [Hc He]%andb_prop.
  apply Z.eqb_eq in Hc. apply Z.leb_le in He. change (emax - prec) with 971 in He.
  pose proof (digits2_pos_bounds m) as [Hlo Hhi].
  set (d := Z.pos (digits2_pos m)) in *.
  assert (Hd: d ≤ 53) by lia.
  assert (Hp: 2 ^ d ≤ 2 ^ 53) by (apply Z.pow_le_mono_r; lia).
  split; [lia|]. split; [lia|].
  destruct (decide (d = 53)) as [Heq|Hne]; [|lia].
  left. rewrite Heq in Hlo. exact Hlo.
Qed.

Lemma SFltb_finite_positive (m m0 : positive) (e e0 : Z) :
  SFltb (S754_finite false m e) (S754_finite false m0 e0) = true →
  e < e0 ∨ (e = e0 ∧ Z.pos m < Z.pos m0).
Proof.
  unfold SFltb, SFcompare. intros Hlt.
  destruct (Z.compare_spec e e0) as [Heq|Hlt'|Hgt]; [|lia|discriminate].
  right. split; [done|].
  change (Pos.compare_cont Eq m m0) with (Pos.compare m m0) in Hlt.
  destruct (Pos.compare_spec m m0); try discriminate. lia.
Qed.

(** The doubles strictly between 0 and a positive finite double. *)
Lemma positive_below_form (p c : float) (m0 : positive) (e0 : Z) :
  Prim2SF c = S754_finite false m0 e0 →
  (0 <? p)%float = true → (p <? c)%float = true →
  ∃ m e, Prim2SF p = S754_finite false m e ∧
         (e < e0 ∨ (e = e0 ∧ Z.pos m < Z.pos m0)) ∧
         Z.pos m < 2 ^ 53 ∧ - 1074 ≤ e ∧ (2 ^ 52 ≤ Z.pos m ∨ e = - 1074).
Proof.
  intros Hc H0 Hp. rewrite ltb_spec in H0, Hp. rewrite Hc in Hp.
  change (Prim2SF 0) with (S754_zero false) in H0.
  pose proof (Prim2SF_valid p) as Hv.
  destruct (Prim2SF p) as [s|s| |s m e]; try discriminate.
  - destruct s; discriminate.
  - destruct s; [discriminate|].
    exists m, e. split; [done|].
    destruct (finite_valid _ _ _ Hv) as (Hm & He & Hn).
    split; [|split; [done|split; [lia|done]]].
    by apply SFltb_finite_positive.
Qed.

Lemma mul_100_below_one (p : float) :
  (0 <? p)%float = true → (p <? one_percent)%float = true →
  Prim2SF (p * 100) = S754_zero false ∨
  ∃ m' e', Prim2SF (p * 100) = S754_finite false m' e' ∧ e' ≤ - 53.
Proof.
  intros H0 Hp.
  destruct (positive_below_form p one_percent 5764607523034235 (- 59)
              eq_refl H0 Hp) as (m & e & Hform & Hlt & Hm & He & _).
  rewrite mul_spec, Hform.
  change (Prim2SF 100) with (S754_finite false 7036874417766400 (- 46)).
  unfold SF64mul, SFmul. change (xorb false false) with false.
  apply binary_round_aux_below_one.
  - rewrite Pos2Z.inj_mul. change (2 ^ 52) with 4503599627370496. lia.
  - lia.
  - rewrite Pos2Z.inj_mul.
    replace (- 53 - (e + - 46)) with (52 + (- 59 - e)) by lia.
    rewrite Z.pow_add_r by lia.
    change (2 ^ 53) with 9007199254740992 in *.
    change (2 ^ 52) with 4503599627370496.
    destruct Hlt as [Hlt|[-> Hlt]].
    + assert (2 ^ 1 ≤ 2 ^ (- 59 - e)) by (apply Z.pow_le_mono_r; lia).
      change (2 ^ 1) with 2 in *. lia.
    + change (- 59 - - 59) with 0. change (2 ^ 0) with 1. lia.
Qed.

Lemma small_int_floats : forallb small_int_float_ok (seq 1 100) = true.
Proof. vm_compute. reflexivity. Qed.

Lemma small_int_float_form (k : nat) :
  (1 ≤ k ≤ 100)%nat →
  ∃ mk ek, Prim2SF (double_of_nat k) = S754_finite false mk ek ∧
           - 52 ≤ ek ≤ 0 ∧ Z.pos mk = Z.of_nat k * 2 ^ (- ek) ∧
           2 ^ 52 ≤ Z.pos mk < 2 ^ 53.
Proof.
  intros Hk. pose proof small_int_floats as Hall.
  rewrite forallb_forall in Hall. specialize (Hall k).
  unfold small_int_float_ok in Hall.
  destruct (Prim2SF (double_of_nat k)) as [| | |[|] mk ek];
    try (discriminate Hall; apply in_seq; lia).
  exists mk, ek. split; [done|].
  assert (Hin: In k (seq 1 100)) by (apply in_seq; lia).
  apply Hall in Hin.
  repeat (apply andb_prop in Hin as [Hin ?]). lia.
Qed.

Lemma mod_100_range (r : nat) : (1 ≤ r mod 100 + 1 ≤ 100)%nat.
Proof. pose proof (Nat.mod_upper_bound r 100). lia. Qed.

(** Comparing an integer of 1 .. 100 with a double below 2^31 is comparing
    it with the double truncated to [int]. *)
Lemma leb_small_int (k : nat) (x : float) :
  (1 ≤ k ≤ 100)%nat → (x <? 2147483648)%float = true →
  (double_of_nat k <=? x)%float = (Z.of_nat k <=? int_of_double x).
Proof.
  intros Hk Hx.
  destruct (small_int_float_form k Hk) as (mk & ek & HK & Hek & Hmk & Hmkr).
  rewrite leb_spec, HK. rewrite ltb_spec in Hx.
  change (Prim2SF 2147483648) with (S754_finite false 4503599627370496 (- 21)) in Hx.
  unfold int_of_double. pose proof (Prim2SF_valid x) as Hv.
  destruct (Prim2SF x) as [s|s| |s m e].
  - simpl. symmetry. apply Z.leb_gt. lia.
  - destruct s; [|discriminate]. simpl. symmetry. apply Z.leb_gt. lia.
  - discriminate.
  - destruct (finite_valid _ _ _ Hv) as (Hm & He & Hn).
    destruct s.
    + simpl SFleb.
      set (a := if 0 <=? e then Z.pos m * 2 ^ e else Z.pos m `quot` 2 ^ (- e)).
      assert (Ha: 0 ≤ a).
      { unfold a. destruct (Z.leb_spec 0 e).
        - apply Z.mul_nonneg_nonneg; [lia|apply Z.pow_nonneg; lia].
        - apply Z.quot_pos; [lia|apply Z.pow_pos_nonneg; lia]. }
      cbv zeta. symmetry. apply Z.leb_gt.
      destruct ((- 2 ^ 31 <=? - a) && (- a <? 2 ^ 31)); lia.
    + assert (He22: e ≤ - 22).
      { apply SFltb_finite_positive in Hx.
        change (2 ^ 52) with 4503599627370496 in Hn. lia. }
      destruct (Z.leb_spec 0 e) as [|_]; [lia|].
      assert (Hpe: 0 < 2 ^ (- e)) by (apply Z.pow_pos_nonneg; lia).
      rewrite Z.quot_div_nonneg by lia.
      set (b := 2 ^ (- e)) in *. set (q := Z.pos m / b).
      assert (Hq0: 0 ≤ q) by (apply Z.div_pos; lia).
      assert (Hq: b * q ≤ Z.pos m) by (apply Z.mul_div_le; lia).
      assert (Hb: 2 ^ 22 ≤ b) by (apply Z.pow_le_mono_r; lia).
      assert (Hqb: 2 ^ 22 * q ≤ b * q) by (apply Z.mul_le_mono_nonneg_r; lia).
      change (2 ^ 22) with 4194304 in Hb, Hqb.
      change (2 ^ 53) with 9007199254740992 in *.
      change (2 ^ 52) with 4503599627370496 in *.
      cbv zeta.
      assert (Hrange: (- 2 ^ 31 <=? q) && (q <? 2 ^ 31) = true).
      { apply andb_true_intro.
        split; [apply Z.leb_le|apply Z.ltb_lt];
          change (2 ^ 31) with 2147483648; lia. }
      rewrite Hrange.
      set (K := Z.of_nat k) in *.
      assert (HK0: 0 ≤ K) by lia.
      assert (Hiff: K ≤ q ↔ K * b ≤ Z.pos m).
      { unfold q. split.
        - intros Hle. transitivity (b * (Z.pos m / b)); [|apply Z.mul_div_le; lia].
          rewrite (Z.mul_comm b). apply Z.mul_le_mono_nonneg_r; lia.
        - intros Hle. apply Z.div_le_lower_bound; [lia|]. by rewrite Z.mul_comm. }
      unfold SFleb, SFcompare.
      destruct (Z.compare_spec ek e) as [Heq|Hlt|Hgt].
      * subst e. change (Pos.compare_cont Eq mk m) with (Pos.compare mk m).
        fold b in Hmk.
        destruct (Pos.compare_spec mk m) as [Hc|Hc|Hc]; symmetry.
        -- apply Z.leb_le, Hiff. subst m. lia.
        -- apply Z.leb_le, Hiff. assert (Z.pos mk < Z.pos m) by lia. lia.
        -- apply Z.leb_gt. assert (Z.pos m < Z.pos mk) by lia.
           destruct (Z.le_gt_cases K q) as [Hle|]; [|lia].
           apply Hiff in Hle. lia.
      * symmetry. apply Z.leb_le, Hiff.
        destruct Hn as [Hn|]; [|lia].
        replace (- ek) with ((- e) + (e - ek)) in Hmk by lia.
        rewrite Z.pow_add_r in Hmk by lia. fold b in Hmk.
        assert (HT: 2 ^ 1 ≤ 2 ^ (e - ek)) by (apply Z.pow_le_mono_r; lia).
        change (2 ^ 1) with 2 in HT.
        set (T := 2 ^ (e - ek)) in *.
        assert (HX: 0 ≤ K * b) by (apply Z.mul_nonneg_nonneg; lia).
        assert (K * b * 2 ≤ K * b * T) by (apply Z.mul_le_mono_nonneg_l; lia).
        rewrite Z.mul_assoc in Hmk. lia.
      * symmetry. apply Z.leb_gt.
        destruct (Z.le_gt_cases K q) as [Hle|]; [|lia].
        apply Hiff in Hle. exfalso.
        assert (Hb2: b = 2 ^ (- ek) * 2 ^ (ek - e)).
        { unfold b. rewrite <- Z.pow_add_r by lia. f_equal. lia. }
        assert (HT: 2 ^ 1 ≤ 2 ^ (ek - e)) by (apply Z.pow_le_mono_r; lia).
        change (2 ^ 1) with 2 in HT.
        set (T := 2 ^ (ek - e)) in *.
        rewrite Hb2, Z.mul_assoc, <- Hmk in Hle.
        assert (Z.pos mk * 2 ≤ Z.pos mk * T) by (apply Z.mul_le_mono_nonneg_l; lia).
        lia.
Qed.

End Doubles.

(** * The mutation trigger *)

(** C10.  The left side of the test, [rand() % 100 + 1], ranges over 1 .. 100.
    Whenever the product [mutatProb * 100] is below 2^31, the test holds
    exactly when that integer is at most the product truncated to an
    integer: of the 100 residues, the first [floor (mutatProb * 100)] make
    the mutation happen.  For every probability strictly between 0 and 0.01
    the mutation never happens; at 0 it never happens; at 1 it always
    happens. *)
Theorem mutation_quantised :
  (∀ r, 1 ≤ r mod 100 + 1 ≤ 100) ∧
  (∀ r p, (p * 100 <? 2147483648)%float = true →
          mutation_triggers r p
          = (Z.of_nat (r mod 100 + 1) <=? int_of_double (p * 100))%Z) ∧
  (∀ r p, (0 <? p)%float = true → (p <? one_percent)%float = true →
          mutation_triggers r p = false) ∧
  (∀ r, mutation_triggers r 0 = false) ∧
  (∀ r, mutation_triggers r 1 = true).
Proof.
  split; [exact mod_100_range|].
  assert (Hq: ∀ r p, (p * 100 <? 2147483648)%float = true →
            mutation_triggers r p
            = (Z.of_nat (r mod 100 + 1) <=? int_of_double (p * 100))%Z).
  { intros r p Hp. unfold mutation_triggers.
    apply leb_small_int; [apply mod_100_range|done]. }
  split; [exact Hq|]. split; [|split].
  - intros r p H0 Hp. unfold mutation_triggers.
    destruct (small_int_float_form (r mod 100 + 1) (mod_100_range r))
      as (mk & ek & HK & Hek & _).
    rewrite leb_spec, HK.
    destruct (mul_100_below_one p H0 Hp) as [->|(m' & e' & -> & He')];
      [reflexivity|].
    unfold SFleb, SFcompare.
    destruct (Z.compare_spec ek e'); [lia|lia|reflexivity].
  - intros r. rewrite Hq by reflexivity.
    change (int_of_double (0 * 100)) with 0%Z.
    apply Z.leb_gt. lia.
  - intros r. rewrite Hq by reflexivity.
    change (int_of_double (1 * 100)) with 100%Z.
    apply Z.leb_le. pose proof (mod_100_range r). lia.
Qed.

Lemma mutation_quantised_witness :
  mutation_triggers 49 0.5%float = true ∧
  mutation_triggers 50 0.5%float = false ∧
  mutation_triggers 0 0.0078125%float = false.
Proof.
  destruct mutation_quantised as (_ & Hq & Hsmall & _).
  split; [|split].
  - rewrite (Hq 49 0.5%float eq_refl). reflexivity.
  - rewrite (Hq 50 0.5%float eq_refl). reflexivity.
  - apply Hsmall; reflexivity.
Defined.

(** * Further properties of the code *)

(** ** sort_vector on any index array *)

(** Two buffers with the same cells. *)
Lemma list_eq_total {A : Type} `{Inhabited A} (l1 l2 : list A) :
  length l1 = length l2 → (∀ k, k < length l1 → l1 !!! k = l2 !!! k) → l1 = l2.
Proof.
  intros Hl Hc. apply list_eq. intros k.
  destruct (decide (k < length l1)) as [Hk|Hk].
  - rewrite !list_lookup_lookup_total_lt by lia. f_equal. by apply Hc.
  - rewrite !lookup_ge_None_2 by lia. done.
Qed.

(** The sort of the first [population] entries of longer arrays. *)
Lemma sort_vector_prefix_inv (c0 : list Z) (rank : list nat) (L population : nat) :
  length rank = L → length c0 = L → population ≤ L →
  (∀ m, m < L → rank !!! m = m) →
  sort_inv c0 L population (sort_vector rank c0 population).
Proof.
  intros Hlr Hlc Hp Hid. unfold sort_vector. destruct population as [|n].
  - simpl. split; [done|]. split; [done|]. split; [|split; intros; lia].
    intros m Hm. split; [apply Hid; lia|done].
  - replace (Datatypes.S n - 1) with n by lia.
    change (Datatypes.S n) with (1 + n).
    apply (for_loop_inv (sort_inv c0 L)).
    + repeat split; simpl; auto; try (intros; lia).
      * apply Hid. lia.
      * replace k with 0 by lia. rewrite Hid; lia.
      * replace k with 0 by lia. rewrite Hid by lia. done.
    + intros i st Hi. apply sort_step_inv. lia.
Qed.

(** The moves of the index array do not depend on what it holds. *)
Lemma shift_right_fmap (f : nat → nat) (free : nat) (key : Z)
    (r0 : list nat) (cost : list Z) :
  free < length r0 →
  shift_right free key (f <$> r0) cost
  = let '(slot, r0', cost') := shift_right free key r0 cost in
    (slot, f <$> r0', cost').
Proof.
  revert r0 cost. induction free as [|j IH]; intros r0 cost Hlen; [done|].
  simpl. destruct (cost !!! j >? key)%Z; [|done].
  rewrite (list_lookup_total_fmap f r0 j) by lia.
  rewrite <- list_fmap_insert. apply IH. rewrite length_insert. lia.
Qed.

Lemma sort_step_fmap (f : nat → nat) (i : nat) (r0 : list nat) (cost : list Z) :
  i < length r0 →
  sort_step i (f <$> r0, cost)
  = let '(r0', cost') := sort_step i (r0, cost) in (f <$> r0', cost').
Proof.
  intros Hi. unfold sort_step.
  rewrite shift_right_fmap by done.
  destruct (shift_right i (cost !!! i) r0 cost) as [[slot r1] c1].
  rewrite (list_lookup_total_fmap f r0 i) by done. by rewrite list_fmap_insert.
Qed.

Lemma sort_step_length (i : nat) (st : list nat * list Z) :
  length (sort_step i st).1 = length st.1.
Proof.
  destruct st as [r c]. unfold sort_step.
  assert (H: ∀ free key r c, length (shift_right free key r c).1.2 = length r).
  { clear. induction free as [|j IH]; intros key r c; [done|]. simpl.
    destruct (c !!! j >? key)%Z; [|done]. rewrite IH, length_insert. done. }
  specialize (H i (c !!! i) r c).
  destruct (shift_right i (c !!! i) r c) as [[slot r1] c1]. simpl in *.
  by rewrite length_insert.
Qed.

Lemma sort_loop_fmap (f : nat → nat) (count lo : nat) (r0 : list nat)
    (cost : list Z) :
  lo + count ≤ length r0 →
  for_loop count lo sort_step (f <$> r0, cost)
  = let '(r0', cost') := for_loop count lo sort_step (r0, cost) in
    (f <$> r0', cost').
Proof.
  revert lo r0 cost. induction count as [|c IH]; intros lo r0 cost Hlen; [done|].
  cbn [for_loop]. rewrite sort_step_fmap by lia.
  pose proof (sort_step_length lo (r0, cost)) as Hl.
  destruct (sort_step lo (r0, cost)) as [r1 c1]. simpl in Hl.
  apply IH. lia.
Qed.

Lemma fmap_lookup_total_seq (l : list nat) :
  (λ j, l !!! j) <$> seq 0 (length l) = l.
Proof.
  apply list_eq_total.
  - by rewrite length_fmap, length_seq.
  - intros k Hk. rewrite length_fmap, length_seq in Hk.
    rewrite (list_lookup_total_fmap _ (seq 0 (length l)) k)
      by (rewrite length_seq; lia).
    f_equal. rewrite list_lookup_total_alt, lookup_seq_lt by lia. done.
Qed.

(** The sort of any index array is the sort of the positions [0], [1], ...
    read through the index array. *)
Lemma sort_vector_natural (rank : list nat) (cost : list Z) (population : nat) :
  length rank = length cost → population ≤ length cost →
  sort_vector rank cost population
  = let '(p, cost') := sort_vector (seq 0 (length cost)) cost population in
    ((λ j, rank !!! j) <$> p, cost').
Proof.
  intros Hlen Hp. unfold sort_vector.
  rewrite <- (fmap_lookup_total_seq rank) at 1. rewrite Hlen.
  destruct population as [|n]; [done|].
  apply sort_loop_fmap. rewrite length_seq. lia.
Qed.

Lemma seq_lookup_total (L m : nat) : m < L → seq 0 L !!! m = m.
Proof.
  intros Hm. rewrite list_lookup_total_alt, lookup_seq_lt by done. done.
Qed.

(** X1.  [sort_vector] applies one rearrangement to the index array and to
    the cost array, whatever the index array holds: there is a permutation
    [p] of the positions with [rank'[k] = rank[p[k]]] and
    [cost'[k] = cost[p[k]]].  It moves only the first [population] entries,
    leaves them in non-decreasing order of cost, and keeps entries of equal
    cost in their original order. *)
Theorem sort_vector_rearranges_both (rank : list nat) (cost : list Z)
    (population : nat) (rank' : list nat) (cost' : list Z) :
  length rank = length cost → population ≤ length cost →
  sort_vector rank cost population = (rank', cost') →
  ∃ p : list nat,
    p ≡ₚ seq 0 (length cost) ∧
    rank' = (λ j, rank !!! j) <$> p ∧
    cost' = (λ j, cost !!! j) <$> p ∧
    (∀ m, population ≤ m < length cost → p !!! m = m) ∧
    (∀ k, k < population → p !!! k < population) ∧
    (∀ k l, k < l < population →
            (cost' !!! k ≤ cost' !!! l)%Z ∧
            (cost' !!! k = cost' !!! l → p !!! k < p !!! l)).
Proof.
  intros Hlen Hp Hrun. set (L := length cost) in *.
  pose proof (sort_vector_prefix_inv cost (seq 0 L) L population
                ltac:(by rewrite length_seq) eq_refl Hp (seq_lookup_total L))
    as Hinv.
  pose proof (sort_vector_natural rank cost population Hlen Hp) as Hnat.
  fold L in Hnat.
  destruct (sort_vector (seq 0 L) cost population) as [p c] eqn:Hs.
  rewrite Hrun in Hnat. injection Hnat as -> ->.
  destruct Hinv as (Hlp & Hlc & Hsuf & Hpre & Hord). cbn [fst snd] in *.
  assert (Hcells: ∀ k, k < L → c !!! k = cost !!! (p !!! k)).
  { intros k Hk. destruct (decide (k < population)) as [Hlo|Hhi].
    - by apply Hpre.
    - destruct (Hsuf k) as [-> ->]; [lia|done]. }
  assert (Hdiff: ∀ k k', k < k' < population → p !!! k ≠ p !!! k').
  { intros k k' Hkk Heq. destruct (Hord k k' Hkk) as [_ Hst].
    destruct (Hpre k) as [_ Hck]; [lia|]. destruct (Hpre k') as [_ Hck']; [lia|].
    rewrite Heq in Hck. rewrite <- Hck' in Hck. specialize (Hst Hck). lia. }
  exists p. split; [|split; [done|split; [|split; [|split]]]].
  - apply injective_below_Permutation; [done| |].
    + intros k Hk. destruct (decide (k < population)) as [Hlo|Hhi].
      * destruct (Hpre k Hlo). lia.
      * destruct (Hsuf k) as [-> _]; lia.
    + intros k k' Hk Hk' Heq.
      destruct (decide (k < population)) as [Hlo|Hhi];
        destruct (decide (k' < population)) as [Hlo'|Hhi'].
      * destruct (Nat.lt_trichotomy k k') as [Hlt|[->|Hgt]]; [|done|].
        -- exfalso. by apply (Hdiff k k').
        -- exfalso. by apply (Hdiff k' k).
      * destruct (Hpre k Hlo) as [Hb _].
        destruct (Hsuf k') as [Hk'' _]; [lia|]. lia.
      * destruct (Hpre k' Hlo') as [Hb _].
        destruct (Hsuf k) as [Hk'' _]; [lia|]. lia.
      * destruct (Hsuf k) as [Hk1 _]; [lia|].
        destruct (Hsuf k') as [Hk2 _]; [lia|]. lia.
  - apply list_eq_total; [by rewrite length_fmap, Hlc, Hlp|].
    intros k Hk. rewrite (list_lookup_total_fmap _ p k) by lia.
    apply Hcells. lia.
  - intros m Hm. by apply Hsuf.
  - intros k Hk. by apply Hpre.
  - done.
Qed.

Lemma sort_vector_rearranges_both_witness :
  ∃ p : list nat,
    p ≡ₚ seq 0 (length [5; 3; 5; 1; 0]%Z) ∧
    [13; 11; 10; 12; 14] = (λ j, [10; 11; 12; 13; 14] !!! j) <$> p ∧
    [1; 3; 5; 5; 0]%Z = (λ j, [5; 3; 5; 1; 0]%Z !!! j) <$> p ∧
    (∀ m, 4 ≤ m < length [5; 3; 5; 1; 0]%Z → p !!! m = m) ∧
    (∀ k, k < 4 → p !!! k < 4) ∧
    (∀ k l, k < l < 4 →
            ([1; 3; 5; 5; 0]%Z !!! k ≤ [1; 3; 5; 5; 0]%Z !!! l)%Z ∧
            ([1; 3; 5; 5; 0]%Z !!! k = [1; 3; 5; 5; 0]%Z !!! l →
             p !!! k < p !!! l)).
Proof.
  exact (sort_vector_rearranges_both [10; 11; 12; 13; 14] [5; 3; 5; 1; 0]%Z 4
           [13; 11; 10; 12; 14] [1; 3; 5; 5; 0]%Z eq_refl
           ltac:(simpl; lia) eq_refl).
Defined.

(** ** sort_vector on a sorted prefix *)

Lemma sort_step_sorted (i : nat) (rank : list nat) (cost : list Z) :
  1 ≤ i → (cost !!! (i - 1)%nat ≤ cost !!! i)%Z →
  sort_step i (rank, cost) = (rank, cost).
Proof.
  intros Hi Hle. unfold sort_step. destruct i as [|j]; [lia|].
  replace (Datatypes.S j - 1) with j in Hle by lia.
  simpl. destruct (Z.gtb_spec (cost !!! j) (cost !!! Datatypes.S j)); [lia|].
  f_equal; apply list_insert_id'; intros Hlt;
    by apply list_lookup_lookup_total_lt.
Qed.

Lemma sort_vector_sorted (rank : list nat) (cost : list Z) (population : nat) :
  (∀ k, k + 1 < population → (cost !!! k ≤ cost !!! (k + 1)%nat)%Z) →
  sort_vector rank cost population = (rank, cost).
Proof.
  intros Hs. unfold sort_vector.
  cut ((λ _ st, st = (rank, cost)) (1 + (population - 1))
         (for_loop (population - 1) 1 sort_step (rank, cost))); [done|].
  apply for_loop_inv; [done|].
  intros i st Hi ->. apply sort_step_sorted; [lia|].
  replace i with ((i - 1) + 1) at 2 by lia. apply Hs. lia.
Qed.

(** X2.  On a cost array whose first [population] entries are already in
    non-decreasing order [sort_vector] changes neither array; so sorting the
    result of a sort again changes nothing. *)
Theorem sort_vector_keeps_sorted (rank : list nat) (cost : list Z)
    (population : nat) :
  length rank = length cost → population ≤ length cost →
  ((∀ k, k + 1 < population → (cost !!! k ≤ cost !!! (k + 1)%nat)%Z) →
   sort_vector rank cost population = (rank, cost)) ∧
  sort_vector (sort_vector rank cost population).1
    (sort_vector rank cost population).2 population
  = sort_vector rank cost population.
Proof.
  intros Hlen Hp. split; [apply sort_vector_sorted|].
  pose proof (sort_vector_prefix_inv cost (seq 0 (length cost)) (length cost)
                population ltac:(by rewrite length_seq) eq_refl Hp
                (seq_lookup_total (length cost))) as Hinv.
  rewrite (sort_vector_natural rank cost population Hlen Hp).
  destruct (sort_vector (seq 0 (length cost)) cost population) as [p c].
  destruct Hinv as (_ & _ & _ & _ & Hord). cbn [fst snd] in *.
  apply sort_vector_sorted. intros k Hk. apply Hord. lia.
Qed.

Lemma sort_vector_keeps_sorted_witness :
  (sort_vector [7; 8; 9; 6] [1; 4; 4; 0]%Z 3 = ([7; 8; 9; 6], [1; 4; 4; 0]%Z)) ∧
  sort_vector [8; 7; 9; 6] [1; 3; 4; 0]%Z 3 = ([8; 7; 9; 6], [1; 3; 4; 0]%Z).
Proof.
  split.
  - apply (proj1 (sort_vector_keeps_sorted [7; 8; 9; 6] [1; 4; 4; 0]%Z 3 eq_refl
                    ltac:(simpl; lia))).
    intros k Hk. destruct k as [|[|k]]; simpl; lia.
  - exact (proj2 (sort_vector_keeps_sorted [7; 8; 9; 6] [3; 1; 4; 0]%Z 3 eq_refl
                    ltac:(simpl; lia))).
Defined.

(** ** rank_generation: what it reads and how large the costs get *)

Lemma Zsum_bounds (f : nat → Z) (bound : Z) (n : nat) :
  (∀ k, k < n → (0 ≤ f k ≤ bound)%Z) →
  (0 ≤ Zsum (map f (seq 0 n)) ≤ Z.of_nat n * bound)%Z.
Proof.
  intros Hf. induction n as [|n IH]; [simpl; lia|].
  rewrite Zsum_seq_S. pose proof (Hf n ltac:(lia)).
  assert (0 ≤ Zsum (map f (seq 0 n)) ≤ Z.of_nat n * bound)%Z
    by (apply IH; intros k Hk; apply Hf; lia).
  lia.
Qed.

Lemma matrix_entry_bounds (cost_matrix : list Z) (bound : Z)
    (numNodes source destination : nat) :
  length cost_matrix = numNodes * numNodes →
  Forall (λ c, 0 ≤ c ≤ bound)%Z cost_matrix →
  source < numNodes → destination < numNodes →
  (0 ≤ cost_matrix !!! (source * numNodes + destination)%nat ≤ bound)%Z.
Proof.
  intros Hlen Hall Hs Hd.
  apply (proj1 (Forall_lookup _ _) Hall (source * numNodes + destination)).
  apply list_lookup_lookup_total_lt. nia.
Qed.

Lemma tour_cost_bounds (cost_matrix : list Z) (bound : Z) (numNodes : nat)
    (t : list nat) :
  1 ≤ numNodes → length cost_matrix = numNodes * numNodes →
  Forall (λ c, 0 ≤ c ≤ bound)%Z cost_matrix →
  (∀ k, k < numNodes → t !!! k < numNodes) →
  (0 ≤ tour_cost cost_matrix numNodes t ≤ Z.of_nat numNodes * bound)%Z.
Proof.
  intros Hn Hlen Hall Ht. unfold tour_cost. cbv zeta.
  pose proof (Zsum_bounds
                (λ k, cost_matrix !!! (t !!! k * numNodes + t !!! (k + 1)))
                bound (numNodes - 1)) as Hs.
  pose proof (matrix_entry_bounds cost_matrix bound numNodes
                (t !!! (numNodes - 1)) (t !!! 0) Hlen Hall
                ltac:(apply Ht; lia) ltac:(apply Ht; lia)) as Hc.
  replace (Z.of_nat numNodes) with (Z.of_nat (numNodes - 1) + 1)%Z by lia.
  specialize (Hs (λ k Hk, matrix_entry_bounds cost_matrix bound numNodes
                            (t !!! k) (t !!! (k + 1)) Hlen Hall
                            ltac:(apply Ht; lia) ltac:(apply Ht; lia))).
  lia.
Qed.

(** X3.  When the cost vector is zero on entry, the population cells hold
    node numbers, every entry of the [numNodes] x [numNodes] cost matrix lies
    between 0 and [bound], and [numNodes * bound] fits in an [int], each cost
    that [rank_generation] leaves is the exact edge sum of its tour, not a
    wrapped one, and lies between 0 and [numNodes * bound]. *)
Theorem rank_generation_within_int (rank : list nat) (cost : list Z)
    (generation : list nat) (cost_matrix : list Z)
    (numNodes population best_num : nat) (bound : Z)
    (rank' : list nat) (cost' : list Z) :
  1 ≤ numNodes → length rank = population → length cost = population →
  (∀ i, i < population → cost !!! i = 0%Z) →
  (∀ idx, idx < population * numNodes → generation !!! idx < numNodes) →
  length cost_matrix = numNodes * numNodes →
  Forall (λ c, 0 ≤ c ≤ bound)%Z cost_matrix →
  (Z.of_nat numNodes * bound < 2 ^ 31)%Z →
  rank_generation rank cost generation cost_matrix numNodes population best_num
  = (rank', cost') →
  ∀ k, k < population →
    cost' !!! k
    = tour_cost cost_matrix numNodes (row generation numNodes (rank' !!! k)) ∧
    (0 ≤ cost' !!! k ≤ Z.of_nat numNodes * bound)%Z.
Proof.
  intros Hn Hlr Hlc Hzero Hcells Hlm Hall Hfit Hrun k Hk.
  destruct (rank_generation_spec _ _ _ _ _ _ _ _ _ Hn Hlr Hlc Hrun)
    as (_ & _ & _ & Hcost & _).
  destruct (Hcost k Hk) as [Hj Hc].
  assert (Ht: (0 ≤ tour_cost cost_matrix numNodes
                     (row generation numNodes (rank' !!! k))
               ≤ Z.of_nat numNodes * bound)%Z).
  { apply tour_cost_bounds; [done..|].
    intros c Hc'. rewrite row_lookup_total by done. apply Hcells. nia. }
  unfold computed_cost in Hc. rewrite (Hzero _ Hj), Z.add_0_l in Hc.
  rewrite wrap_int_in_range in Hc by (unfold in_int_range; lia).
  rewrite Hc. split; [done|lia].
Qed.

Lemma rank_generation_within_int_witness :
  let generation := [0; 1; 2; 2; 0; 1; 1; 0; 2] in
  let cost_matrix := [0; 1; 2; 7; 0; 4; 2; 4; 0]%Z in
  let '(rank', cost') :=
    rank_generation [0; 0; 0] [0; 0; 0]%Z generation cost_matrix 3 3 1 in
  ∀ k, k < 3 →
    cost' !!! k = tour_cost cost_matrix 3 (row generation 3 (rank' !!! k)) ∧
    (0 ≤ cost' !!! k ≤ Z.of_nat 3 * 7)%Z.
Proof.
  exact (rank_generation_within_int [0; 0; 0] [0; 0; 0]%Z
           [0; 1; 2; 2; 0; 1; 1; 0; 2] [0; 1; 2; 7; 0; 4; 2; 4; 0]%Z 3 3 1 7
           _ _ ltac:(lia) eq_refl eq_refl
           ltac:(intros [|[|[|i]]] Hi; [reflexivity..|lia])
           ltac:(intros idx Hidx; do 9 (destruct idx as [|idx]; [simpl; lia|]);
                 simpl in Hidx; lia)
           eq_refl ltac:(repeat constructor; lia) ltac:(lia) eq_refl).
Defined.

Lemma compute_costs_reads (rank1 rank2 : list nat) (cost : list Z)
    (g1 g2 : list nat) (cost_matrix : list Z) (numNodes population : nat) :
  1 ≤ numNodes →
  length rank1 = population → length rank2 = population →
  length cost = population →
  population * numNodes ≤ length g1 → population * numNodes ≤ length g2 →
  (∀ idx, idx < population * numNodes → g1 !!! idx = g2 !!! idx) →
  compute_costs rank1 cost g1 cost_matrix numNodes population
  = compute_costs rank2 cost g2 cost_matrix numNodes population.
Proof.
  intros Hn Hl1 Hl2 Hlc Hf1 Hf2 Hcells.
  destruct (compute_costs_spec rank1 cost g1 cost_matrix numNodes population
              Hn Hl1 Hlc _ eq_refl) as (Hr1 & Hc1 & H1).
  destruct (compute_costs_spec rank2 cost g2 cost_matrix numNodes population
              Hn Hl2 Hlc _ eq_refl) as (Hr2 & Hc2 & H2).
  destruct (compute_costs rank1 cost g1 cost_matrix numNodes population)
    as [r1 c1].
  destruct (compute_costs rank2 cost g2 cost_matrix numNodes population)
    as [r2 c2].
  cbn [fst snd] in *. f_equal.
  - apply list_eq_total; [lia|]. intros k Hk.
    destruct (H1 k) as [-> _]; [lia|]. destruct (H2 k) as [-> _]; [lia|]. done.
  - apply list_eq_total; [lia|]. intros k Hk.
    destruct (H1 k) as [_ ->]; [lia|]. destruct (H2 k) as [_ ->]; [lia|].
    do 3 f_equal. apply row_eq_cells; [nia|nia|].
    intros j Hj. apply Hcells. nia.
Qed.

(** X4.  [rank_generation] writes the index array without reading it, never
    uses [best_num], and reads the population buffer only in its first
    [population] rows: its result is the same for any two index arrays of
    the right length, any two values of [best_num], and any two buffers that
    agree on these rows. *)
Theorem rank_generation_reads (rank1 rank2 : list nat) (cost : list Z)
    (g1 g2 : list nat) (cost_matrix : list Z)
    (numNodes population best_num1 best_num2 : nat) :
  1 ≤ numNodes →
  length rank1 = population → length rank2 = population →
  length cost = population →
  population * numNodes ≤ length g1 → population * numNodes ≤ length g2 →
  (∀ idx, idx < population * numNodes → g1 !!! idx = g2 !!! idx) →
  rank_generation rank1 cost g1 cost_matrix numNodes population best_num1
  = rank_generation rank2 cost g2 cost_matrix numNodes population best_num2.
Proof.
  intros Hn Hl1 Hl2 Hlc Hf1 Hf2 Hcells. unfold rank_generation.
  by rewrite (compute_costs_reads rank1 rank2 cost g1 g2).
Qed.

Lemma rank_generation_reads_witness :
  rank_generation [7; 7] [0; 0]%Z [0; 1; 1; 0; 5] [0; 3; 3; 0]%Z 2 2 1
  = rank_generation [9; 8] [0; 0]%Z [0; 1; 1; 0; 6; 6] [0; 3; 3; 0]%Z 2 2 2.
Proof.
  apply (rank_generation_reads [7; 7] [9; 8] [0; 0]%Z [0; 1; 1; 0; 5]
           [0; 1; 1; 0; 6; 6] [0; 3; 3; 0]%Z 2 2 1 2);
    [lia|reflexivity|reflexivity|reflexivity|simpl; lia|simpl; lia|].
  intros [|[|[|[|idx]]]] Hidx; [reflexivity..|lia].
Defined.

(** X5.  After [rank_generation] and [move_top] the first [best_num] rows of
    the population are the [best_num] cheapest tours in order of cost: row
    [k] is the tour whose cost is entry [k] of the cost vector, and no tour
    that was left out costs less than a tour that was taken. *)
Theorem elite_rows_are_the_cheapest (rank : list nat) (cost : list Z)
    (generation generation_copy : list nat) (cost_matrix : list Z)
    (numNodes population best_num : nat)
    (rank' : list nat) (cost' : list Z) (generation' generation_copy' : list nat) :
  1 ≤ numNodes → best_num ≤ population →
  length rank = population → length cost = population →
  population * numNodes ≤ length generation →
  best_num * numNodes ≤ length generation_copy →
  rank_generation rank cost generation cost_matrix numNodes population best_num
  = (rank', cost') →
  move_top rank' generation generation_copy numNodes best_num
  = (generation', generation_copy') →
  ∀ k, k < best_num →
    row generation' numNodes k = row generation numNodes (rank' !!! k) ∧
    cost' !!! k
    = computed_cost (cost !!! (rank' !!! k)) cost_matrix numNodes
        (row generation' numNodes k) ∧
    (∀ l, k < l < best_num → (cost' !!! k ≤ cost' !!! l)%Z) ∧
    (∀ j, j < population → (∀ l, l < best_num → rank' !!! l ≠ j) →
          (cost' !!! k
           ≤ computed_cost (cost !!! j) cost_matrix numNodes
               (row generation numNodes j))%Z).
Proof.
  intros Hn Hb Hlr Hlc Hfit Hfitc Hrank Hmove k Hk.
  destruct (rank_generation_spec _ _ _ _ _ _ _ _ _ Hn Hlr Hlc Hrank)
    as (Hlr' & Hlc' & Hperm & Hcost & Hord).
  destruct (move_top_spec _ _ _ _ _ _ _ Hmove) as (_ & Hlen & _ & Hcopied).
  destruct (Hcost k ltac:(lia)) as [Hrk Hck].
  assert (Hrow: row generation' numNodes k = row generation numNodes (rank' !!! k)).
  { apply row_eq_cells; [nia|nia|].
    intros c Hc. apply (Hcopied k c); [lia|done|done]. }
  split; [done|]. split; [by rewrite Hrow|]. split.
  - intros l Hl. apply Hord. lia.
  - intros j Hj Hout.
    assert (Hin: j ∈ rank').
    { rewrite Hperm. apply elem_of_seq. lia. }
    apply list_elem_of_lookup in Hin as [l Hl].
    pose proof (lookup_lt_Some _ _ _ Hl) as Hllt.
    assert (Hlj: rank' !!! l = j) by (rewrite list_lookup_total_alt, Hl; done).
    destruct (decide (l < best_num)) as [Hlo|Hhi]; [by destruct (Hout l Hlo)|].
    destruct (Hcost l ltac:(lia)) as [_ Hcl]. rewrite Hlj in Hcl.
    rewrite <- Hcl. apply Hord. lia.
Qed.

Lemma elite_rows_are_the_cheapest_witness :
  let generation := [0; 1; 2; 2; 0; 1; 1; 0; 2] in
  let cost_matrix := [0; 1; 2; 7; 0; 4; 2; 4; 0]%Z in
  let '(rank', cost') :=
    rank_generation [0; 0; 0] [0; 0; 0]%Z generation cost_matrix 3 3 2 in
  let '(generation', _) :=
    move_top rank' generation [9; 9; 9; 9; 9; 9; 9; 9; 9] 3 2 in
  ∀ k, k < 2 →
    row generation' 3 k = row generation 3 (rank' !!! k) ∧
    cost' !!! k
    = computed_cost ([0; 0; 0]%Z !!! (rank' !!! k)) cost_matrix 3
        (row generation' 3 k) ∧
    (∀ l, k < l < 2 → (cost' !!! k ≤ cost' !!! l)%Z) ∧
    (∀ j, j < 3 → (∀ l, l < 2 → rank' !!! l ≠ j) →
          (cost' !!! k
           ≤ computed_cost ([0; 0; 0]%Z !!! j) cost_matrix 3
               (row generation 3 j))%Z).
Proof.
  exact (elite_rows_are_the_cheapest [0; 0; 0] [0; 0; 0]%Z
           [0; 1; 2; 2; 0; 1; 1; 0; 2] [9; 9; 9; 9; 9; 9; 9; 9; 9]
           [0; 1; 2; 7; 0; 4; 2; 4; 0]%Z 3 3 2 _ _ _ _
           ltac:(lia) ltac:(lia) eq_refl eq_refl ltac:(simpl; lia)
           ltac:(simpl; lia) eq_refl eq_refl).
Defined.

(** ** crossover_firstHalf_withMutation: the row it writes *)

Lemma crossover_child_self (numNodes : nat) (t : list nat) :
  is_tour numNodes t → crossover_child numNodes t t = t.
Proof.
  unfold is_tour, crossover_child. intros Ht. cbv zeta.
  set (first := take (numNodes / 2) t).
  set (rest := drop (numNodes / 2) t).
  assert (Hsplit: t = first ++ rest) by (symmetry; apply take_drop).
  assert (Hnd: NoDup (first ++ rest)).
  { rewrite <- Hsplit, Ht. apply NoDup_seq. }
  apply NoDup_app in Hnd as (_ & Hdisj & _).
  rewrite Hsplit at 1. rewrite filter_app.
  rewrite (filter_outside_nil first), (filter_outside_id rest).
  - simpl. by rewrite <- Hsplit.
  - intros x Hx Hin. apply elem_of_list_to_set in Hin. by apply (Hdisj x).
  - intros x Hx. by apply elem_of_list_to_set.
Qed.

Lemma swap_cells_lookup (a : list nat) (p q k : nat) :
  p < length a → q < length a →
  swap_cells a p q !!! k
  = if decide (k = q) then a !!! p else if decide (k = p) then a !!! q else a !!! k.
Proof.
  intros Hp Hq. unfold swap_cells.
  destruct (decide (k = q)) as [->|Hkq]; [by arr|].
  destruct (decide (k = p)) as [->|Hkp]; by arr.
Qed.

Lemma swap_cells_length (a : list nat) (p q : nat) :
  length (swap_cells a p q) = length a.
Proof. unfold swap_cells. by arr. Qed.

Lemma crossover_rows_spec (g : list nat) (parent1 parent2 s numNodes : nat)
    (mutatProb : float) (rng : list nat) (g' : list nat) (rng' : list nat) :
  parent1 < s → parent2 < s → (s + 1) * numNodes ≤ length g →
  is_tour numNodes (row g numNodes parent1) →
  is_tour numNodes (row g numNodes parent2) →
  crossover_firstHalf_withMutation g parent1 parent2 (s * numNodes) numNodes
    mutatProb rng = Ok (g', rng') →
  let child := crossover_child numNodes (row g numNodes parent1)
                 (row g numNodes parent2) in
  length g' = length g ∧
  (∀ idx, ¬ (s * numNodes ≤ idx < s * numNodes + numNodes) →
          g' !!! idx = g !!! idx) ∧
  ∃ r rest, rng = r :: rest ∧
    ((mutation_triggers r mutatProb = false ∧ rng' = rest ∧
      row g' numNodes s = child) ∨
     (mutation_triggers r mutatProb = true ∧
      ∃ r1 skipped r2,
        rest = r1 :: skipped ++ r2 :: rng' ∧ numNodes ≠ 0 ∧
        r2 mod numNodes ≠ r1 mod numNodes ∧
        Forall (λ d, d mod numNodes = r1 mod numNodes) skipped ∧
        row g' numNodes s
        = swap_cells child (r1 mod numNodes) (r2 mod numNodes))).
Proof.
  intros Hp1 Hp2 Hfit Ht1 Ht2. unfold crossover_firstHalf_withMutation.
  destruct (for_loop (numNodes / 2) 0 (take_step parent1 (s * numNodes) numNodes)
              (g, ∅)) as [g1 nodes] eqn:Hst1.
  destruct (for_loop numNodes 0 (fill_step nodes parent2 (s * numNodes) numNodes)
              (g1, numNodes / 2)) as [g2 j] eqn:Hst2.
  destruct (crossover_copy_spec g parent1 parent2 (s * numNodes) numNodes
              ltac:(nia) ltac:(nia) ltac:(lia) Ht1 Ht2 _ _
              (eq_sym Hst1) (eq_sym Hst2)) as (Hlen & _ & Hout & Hin).
  cbn [fst snd] in *.
  pose proof (crossover_child_length _ _ _ Ht1 Ht2) as Hlc.
  cbv zeta.
  set (child := crossover_child numNodes (row g numNodes parent1)
                  (row g numNodes parent2)) in *.
  unfold bind, rand. destruct rng as [|r rng]; [done|].
  destruct (mutation_triggers r mutatProb) eqn:Htrig.
  - unfold rand_mod. destruct rng as [|r1 rng]; [done|].
    destruct (decide (numNodes = 0)) as [|Hn]; [done|].
    destruct (draw_until_differs numNodes (r1 mod numNodes) rng)
      as [[swap2 rng2]| |] eqn:Hdraw; [|done..].
    apply draw_until_differs_spec in Hdraw
      as (_ & Hs2 & Hne & skipped & r2 & -> & -> & Hall).
    pose proof (Nat.mod_upper_bound r1 numNodes Hn) as Hs1.
    set (swap1 := r1 mod numNodes) in *. set (swap2 := r2 mod numNodes) in *.
    unfold ret. intros [= <- <-]. arr.
    split; [done|]. split.
    + intros idx Hidx. arr. apply Hout. lia.
    + exists r, (r1 :: skipped ++ r2 :: rng2). split; [done|]. right.
      split; [done|]. exists r1, skipped, r2.
      split; [done|]. split; [done|]. split; [done|]. split; [done|].
      apply list_eq_total.
      * rewrite swap_cells_length, Hlc. apply row_length. arr. lia.
      * intros k Hk. rewrite row_length in Hk by (arr; lia).
        rewrite row_lookup_total by done.
        rewrite swap_cells_lookup by lia. fold swap1 swap2.
        destruct (decide (k = swap2)) as [->|Hk2]; [arr; by apply Hin|].
        destruct (decide (k = swap1)) as [->|Hk1]; arr; by apply Hin.
  - unfold ret. intros [= <- <-].
    split; [done|]. split; [done|].
    exists r, rng. split; [done|]. left. split; [done|]. split; [done|].
    apply list_eq_total.
    + rewrite Hlc. apply row_length. lia.
    + intros k Hk. rewrite row_length in Hk by lia.
      rewrite row_lookup_total by done. by apply Hin.
Qed.

(** X6.  Without a mutation the function takes one draw and leaves in the
    son row the first half of [parent1] followed by the nodes of [parent2]
    that the half does not hold, in the order of [parent2]; every cell
    outside the son row is as before.  A tour crossed with itself gives the
    tour back. *)
Theorem crossover_without_mutation (g : list nat)
    (parent1 parent2 s numNodes : nat) (mutatProb : float) (r : nat)
    (rng : list nat) :
  parent1 < s → parent2 < s → (s + 1) * numNodes ≤ length g →
  is_tour numNodes (row g numNodes parent1) →
  is_tour numNodes (row g numNodes parent2) →
  mutation_triggers r mutatProb = false →
  ∃ g',
    crossover_firstHalf_withMutation g parent1 parent2 (s * numNodes) numNodes
      mutatProb (r :: rng) = Ok (g', rng) ∧
    length g' = length g ∧
    (∀ idx, ¬ (s * numNodes ≤ idx < (s + 1) * numNodes) →
            g' !!! idx = g !!! idx) ∧
    row g' numNodes s
    = crossover_child numNodes (row g numNodes parent1) (row g numNodes parent2) ∧
    take (numNodes / 2) (row g' numNodes s)
    = take (numNodes / 2) (row g numNodes parent1) ∧
    (parent1 = parent2 → row g' numNodes s = row g numNodes parent1).
Proof.
  intros Hp1 Hp2 Hfit Ht1 Ht2 Htrig.
  destruct (crossover_firstHalf_withMutation g parent1 parent2 (s * numNodes)
              numNodes mutatProb (r :: rng)) as [[g' rng']| |] eqn:Hrun.
  2,3: exfalso; revert Hrun; unfold crossover_firstHalf_withMutation;
       destruct (for_loop _ _ _ _) as [g1 nodes];
       destruct (for_loop _ _ _ _) as [g2 j];
       unfold bind, rand; rewrite Htrig; done.
  destruct (crossover_rows_spec _ _ _ _ _ _ _ _ _ Hp1 Hp2 Hfit Ht1 Ht2 Hrun)
    as (Hl & Hout & r' & rest & [= <- <-] & [(_ & -> & Hrow)|(Ht & _)]);
    [|congruence].
  exists g'. split; [done|]. split; [done|]. split; [|split; [done|split]].
  - intros idx Hidx. apply Hout. lia.
  - rewrite Hrow. unfold crossover_child. cbv zeta.
    rewrite take_app_le; [by rewrite take_take, Nat.min_id|].
    rewrite length_take. apply is_tour_alt in Ht1 as (Hl1 & _).
    rewrite Hl1. pose proof (Nat.Div0.div_le_upper_bound numNodes 2 numNodes).
    lia.
  - intros <-. rewrite Hrow. by apply crossover_child_self.
Qed.

Lemma crossover_without_mutation_witness :
  ∃ g',
    crossover_firstHalf_withMutation [0; 1; 2; 3; 3; 2; 1; 0; 9; 9; 9; 9] 0 1
      (2 * 4) 4 0%float (5 :: [7]) = Ok (g', [7]) ∧
    length g' = length [0; 1; 2; 3; 3; 2; 1; 0; 9; 9; 9; 9] ∧
    (∀ idx, ¬ (2 * 4 ≤ idx < (2 + 1) * 4) →
            g' !!! idx = [0; 1; 2; 3; 3; 2; 1; 0; 9; 9; 9; 9] !!! idx) ∧
    row g' 4 2
    = crossover_child 4 (row [0; 1; 2; 3; 3; 2; 1; 0; 9; 9; 9; 9] 4 0)
        (row [0; 1; 2; 3; 3; 2; 1; 0; 9; 9; 9; 9] 4 1) ∧
    take (4 / 2) (row g' 4 2)
    = take (4 / 2) (row [0; 1; 2; 3; 3; 2; 1; 0; 9; 9; 9; 9] 4 0) ∧
    (0 = 1 → row g' 4 2 = row [0; 1; 2; 3; 3; 2; 1; 0; 9; 9; 9; 9] 4 0).
Proof.
  apply (crossover_without_mutation [0; 1; 2; 3; 3; 2; 1; 0; 9; 9; 9; 9] 0 1 2 4
           0%float 5 [7]).
  - lia.
  - lia.
  - simpl. lia.
  - apply is_tourb_correct. reflexivity.
  - apply is_tourb_correct. reflexivity.
  - reflexivity.
Defined.

(** X7.  A mutation that is triggered exchanges two different cells of the
    child, and since the child is a tour the two cells hold different nodes:
    the row written always differs from the unmutated child, in exactly
    these two positions.  It takes at least two further draws. *)
Theorem mutation_exchanges_two_cells (g : list nat)
    (parent1 parent2 s numNodes : nat) (mutatProb : float) (r : nat)
    (rng g' rng' : list nat) :
  parent1 < s → parent2 < s → (s + 1) * numNodes ≤ length g →
  is_tour numNodes (row g numNodes parent1) →
  is_tour numNodes (row g numNodes parent2) →
  mutation_triggers r mutatProb = true →
  crossover_firstHalf_withMutation g parent1 parent2 (s * numNodes) numNodes
    mutatProb (r :: rng) = Ok (g', rng') →
  let child := crossover_child numNodes (row g numNodes parent1)
                 (row g numNodes parent2) in
  ∃ swap1 swap2,
    swap1 < numNodes ∧ swap2 < numNodes ∧ swap1 ≠ swap2 ∧
    row g' numNodes s !!! swap1 = child !!! swap2 ∧
    row g' numNodes s !!! swap2 = child !!! swap1 ∧
    (∀ k, k ≠ swap1 → k ≠ swap2 → row g' numNodes s !!! k = child !!! k) ∧
    child !!! swap1 ≠ child !!! swap2 ∧
    row g' numNodes s ≠ child ∧
    length rng' + 2 ≤ length rng.
Proof.
  intros Hp1 Hp2 Hfit Ht1 Ht2 Htrig Hrun. cbv zeta.
  destruct (crossover_rows_spec _ _ _ _ _ _ _ _ _ Hp1 Hp2 Hfit Ht1 Ht2 Hrun)
    as (Hl & Hout & r' & rest & [= <- <-] &
        [(Hf & _)|(_ & r1 & skipped & r2 & -> & Hn & Hne & _ & Hrow)]);
    [congruence|].
  pose proof (crossover_child_tour _ _ _ Ht1 Ht2) as Hchild.
  apply is_tour_alt in Hchild as (Hlc & _ & Hinj).
  set (child := crossover_child numNodes (row g numNodes parent1)
                  (row g numNodes parent2)) in *.
  pose proof (Nat.mod_upper_bound r1 numNodes Hn) as Hs1.
  pose proof (Nat.mod_upper_bound r2 numNodes Hn) as Hs2.
  set (swap1 := r1 mod numNodes) in *. set (swap2 := r2 mod numNodes) in *.
  assert (Hcells: ∀ k, row g' numNodes s !!! k
            = if decide (k = swap2) then child !!! swap1
              else if decide (k = swap1) then child !!! swap2 else child !!! k).
  { intros k. rewrite Hrow. apply swap_cells_lookup; lia. }
  assert (Hdiff: child !!! swap1 ≠ child !!! swap2).
  { intros Heq. apply Hne. symmetry. by apply Hinj. }
  exists swap1, swap2. split; [done|]. split; [done|]. split; [done|].
  split; [|split; [|split; [|split; [done|split]]]].
  - rewrite Hcells. destruct (decide (swap1 = swap2)); [done|].
    by destruct (decide (swap1 = swap1)).
  - rewrite Hcells. by destruct (decide (swap2 = swap2)).
  - intros k Hk1 Hk2. rewrite Hcells.
    destruct (decide (k = swap2)); [done|]. by destruct (decide (k = swap1)).
  - intros Heq. apply Hdiff. rewrite <- Heq at 1. rewrite Hcells.
    destruct (decide (swap1 = swap2)); [done|].
    by destruct (decide (swap1 = swap1)).
  - simpl. rewrite length_app. simpl. lia.
Qed.

Lemma mutation_exchanges_two_cells_witness :
  let child := crossover_child 4 (row [0; 1; 2; 3; 3; 2; 1; 0; 9; 9; 9; 9] 4 0)
                 (row [0; 1; 2; 3; 3; 2; 1; 0; 9; 9; 9; 9] 4 1) in
  ∃ swap1 swap2,
    swap1 < 4 ∧ swap2 < 4 ∧ swap1 ≠ swap2 ∧
    row [0; 1; 2; 3; 3; 2; 1; 0; 0; 1; 2; 3] 4 2 !!! swap1 = child !!! swap2 ∧
    row [0; 1; 2; 3; 3; 2; 1; 0; 0; 1; 2; 3] 4 2 !!! swap2 = child !!! swap1 ∧
    (∀ k, k ≠ swap1 → k ≠ swap2 →
          row [0; 1; 2; 3; 3; 2; 1; 0; 0; 1; 2; 3] 4 2 !!! k = child !!! k) ∧
    child !!! swap1 ≠ child !!! swap2 ∧
    row [0; 1; 2; 3; 3; 2; 1; 0; 0; 1; 2; 3] 4 2 ≠ child ∧
    length ([] : list nat) + 2 ≤ length [2; 6; 3].
Proof.
  apply (mutation_exchanges_two_cells [0; 1; 2; 3; 3; 2; 1; 0; 9; 9; 9; 9] 0 1 2 4
           1%float 5 [2; 6; 3] [0; 1; 2; 3; 3; 2; 1; 0; 0; 1; 2; 3] []).
  - lia.
  - lia.
  - simpl. lia.
  - apply is_tourb_correct. reflexivity.
  - apply is_tourb_correct. reflexivity.
  - reflexivity.
  - reflexivity.
Defined.

(** X8.  The mutation needs two nodes to exchange.  With one node the second
    position is redrawn for ever, every draw being equal to the first; with
    no node the first [rand() % numNodes] divides by zero. *)
Theorem mutation_needs_two_nodes (g : list nat) (parent1 parent2 son : nat)
    (mutatProb : float) (r : nat) (rng : list nat) :
  mutation_triggers r mutatProb = true →
  crossover_firstHalf_withMutation g parent1 parent2 son 1 mutatProb (r :: rng)
  = NoMoreDraws ∧
  (rng ≠ [] →
   crossover_firstHalf_withMutation g parent1 parent2 son 0 mutatProb (r :: rng)
   = DivByZero).
Proof.
  intros Htrig. split.
  - unfold crossover_firstHalf_withMutation.
    destruct (for_loop _ _ _ _) as [g1 nodes].
    destruct (for_loop _ _ _ _) as [g2 j].
    unfold bind, rand. rewrite Htrig. unfold rand_mod.
    destruct rng as [|r1 rng]; [done|].
    destruct (decide (1 = 0)); [lia|].
    rewrite Nat.mod_1_r. by rewrite draw_until_differs_one.
  - intros Hrng. unfold crossover_firstHalf_withMutation.
    destruct (for_loop _ _ _ _) as [g1 nodes].
    destruct (for_loop _ _ _ _) as [g2 j].
    unfold bind, rand. rewrite Htrig. unfold rand_mod.
    destruct rng as [|r1 rng]; [done|].
    by destruct (decide (0 = 0)).
Qed.

Lemma mutation_needs_two_nodes_witness :
  crossover_firstHalf_withMutation [0; 0; 9] 0 1 2 1 1%float (5 :: [3; 4; 8])
  = NoMoreDraws ∧
  ([3; 4; 8] ≠ [] →
   crossover_firstHalf_withMutation [0; 0; 9] 0 1 2 0 1%float (5 :: [3; 4; 8])
   = DivByZero).
Proof.
  exact (mutation_needs_two_nodes [0; 0; 9] 0 1 2 1%float 5 [3; 4; 8] eq_refl).
Defined.

(** ** generate: fewer than two elites *)

(** X9.  [generate] needs at least two elites whenever it has a row to
    fill.  With none the first parent is [rand() % 0], a division by zero;
    with one the second parent of slot 0 is redrawn for ever, since the only
    index it can draw is the slot's own. *)
Theorem generate_needs_two_elites (g : list nat) (population numNodes : nat)
    (mutatProb : float) (rng : list nat) :
  (0 < population → rng ≠ [] →
   generate g population 0 numNodes mutatProb rng = DivByZero) ∧
  (1 < population →
   generate g population 1 numNodes mutatProb rng = NoMoreDraws).
Proof.
  split.
  - intros Hp Hrng. unfold generate.
    destruct (population - 0) as [|c] eqn:Hc; [lia|].
    simpl. unfold bind at 1. unfold generate_step, bind at 1.
    unfold select_parents, bind, ret, rand_mod. simpl.
    destruct rng as [|r rng]; [done|]. done.
  - apply generate_with_one_elite.
Qed.

Lemma generate_needs_two_elites_witness :
  generate [9; 9; 9; 9] 2 0 2 0%float [3; 1; 4] = DivByZero ∧
  generate [0; 1; 9; 9] 2 1 2 0%float [3; 1; 4] = NoMoreDraws.
Proof.
  split.
  - apply (proj1 (generate_needs_two_elites [9; 9; 9; 9] 2 2 0%float [3; 1; 4]));
      [lia|done].
  - apply (proj2 (generate_needs_two_elites [0; 1; 9; 9] 2 2 0%float [3; 1; 4])).
    lia.
Defined.

(** ** generate: the iterations and the rows they touch *)

(** The draws the function takes do not depend on the buffer, the parents
    or the son row. *)
Lemma crossover_draws_alike (ga gb : list nat)
    (p1 p2 sona p1' p2' sonb numNodes : nat) (mutatProb : float)
    (rng : list nat) :
  same_draws
    (crossover_firstHalf_withMutation ga p1 p2 sona numNodes mutatProb rng)
    (crossover_firstHalf_withMutation gb p1' p2' sonb numNodes mutatProb rng).
Proof.
  unfold crossover_firstHalf_withMutation.
  destruct (for_loop _ _ (take_step p1 sona numNodes) _) as [ga1 na].
  destruct (for_loop _ _ (fill_step na p2 sona numNodes) _) as [ga2 ja].
  destruct (for_loop _ _ (take_step p1' sonb numNodes) _) as [gb1 nb].
  destruct (for_loop _ _ (fill_step nb p2' sonb numNodes) _) as [gb2 jb].
  unfold bind, rand. destruct rng as [|r rng]; [done|].
  destruct (mutation_triggers r mutatProb); [|done].
  unfold rand_mod. destruct rng as [|r1 rng]; [done|].
  destruct (decide (numNodes = 0)); [done|].
  destruct (draw_until_differs numNodes (r1 mod numNodes) rng)
    as [[swap2 rng2]| |]; done.
Qed.

(** One iteration of the loop, run on another buffer that holds the same
    elite rows: it takes the same draws and writes the same row. *)
Lemma generate_step_transfer (best_num numNodes : nat) (mutatProb : float)
    (i : nat) (ga gb : list nat) (rng : list nat) (ga' rng' : list nat) :
  (best_num + i + 1) * numNodes ≤ length ga → length gb = length ga →
  (∀ p, p < best_num → is_tour numNodes (row ga numNodes p)) →
  (∀ idx, idx < best_num * numNodes → gb !!! idx = ga !!! idx) →
  generate_step best_num numNodes mutatProb i ga rng = Ok (ga', rng') →
  ∃ gb',
    generate_step best_num numNodes mutatProb i gb rng = Ok (gb', rng') ∧
    length gb' = length gb ∧
    (∀ idx, ¬ ((best_num + i) * numNodes ≤ idx < (best_num + i + 1) * numNodes) →
            gb' !!! idx = gb !!! idx) ∧
    row gb' numNodes (best_num + i) = row ga' numNodes (best_num + i).
Proof.
  intros Hfit Hlen Helite Hagree. unfold generate_step, bind.
  destruct (select_parents best_num i rng) as [[[p1 p2] rng1]| |] eqn:Hsel;
    [|done..].
  apply select_parents_spec in Hsel as (_ & _ & Hp1 & Hp2 & _). intros Hrun.
  assert (Hrows: ∀ p, p < best_num → row gb numNodes p = row ga numNodes p).
  { intros p Hp. apply row_ext; [done|]. intros k Hk. apply Hagree. nia. }
  pose proof (crossover_draws_alike ga gb p1 p2 ((best_num + i) * numNodes)
                p1 p2 ((best_num + i) * numNodes) numNodes mutatProb rng1)
    as Hdraws.
  rewrite Hrun in Hdraws.
  destruct (crossover_firstHalf_withMutation gb p1 p2 ((best_num + i) * numNodes)
              numNodes mutatProb rng1) as [[gb' rngb]| |] eqn:Hrunb; [|done..].
  simpl in Hdraws. subst rngb. exists gb'. split; [done|].
  destruct (crossover_rows_spec ga p1 p2 (best_num + i) numNodes mutatProb rng1
              ga' rng' ltac:(lia) ltac:(lia) ltac:(lia)
              (Helite p1 Hp1) (Helite p2 Hp2) Hrun)
    as (_ & _ & ra & resta & Hra & Ha).
  destruct (crossover_rows_spec gb p1 p2 (best_num + i) numNodes mutatProb rng1
              gb' rng' ltac:(lia) ltac:(lia) ltac:(lia)
              ltac:(rewrite Hrows by done; by apply Helite)
              ltac:(rewrite Hrows by done; by apply Helite) Hrunb)
    as (Hlb & Houtb & rb & restb & Hrb & Hb).
  split; [done|]. split; [intros idx Hidx; apply Houtb; lia|].
  rewrite !Hrows in Hb by done.
  rewrite Hra in Hrb. injection Hrb as <- <-.
  destruct Ha as [(Hfa & _ & ->)|(Hta & r1 & ska & r2 & Hresta & _ & _ & _ & ->)];
    destruct Hb as [(Hfb & _ & ->)|(Htb & r1' & skb & r2' & Hrestb & _ & _ & _ & ->)];
    try congruence.
  rewrite Hresta in Hrestb. injection Hrestb as <- Happ.
  apply app_inj_2 in Happ as [_ [= <-]]; done.
Qed.

(** X10.  Two iterations of the loop of [generate] touch different rows and
    read only elite rows, so they can run in either order: when iteration
    [i] followed by iteration [j], each with its own draws, gives a buffer,
    iteration [j] followed by iteration [i] with the same draws gives the
    same buffer. *)
Theorem generate_iterations_commute (best_num numNodes : nat)
    (mutatProb : float) (i j : nat) (g : list nat)
    (rng_i rng_j g1 g2 rng_i' rng_j' : list nat) :
  i ≠ j →
  (best_num + i + 1) * numNodes ≤ length g →
  (best_num + j + 1) * numNodes ≤ length g →
  (∀ p, p < best_num → is_tour numNodes (row g numNodes p)) →
  generate_step best_num numNodes mutatProb i g rng_i = Ok (g1, rng_i') →
  generate_step best_num numNodes mutatProb j g1 rng_j = Ok (g2, rng_j') →
  ∃ g1',
    generate_step best_num numNodes mutatProb j g rng_j = Ok (g1', rng_j') ∧
    generate_step best_num numNodes mutatProb i g1' rng_i = Ok (g2, rng_i').
Proof.
  intros Hij Hfi Hfj Helite Hi Hj.
  destruct (generate_step_spec _ _ _ _ _ _ _ _ Hfi Helite Hi) as (Hl1 & Hout1 & _).
  assert (Helite1: ∀ p, p < best_num → is_tour numNodes (row g1 numNodes p)).
  { intros p Hp. rewrite (row_ext g g1); [by apply Helite|done|].
    intros k Hk. apply Hout1. nia. }
  assert (Hfj1: (best_num + j + 1) * numNodes ≤ length g1) by lia.
  destruct (generate_step_spec _ _ _ _ _ _ _ _ Hfj1 Helite1 Hj)
    as (Hl2 & Hout2 & _).
  destruct (generate_step_transfer best_num numNodes mutatProb j g1 g rng_j g2
              rng_j' ltac:(lia) ltac:(lia) Helite1
              ltac:(intros idx Hidx; symmetry; apply Hout1; nia) Hj)
    as (g1' & Hj' & Hl1' & Hout1' & Hrowj).
  exists g1'. split; [done|].
  destruct (generate_step_transfer best_num numNodes mutatProb i g g1' rng_i g1
              rng_i' Hfi ltac:(lia) Helite
              ltac:(intros idx Hidx; apply Hout1'; nia) Hi)
    as (g2' & Hi' & Hl2' & Hout2' & Hrowi).
  rewrite Hi'. do 2 f_equal.
  apply list_eq_total; [lia|]. intros idx Hidx.
  destruct (decide ((best_num + i) * numNodes ≤ idx < (best_num + i + 1) * numNodes))
    as [Hin_i|Hout_i].
  - replace idx with ((best_num + i) * numNodes + (idx - (best_num + i) * numNodes))
      by lia.
    rewrite <- !row_lookup_total by lia. rewrite Hrowi.
    rewrite !row_lookup_total by lia. symmetry. apply Hout2. nia.
  - rewrite Hout2' by done.
    destruct (decide ((best_num + j) * numNodes ≤ idx
                      < (best_num + j + 1) * numNodes)) as [Hin_j|Hout_j].
    + replace idx with ((best_num + j) * numNodes + (idx - (best_num + j) * numNodes))
        by lia.
      rewrite <- !row_lookup_total by lia. by rewrite Hrowj.
    + rewrite Hout1', Hout2, Hout1 by done. done.
Qed.

Lemma generate_iterations_commute_witness :
  ∃ g1',
    generate_step 2 3 1%float 1 [0; 1; 2; 1; 0; 2; 9; 9; 9; 9; 9; 9] [4; 3; 7; 0; 5]
    = Ok (g1', [5]) ∧
    generate_step 2 3 1%float 0 g1' [1; 2; 0; 3; 1]
    = Ok ([0; 1; 2; 1; 0; 2; 1; 0; 2; 0; 1; 2], []).
Proof.
  apply (generate_iterations_commute 2 3 1%float 0 1
           [0; 1; 2; 1; 0; 2; 9; 9; 9; 9; 9; 9] [1; 2; 0; 3; 1] [4; 3; 7; 0; 5]
           [0; 1; 2; 1; 0; 2; 1; 0; 2; 9; 9; 9]
           [0; 1; 2; 1; 0; 2; 1; 0; 2; 0; 1; 2] [] [5]).
  - lia.
  - simpl. lia.
  - simpl. lia.
  - intros p Hp. apply is_tourb_correct.
    destruct p as [|[|p]]; [reflexivity|reflexivity|lia].
  - reflexivity.
  - reflexivity.
Defined.

(** The row one iteration writes, in terms of the elite rows. *)
Lemma generate_step_child (best_num numNodes : nat) (mutatProb : float)
    (i : nat) (g : list nat) (rng : list nat) (g' : list nat) (rng' : list nat) :
  (best_num + i + 1) * numNodes ≤ length g →
  (∀ p, p < best_num → is_tour numNodes (row g numNodes p)) →
  generate_step best_num numNodes mutatProb i g rng = Ok (g', rng') →
  ∃ parent1 parent2,
    parent1 < best_num ∧ parent2 < best_num ∧ parent2 ≠ i ∧
    (i < best_num → parent1 = i) ∧
    let child := crossover_child numNodes (row g numNodes parent1)
                   (row g numNodes parent2) in
    (row g' numNodes (best_num + i) = child ∨
     ∃ swap1 swap2,
       swap1 < numNodes ∧ swap2 < numNodes ∧ swap1 ≠ swap2 ∧
       row g' numNodes (best_num + i) = swap_cells child swap1 swap2).
Proof.
  intros Hfit Helite. unfold generate_step, bind.
  destruct (select_parents best_num i rng) as [[[p1 p2] rng1]| |] eqn:Hsel;
    [|done..].
  apply select_parents_spec in Hsel as (Hself & _ & Hp1 & Hp2 & Hne & _).
  intros Hrun.
  destruct (crossover_rows_spec g p1 p2 (best_num + i) numNodes mutatProb rng1
              g' rng' ltac:(lia) ltac:(lia) ltac:(lia)
              (Helite p1 Hp1) (Helite p2 Hp2) Hrun)
    as (_ & _ & r & rest & _ &
        [(_ & _ & Hrow)|(_ & r1 & sk & r2 & _ & Hn & Hdiff & _ & Hrow)]).
  - exists p1, p2. cbv zeta. repeat (split; [done|]). by left.
  - exists p1, p2. cbv zeta. repeat (split; [done|]). right.
    exists (r1 mod numNodes), (r2 mod numNodes).
    split; [by apply Nat.mod_upper_bound|].
    split; [by apply Nat.mod_upper_bound|]. split; [congruence|done].
Qed.

(** X11.  Every row that [generate] fills is the crossover of two elite
    rows of the buffer it was given, either as it is or with two cells
    exchanged; the second parent is never the elite with the slot's own
    index, and the first [best_num] children get the elites [0], [1], ...
    in turn as their first parent, so each elite has a child when there is
    room for [best_num] children. *)
Theorem generate_children (g : list nat) (population best_num numNodes : nat)
    (mutatProb : float) (rng g' rng' : list nat) :
  population * numNodes ≤ length g →
  (∀ p, p < best_num → is_tour numNodes (row g numNodes p)) →
  generate g population best_num numNodes mutatProb rng = Ok (g', rng') →
  ∀ i, i < population - best_num →
    ∃ parent1 parent2,
      parent1 < best_num ∧ parent2 < best_num ∧ parent2 ≠ i ∧
      (i < best_num → parent1 = i) ∧
      let child := crossover_child numNodes (row g numNodes parent1)
                     (row g numNodes parent2) in
      (row g' numNodes (best_num + i) = child ∨
       ∃ swap1 swap2,
         swap1 < numNodes ∧ swap2 < numNodes ∧ swap1 ≠ swap2 ∧
         row g' numNodes (best_num + i) = swap_cells child swap1 swap2).
Proof.
  intros Hfit Helite Hrun. unfold generate in Hrun.
  pose (Q := λ (i : nat) (t : list nat),
    ∃ parent1 parent2,
      parent1 < best_num ∧ parent2 < best_num ∧ parent2 ≠ i ∧
      (i < best_num → parent1 = i) ∧
      let child := crossover_child numNodes (row g numNodes parent1)
                     (row g numNodes parent2) in
      (t = child ∨
       ∃ swap1 swap2,
         swap1 < numNodes ∧ swap2 < numNodes ∧ swap1 ≠ swap2 ∧
         t = swap_cells child swap1 swap2)).
  pose (P := λ (n : nat) (g1 : list nat),
    length g1 = length g ∧
    (∀ idx, idx < best_num * numNodes → g1 !!! idx = g !!! idx) ∧
    (∀ i, i < n → Q i (row g1 numNodes (best_num + i)))).
  assert (HP: P (0 + (population - best_num)) g').
  { apply (for_loopM_inv P _ _ _ _ _ _ _ Hrun).
    - unfold P. split; [done|]. split; [done|]. intros; lia.
    - intros i g1 r g2 r2 Hi (Hl & Hkeep & Hdone) Hstep.
      assert (Hrows: ∀ p, p < best_num → row g1 numNodes p = row g numNodes p).
      { intros p Hp. apply row_ext; [done|]. intros k Hk. apply Hkeep. nia. }
      assert (Helite1: ∀ p, p < best_num → is_tour numNodes (row g1 numNodes p)).
      { intros p Hp. rewrite Hrows by done. by apply Helite. }
      assert (Hfit1: (best_num + i + 1) * numNodes ≤ length g1) by nia.
      destruct (generate_step_spec _ _ _ _ _ _ _ _ Hfit1 Helite1 Hstep)
        as (Hl2 & Hout2 & _).
      destruct (generate_step_child _ _ _ _ _ _ _ _ Hfit1 Helite1 Hstep)
        as (p1 & p2 & Hp1 & Hp2 & Hne & Hself & Hrow).
      unfold P. split; [lia|]. split.
      + intros idx Hidx. rewrite Hout2 by nia. by apply Hkeep.
      + intros i' Hi'. destruct (decide (i' = i)) as [->|Hne'].
        * exists p1, p2. rewrite <- !Hrows by done. done.
        * rewrite (row_ext g1 g2); [apply Hdone; lia|done|].
          intros k Hk. apply Hout2. nia. }
  destruct HP as (_ & _ & HQ). intros i Hi. apply HQ. lia.
Qed.

Lemma generate_children_witness :
  ∃ parent1 parent2,
    parent1 < 2 ∧ parent2 < 2 ∧ parent2 ≠ 1 ∧
    (1 < 2 → parent1 = 1) ∧
    let child := crossover_child 3 (row [0; 1; 2; 1; 0; 2; 9; 9; 9; 9; 9; 9] 3 parent1)
                   (row [0; 1; 2; 1; 0; 2; 9; 9; 9; 9; 9; 9] 3 parent2) in
    (row [0; 1; 2; 1; 0; 2; 0; 1; 2; 1; 0; 2] 3 (2 + 1) = child ∨
     ∃ swap1 swap2,
       swap1 < 3 ∧ swap2 < 3 ∧ swap1 ≠ swap2 ∧
       row [0; 1; 2; 1; 0; 2; 0; 1; 2; 1; 0; 2] 3 (2 + 1)
       = swap_cells child swap1 swap2).
Proof.
  apply (generate_children [0; 1; 2; 1; 0; 2; 9; 9; 9; 9; 9; 9] 4 2 3 0%float
           [5; 1; 7; 5; 0; 1] [0; 1; 2; 1; 0; 2; 0; 1; 2; 1; 0; 2] []).
  - simpl. lia.
  - intros p Hp. apply is_tourb_correct.
    destruct p as [|[|p]]; [reflexivity|reflexivity|lia].
  - reflexivity.
  - lia.
Defined.

(** ** The generation loop: how long it runs *)

Lemma early_stop_returns (generation_cost : list Z) (lastRounds : list float)
    (i earlyStopRounds : nat) (earlyStopParam : float)
    (window : list float) (sd : option float) (converged : bool) :
  early_stop generation_cost lastRounds i earlyStopRounds earlyStopParam
  = Ok (window, sd, converged) →
  earlyStopRounds ≠ 0 ∧
  (earlyStopRounds ≤ i → ∃ v, sd = Some v) ∧
  (i < earlyStopRounds → sd = None ∧ converged = false).
Proof.
  unfold early_stop. destruct (decide (earlyStopRounds = 0)); [done|].
  destruct (decide (earlyStopRounds ≤ i)); intros [= <- <- <-].
  - split; [done|]. split; [eauto|]. intros; lia.
  - split; [done|]. split; [intros; lia|done].
Qed.

Lemma seq_from_max (i R ran : nat) :
  (if decide (R ≤ i) then [i] else [])
  ++ seq (Nat.max (Datatypes.S i) R) (Datatypes.S i + ran - Nat.max (Datatypes.S i) R)
  = seq (Nat.max i R) (i + Datatypes.S ran - Nat.max i R).
Proof.
  destruct (decide (R ≤ i)) as [Hle|Hgt].
  - rewrite !Nat.max_l by lia.
    replace (Datatypes.S i + ran - Datatypes.S i) with ran by lia.
    replace (i + Datatypes.S ran - i) with (Datatypes.S ran) by lia. done.
  - rewrite !Nat.max_r by lia. simpl. f_equal. lia.
Qed.

Section Loop.

Variable rank_generation_detailed :
  list Z → list nat → list nat → list Z → nat → nat → Z → nat →
  list Z * list nat * list nat.
Variable generate_detailed :
  list nat → nat → Z → nat → Z → nat → Rand (list nat).
Variables (numThreads : nat) (cost_matrix : list Z) (numNodes population : nat).
Variables (best_num probCentile : Z).
Variables (earlyStopRounds : nat) (earlyStopParam : float).

Lemma generation_body_trace (i : nat) (st : engine_state) (rng : list nat)
    (st' : engine_state) (converged : bool) (rng' : list nat) :
  generation_body rank_generation_detailed generate_detailed numThreads
    cost_matrix numNodes population best_num probCentile earlyStopRounds
    earlyStopParam i st rng = Ok (st', converged, rng') →
  earlyStopRounds ≠ 0 ∧
  es_generationFile st'
  = es_generationFile st ++ [(numNodes, population, best_num)] ∧
  es_stdDev_calls st'
  = es_stdDev_calls st ++ (if decide (earlyStopRounds ≤ i) then [i] else []) ∧
  (converged = true → earlyStopRounds ≤ i).
Proof.
  unfold generation_body, bind.
  destruct (generate_detailed _ _ _ _ _ _ rng) as [[g1 r1]| |]; [|done..].
  destruct (rank_generation_detailed _ _ _ _ _ _ _ _) as [[c1 g2] gc2].
  destruct (early_stop c1 (es_lastRounds st) i earlyStopRounds earlyStopParam)
    as [[[w sd] cv]| |] eqn:Hes; [|done..].
  intros [= <- <- <-]. simpl.
  apply early_stop_returns in Hes as (HR & Hfull & Hpart).
  split; [done|]. split; [done|].
  destruct (decide (earlyStopRounds ≤ i)) as [Hle|Hgt].
  - destruct (Hfull Hle) as [v ->]. done.
  - destruct (Hpart ltac:(lia)) as [-> ->]. done.
Qed.

Lemma generation_loop_trace (count i : nat) (st : engine_state)
    (rng : list nat) (st' : engine_state) (converged : bool) (rng' : list nat) :
  generation_loop rank_generation_detailed generate_detailed numThreads
    cost_matrix numNodes population best_num probCentile earlyStopRounds
    earlyStopParam count i st rng = Ok (st', converged, rng') →
  ∃ ran,
    ran ≤ count ∧
    es_generationFile st'
    = es_generationFile st ++ replicate ran (numNodes, population, best_num) ∧
    es_stdDev_calls st'
    = es_stdDev_calls st
      ++ seq (Nat.max i earlyStopRounds) (i + ran - Nat.max i earlyStopRounds) ∧
    (converged = false → ran = count) ∧
    (converged = true → 1 ≤ ran ∧ earlyStopRounds ≤ i + ran - 1).
Proof.
  revert i st rng. induction count as [|c IH]; intros i st rng Hrun.
  - simpl in Hrun. injection Hrun as <- <- <-. exists 0.
    split; [done|]. simpl. rewrite !app_nil_r.
    replace (i + 0 - Nat.max i earlyStopRounds) with 0 by lia. simpl.
    rewrite app_nil_r. done.
  - simpl in Hrun. unfold bind at 1 in Hrun.
    destruct (generation_body _ _ _ _ _ _ _ _ _ _ i st rng)
      as [[[st1 conv1] rng1]| |] eqn:Hbody; [|done..].
    apply generation_body_trace in Hbody as (HR & Hfile & Hcalls & Hconv).
    destruct conv1.
    + injection Hrun as <- <- <-. exists 1.
      specialize (Hconv eq_refl).
      split; [lia|]. split; [done|]. split; [|split; [done|intros; lia]].
      rewrite Hcalls. destruct (decide (earlyStopRounds ≤ i)); [|lia].
      rewrite Nat.max_l by lia. replace (i + 1 - i) with 1 by lia. done.
    + destruct (IH _ _ _ Hrun) as (ran & Hran & Hfile' & Hcalls' & Hall & Hcv).
      exists (Datatypes.S ran). split; [lia|]. split; [|split; [|split]].
      * rewrite Hfile', Hfile, <- app_assoc. done.
      * rewrite Hcalls', Hcalls, <- app_assoc. f_equal. apply seq_from_max.
      * intros Hf. rewrite (Hall Hf). done.
      * intros Ht. destruct (Hcv Ht). lia.
Qed.

End Loop.

(** X12.  However the ranking and the reproduction are done, [genetic_tsp]
    runs at most [maxIt] generations and prints one line for each, with the
    [int] that line 44 made of [population * top], negative or not; it calls
    [stdDev] in every generation from number [earlyStopRounds] on and in no
    other; the flag it returns is 0 or 1; a flag 1 means that at least
    [earlyStopRounds] generations were run, and a flag 0 that all [maxIt]
    were, unless the elite fills the population. *)
Theorem engine_generations
    (rank_generation_detailed :
       list Z → list nat → list nat → list Z → nat → nat → Z → nat →
       list Z * list nat * list nat)
    (generate_detailed : list nat → nat → Z → nat → Z → nat → Rand (list nat))
    (mem : fresh_memory)
    (numThreads : nat) (cost_matrix : list Z) (numNodes population : nat)
    (top : float) (maxIt : nat) (mutatProb : float) (earlyStopRounds : nat)
    (earlyStopParam : float) (rng : list nat) (r : run) (rng' : list nat) :
  earlyStopRounds ≠ 0 →
  length (fresh_solution mem) = numNodes + 2 →
  genetic_tsp rank_generation_detailed generate_detailed mem numThreads
    cost_matrix numNodes population top maxIt mutatProb earlyStopRounds
    earlyStopParam rng = Ok (r, rng') →
  let best_num := int_of_double (double_of_nat population * top) in
  let generations := length (run_generationFile r) in
  let flag := run_solution r !!! (numNodes + 1) in
  generations ≤ maxIt ∧
  run_generationFile r = replicate generations (numNodes, population, best_num) ∧
  run_stdDev_calls r = seq earlyStopRounds (generations + 1 - earlyStopRounds) ∧
  length (run_solution r) = numNodes + 2 ∧
  (flag = 0%Z ∨ flag = 1%Z) ∧
  (flag = 1%Z → earlyStopRounds ≤ generations) ∧
  (flag = 0%Z → Z.of_nat population ≠ best_num → generations = maxIt).
Proof.
  intros HR Hsol. unfold genetic_tsp.
  set (best_num := int_of_double (double_of_nat population * top)).
  unfold bind at 1.
  destruct (init_population (fresh_generation mem) numNodes population rng)
    as [[g0 rng0]| |]; [|done..].
  destruct (rank_generation_detailed (fresh_generation_cost mem) g0
              (fresh_generation_copy mem) cost_matrix numNodes population
              best_num numThreads) as [[cost1 g1] copy1].
  destruct (decide (Z.of_nat population = best_num)) as [Heq|Hne].
  - unfold ret. intros [= <- <-]. cbv zeta. cbn [run_generationFile
      run_stdDev_calls run_solution length].
    destruct (write_solution_spec (<[numNodes + 1 := 0%Z]> (fresh_solution mem))
                g1 cost1 numNodes ltac:(rewrite length_insert; lia) _ eq_refl)
      as (Hl & _ & _ & Hflag).
    rewrite Hflag by lia. rewrite list_lookup_total_insert_eq by lia.
    rewrite Hl, length_insert.
    split; [lia|]. split; [done|]. split.
    { replace (0 + 1 - earlyStopRounds) with 0 by lia. done. }
    split; [done|]. split; [by left|]. split; [done|]. intros _ Hc. done.
  - unfold bind.
    destruct (generation_loop _ _ _ _ _ _ _ _ _ _ maxIt 1 _ rng0)
      as [[[st conv] rng1]| |] eqn:Hloop; [|done..].
    apply generation_loop_trace in Hloop
      as (ran & Hran & Hfile & Hcalls & Hall & Hcv).
    cbn [es_generationFile es_stdDev_calls] in Hfile, Hcalls.
    rewrite app_nil_l in Hfile, Hcalls.
    rewrite Nat.max_r in Hcalls by lia.
    unfold ret. intros [= <- <-]. cbv zeta. cbn [run_generationFile
      run_stdDev_calls run_solution].
    rewrite Hfile, length_replicate.
    set (sol := if conv then <[numNodes + 1 := 1%Z]>
                               (<[numNodes + 1 := 0%Z]> (fresh_solution mem))
                else <[numNodes + 1 := 0%Z]> (fresh_solution mem)).
    assert (Hlsol: length sol = numNodes + 2).
    { unfold sol. destruct conv; rewrite ?length_insert; done. }
    destruct (write_solution_spec sol (es_generation st) (es_generation_cost st)
                numNodes ltac:(lia) _ eq_refl) as (Hl & _ & _ & Hflag).
    rewrite Hflag by lia. rewrite Hl.
    assert (Hfl: sol !!! (numNodes + 1) = if conv then 1%Z else 0%Z).
    { unfold sol. destruct conv;
        rewrite list_lookup_total_insert_eq by (rewrite ?length_insert; lia);
        done. }
    rewrite Hfl.
    split; [done|]. split; [done|]. split.
    { rewrite Hcalls. f_equal. lia. }
    split; [done|]. split; [destruct conv; auto|]. split.
    + destruct conv; [|done]. intros _. destruct (Hcv eq_refl). lia.
    + destruct conv; [done|]. intros _ _. by apply Hall.
Qed.

Lemma engine_generations_witness :
  ∃ r rng',
    genetic_tsp rank_generation_detailed_model generate_detailed_model
      {| fresh_lastRounds := replicate 5 3%float;
         fresh_solution := replicate 6 7%Z;
         fresh_generation := replicate 24 9;
         fresh_generation_copy := replicate 24 8;
         fresh_generation_cost := replicate 6 5%Z |}
      1 [0; 10; 15; 20; 10; 0; 35; 25; 15; 35; 0; 30; 20; 25; 30; 0]%Z 4 6
      0.5%float 50 0.125%float 5 0%float (lcg_draws 2000 42) = Ok (r, rng') ∧
    let best_num := int_of_double (double_of_nat 6 * 0.5) in
    let generations := length (run_generationFile r) in
    let flag := run_solution r !!! (4 + 1) in
    generations ≤ 50 ∧
    run_generationFile r = replicate generations (4, 6, best_num) ∧
    run_stdDev_calls r = seq 5 (generations + 1 - 5) ∧
    length (run_solution r) = 4 + 2 ∧
    (flag = 0%Z ∨ flag = 1%Z) ∧
    (flag = 1%Z → 5 ≤ generations) ∧
    (flag = 0%Z → 6%Z ≠ best_num → generations = 50).
Proof.
  destruct scenario_run as [rng' Hrun].
  eexists _, rng'. split; [exact Hrun|].
  exact (engine_generations rank_generation_detailed_model
           generate_detailed_model
           {| fresh_lastRounds := replicate 5 3%float;
              fresh_solution := replicate 6 7%Z;
              fresh_generation := replicate 24 9;
              fresh_generation_copy := replicate 24 8;
              fresh_generation_cost := replicate 6 5%Z |}
           1 _ 4 6 0.5%float 50 0.125%float 5 0%float
           _ _ _ ltac:(lia) eq_refl Hrun).
Defined.

(** ** The initial population and the memory it is written to *)

(** Two runs of one loop on the same draws, step by step. *)
Lemma for_loopM_rel {S : Type} (R : nat → S → S → Prop) (count lo : nat)
    (body : nat → S → Rand S) (s1 s2 : S) (rng : list nat)
    (s1' s2' : S) (r1 r2 : list nat) :
  for_loopM count lo body s1 rng = Ok (s1', r1) →
  for_loopM count lo body s2 rng = Ok (s2', r2) →
  R lo s1 s2 →
  (∀ i a b r a' b' ra rb, lo ≤ i < lo + count → R i a b →
     body i a r = Ok (a', ra) → body i b r = Ok (b', rb) →
     ra = rb ∧ R (Datatypes.S i) a' b') →
  r1 = r2 ∧ R (lo + count) s1' s2'.
Proof.
  revert lo s1 s2 rng. induction count as [|c IH]; intros lo s1 s2 rng H1 H2 HR Hstep.
  - simpl in H1, H2. injection H1 as <- <-. injection H2 as <- <-.
    by rewrite Nat.add_0_r.
  - simpl in H1, H2. unfold bind in H1, H2.
    destruct (body lo s1 rng) as [[a ra]| |] eqn:Ha; try discriminate.
    destruct (body lo s2 rng) as [[b rb]| |] eqn:Hb; try discriminate.
    destruct (Hstep lo s1 s2 rng a b ra rb ltac:(lia) HR Ha Hb) as [<- HR'].
    replace (lo + Datatypes.S c) with (Datatypes.S lo + c) by lia.
    apply (IH _ _ _ _ H1 H2 HR').
    intros i a0 b0 r a' b' ra' rb' Hi. apply Hstep. lia.
Qed.

Lemma random_shuffle_agree (a b : list nat) (first last : nat) (rng : list nat)
    (a' b' ra rb : list nat) :
  length a = length b → last ≤ length a →
  (∀ idx, idx < last → a !!! idx = b !!! idx) →
  random_shuffle a first last rng = Ok (a', ra) →
  random_shuffle b first last rng = Ok (b', rb) →
  ra = rb ∧ length a' = length b' ∧ ∀ idx, idx < last → a' !!! idx = b' !!! idx.
Proof.
  intros Hlen Hfit Hagree Ha Hb. unfold random_shuffle in Ha, Hb.
  destruct (for_loopM_rel
              (λ _ x y, length x = length a ∧ length y = length a ∧
                        ∀ idx, idx < last → x !!! idx = y !!! idx)
              _ _ _ _ _ _ _ _ _ _ Ha Hb) as [Hr (Hla & Hlb & Hcells)].
  - split; [done|]. split; [lia|done].
  - intros d x y r x' y' rx ry Hd (Hlx & Hly & Hxy).
    unfold bind, myRand, rand_mod, ret. destruct r as [|v r]; [done|].
    destruct (decide (d + 1 = 0)); [lia|].
    pose proof (Nat.mod_upper_bound v (d + 1) ltac:(lia)) as Hv.
    destruct (decide (d = v mod (d + 1))) as [Heq|Hne];
      intros [= <- <-] [= <- <-]; [done|].
    split; [done|]. unfold swap_cells. arr. split; [done|]. split; [done|].
    intros idx Hidx.
    rewrite !(Hxy (first + d)), !(Hxy (first + v mod (d + 1))) by lia.
    destruct (decide (idx = first + v mod (d + 1))) as [->|H1]; [by arr|].
    destruct (decide (idx = first + d)) as [->|H2]; [by arr|].
    arr. by apply Hxy.
  - split; [done|]. split; [lia|done].
Qed.

Lemma random_shuffle_frame (a : list nat) (first last : nat) (rng : list nat)
    (a' ra : list nat) :
  random_shuffle a first last rng = Ok (a', ra) →
  length a' = length a ∧
  ∀ idx, ¬ (first ≤ idx < last) → a' !!! idx = a !!! idx.
Proof.
  unfold random_shuffle. intros Hrun.
  apply (for_loopM_inv
           (λ _ x, length x = length a ∧
                   ∀ idx, ¬ (first ≤ idx < last) → x !!! idx = a !!! idx))
    in Hrun; [done|done|].
  intros d x r x' r' Hd [Hl Hout]. unfold bind, myRand, rand_mod, ret.
  destruct r as [|v r]; [done|]. destruct (decide (d + 1 = 0)); [lia|].
  pose proof (Nat.mod_upper_bound v (d + 1) ltac:(lia)) as Hv.
  destruct (decide (d = v mod (d + 1))); intros [= <- <-]; [done|].
  unfold swap_cells. arr. split; [done|]. intros idx Hidx. arr. by apply Hout.
Qed.

Lemma identity_row_cells (g : list nat) (numNodes i : nat) :
  (i + 1) * numNodes ≤ length g →
  ∀ g', g' = for_loop numNodes 0 (λ j g, <[i * numNodes + j := j]> g) g →
  length g' = length g ∧
  (∀ idx, ¬ (i * numNodes ≤ idx < (i + 1) * numNodes) → g' !!! idx = g !!! idx) ∧
  (∀ k, k < numNodes → g' !!! (i * numNodes + k) = k).
Proof.
  intros Hfit g' ->.
  pose (P := λ (j : nat) (g1 : list nat),
    length g1 = length g ∧
    (∀ idx, ¬ (i * numNodes ≤ idx < i * numNodes + j) → g1 !!! idx = g !!! idx) ∧
    (∀ k, k < j → g1 !!! (i * numNodes + k) = k)).
  assert (HP: P (0 + numNodes)
                (for_loop numNodes 0 (λ j g, <[i * numNodes + j := j]> g) g)).
  { apply for_loop_inv.
    - unfold P. split; [done|]. split; [done|]. intros; lia.
    - intros j g1 Hj (Hl & Hout & Hin). unfold P. arr.
      split; [done|]. split.
      + intros idx Hidx. arr. apply Hout. lia.
      + intros k Hk. destruct (decide (k = j)) as [->|Hne]; arr; [done|].
        apply Hin. lia. }
  destruct HP as (Hl & Hout & Hin). split; [done|]. split; [|done].
  intros idx Hidx. apply Hout. lia.
Qed.

(** X13.  The initialisation overwrites every cell of the first
    [population] rows before reading it: run on two buffers of the same
    length, whatever they hold, it takes the same draws,
    [population * (numNodes - 1)] of them, and leaves the same first
    [population] rows; it does not fail when that many draws are there, and
    it leaves the cells behind these rows alone. *)
Theorem init_population_overwrites (g1 g2 : list nat)
    (numNodes population : nat) (rng : list nat) :
  length g1 = length g2 → population * numNodes ≤ length g1 →
  population * (numNodes - 1) ≤ length rng →
  ∃ g1' g2',
    init_population g1 numNodes population rng
    = Ok (g1', drop (population * (numNodes - 1)) rng) ∧
    init_population g2 numNodes population rng
    = Ok (g2', drop (population * (numNodes - 1)) rng) ∧
    length g1' = length g1 ∧
    (∀ idx, idx < population * numNodes → g1' !!! idx = g2' !!! idx) ∧
    (∀ idx, population * numNodes ≤ idx → g1' !!! idx = g1 !!! idx).
Proof.
  intros Hlen Hfit Hrng.
  destruct (init_population_returns g1 numNodes population rng Hrng) as [g1' H1].
  destruct (init_population_returns g2 numNodes population rng Hrng) as [g2' H2].
  exists g1', g2'. split; [done|]. split; [done|].
  assert (Hframe: length g1' = length g1 ∧
                  ∀ idx, population * numNodes ≤ idx → g1' !!! idx = g1 !!! idx).
  { unfold init_population in H1.
    apply (for_loopM_inv
             (λ i x, length x = length g1 ∧
                     ∀ idx, population * numNodes ≤ idx → x !!! idx = g1 !!! idx))
      in H1; [done|done|].
    intros i x r x' r' Hi [Hl Hout] Hstep. cbv beta zeta in Hstep.
    assert (Hrow: (i + 1) * numNodes ≤ population * numNodes)
      by (apply Nat.mul_le_mono_r; lia).
    destruct (identity_row_cells x numNodes i ltac:(lia) _ eq_refl)
      as (Hl1 & Hout1 & _).
    apply random_shuffle_frame in Hstep as [Hl2 Hout2].
    split; [lia|]. intros idx Hidx.
    rewrite Hout2, Hout1 by lia. by apply Hout. }
  destruct Hframe as [Hl1' Hbeyond]. split; [done|]. split; [|done].
  unfold init_population in H1, H2.
  destruct (for_loopM_rel
              (λ i x y, length x = length g1 ∧ length y = length g1 ∧
                        ∀ idx, idx < i * numNodes → x !!! idx = y !!! idx)
              _ _ _ _ _ _ _ _ _ _ H1 H2) as [_ (_ & _ & Hcells)].
  - split; [done|]. split; [lia|]. intros; lia.
  - intros i x y r x' y' rx ry Hi (Hlx & Hly & Hxy) Hx Hy.
    cbv beta zeta in Hx, Hy.
    assert (Hrow: (i + 1) * numNodes ≤ population * numNodes)
      by (apply Nat.mul_le_mono_r; lia).
    remember (for_loop numNodes 0 (λ j g, <[i * numNodes + j := j]> g) x)
      as xa eqn:Hxa.
    remember (for_loop numNodes 0 (λ j g, <[i * numNodes + j := j]> g) y)
      as ya eqn:Hya.
    destruct (identity_row_cells x numNodes i ltac:(lia) xa Hxa)
      as (Hlx1 & Houtx & Hinx).
    destruct (identity_row_cells y numNodes i ltac:(lia) ya Hya)
      as (Hly1 & Houty & Hiny).
    assert (Hag: ∀ idx, idx < (i + 1) * numNodes → xa !!! idx = ya !!! idx).
    { intros idx Hidx.
      destruct (decide (idx < i * numNodes)) as [Hlo|Hhi].
      - rewrite Houtx, Houty by lia. by apply Hxy.
      - replace idx with (i * numNodes + (idx - i * numNodes)) by lia.
        rewrite Hinx, Hiny by lia. done. }
    destruct (random_shuffle_agree xa ya (i * numNodes) ((i + 1) * numNodes)
                _ _ _ _ _ ltac:(lia) ltac:(lia) Hag Hx Hy) as (Hr & Hl' & Hc').
    split; [done|].
    apply random_shuffle_frame in Hx as [Hx1 _].
    apply random_shuffle_frame in Hy as [Hy1 _].
    split; [lia|]. split; [lia|].
    intros idx Hidx. apply Hc'. lia.
  - intros idx Hidx. apply Hcells. lia.
Qed.

Lemma init_population_overwrites_witness :
  ∃ g1' g2',
    init_population [9; 9; 9; 9; 9; 9; 9] 3 2 [5; 1; 7; 5; 0]
    = Ok (g1', drop (2 * (3 - 1)) [5; 1; 7; 5; 0]) ∧
    init_population [0; 1; 2; 3; 4; 5; 6] 3 2 [5; 1; 7; 5; 0]
    = Ok (g2', drop (2 * (3 - 1)) [5; 1; 7; 5; 0]) ∧
    length g1' = length [9; 9; 9; 9; 9; 9; 9] ∧
    (∀ idx, idx < 2 * 3 → g1' !!! idx = g2' !!! idx) ∧
    (∀ idx, 2 * 3 ≤ idx → g1' !!! idx = [9; 9; 9; 9; 9; 9; 9] !!! idx).
Proof.
  exact (init_population_overwrites [9; 9; 9; 9; 9; 9; 9] [0; 1; 2; 3; 4; 5; 6]
           3 2 [5; 1; 7; 5; 0] eq_refl ltac:(simpl; lia) ltac:(simpl; lia)).
Defined.

(** ** The tests of main on doubles *)

Section Validation.

Local Open Scope Z_scope.

Lemma SFcompare_antisym (x y : spec_float) :
  SFcompare y x
  = match SFcompare x y with Some c => Some (CompOpp c) | None => None end.
Proof.
  destruct x as [sx|sx| |sx mx ex], y as [sy|sy| |sy my ey]; simpl;
    try reflexivity;
    try (destruct sx; reflexivity); try (destruct sy; reflexivity);
    try (destruct sx, sy; reflexivity).
  destruct sx, sy; try reflexivity.
  - rewrite (Z.compare_antisym ex ey). destruct (ex ?= ey); simpl; try reflexivity.
    by rewrite (Pos.compare_cont_antisym mx my Eq).
  - rewrite (Z.compare_antisym ex ey). destruct (ex ?= ey); simpl; try reflexivity.
    by rewrite (Pos.compare_cont_antisym mx my Eq).
Qed.

Lemma SFcompare_refl (x : spec_float) :
  x ≠ S754_nan → SFcompare x x = Some Eq.
Proof.
  destruct x as [s|s| |s m e]; simpl; intros Hx; try done.
  - by destruct s.
  - rewrite Z.compare_refl, Pos.compare_cont_refl. by destruct s.
Qed.

Lemma SFcompare_nan_iff (x y : spec_float) :
  SFcompare x y = None ↔ x = S754_nan ∨ y = S754_nan.
Proof.
  destruct x as [sx|sx| |sx mx ex], y as [sy|sy| |sy my ey]; simpl;
    split; intros H; try done; try (by left); try (by right);
    try (destruct H; done).
Qed.

Lemma is_nan_spec (x : float) : is_nan x = true ↔ Prim2SF x = S754_nan.
Proof.
  unfold is_nan. rewrite FloatAxioms.eqb_spec. unfold SFeqb. split.
  - intros H. destruct (Prim2SF x) as [s|s| |s m e] eqn:Hx; [| |done|];
      rewrite SFcompare_refl in H by done; done.
  - intros ->. done.
Qed.

(** A comparison with a double that is not a number is false; between
    numbers, [y <= x] is the negation of [x < y]. *)
Lemma leb_ltb (x y : float) :
  Prim2SF x ≠ S754_nan → Prim2SF y ≠ S754_nan →
  (y <=? x)%float = negb (x <? y)%float.
Proof.
  intros Hx Hy. rewrite leb_spec, ltb_spec. unfold SFleb, SFltb.
  rewrite (SFcompare_antisym (Prim2SF x) (Prim2SF y)).
  destruct (SFcompare (Prim2SF x) (Prim2SF y)) as [[| |]|] eqn:Hc; try done.
  apply SFcompare_nan_iff in Hc as [|]; done.
Qed.

Lemma ltb_nan (x y : float) :
  Prim2SF x = S754_nan → (x <? y)%float = false ∧ (y <? x)%float = false.
Proof.
  intros Hx. rewrite !ltb_spec, Hx. unfold SFltb. simpl.
  by destruct (Prim2SF y).
Qed.

Lemma range_test_spec (x : float) :
  (x <? 0)%float = false ∧ (1 <? x)%float = false ↔
  in_unit_interval x = true ∨ is_nan x = true.
Proof.
  rewrite is_nan_spec. unfold in_unit_interval.
  assert (Hdec: Prim2SF x = S754_nan ∨ Prim2SF x ≠ S754_nan)
    by (destruct (Prim2SF x); auto).
  destruct Hdec as [Hn|Hn].
  - destruct (ltb_nan x 0 Hn) as [-> _]. destruct (ltb_nan x 1 Hn) as [_ ->].
    split; [by right|done].
  - rewrite (leb_ltb x 0 Hn ltac:(done)), (leb_ltb 1 x ltac:(done) Hn).
    destruct (x <? 0)%float, (1 <? x)%float; simpl;
      (split; [intros [? ?]; try done; by left|intros [?|?]; done]).
Qed.

(** X14.  The test of [main] accepts a configuration exactly when there are
    at least nine arguments, the integers are within their bounds, each of
    the two fractions is a double in [0, 1] or is not a number (every
    comparison with such a value is false, so it passes both range tests),
    and the threshold converted to [int] is not negative. *)
Theorem main_validation_exact (argc : Z) (a : parsed_args) :
  (∃ c, main argc a = Invokes c) ↔
  10 ≤ argc ∧
  1 ≤ arg_numThreads a ∧
  2 ≤ arg_numNodes a ∧
  Z.of_nat AVGELEMS ≤ arg_population a ∧
  0 < arg_earlyStopRounds a ≤ arg_maxIt a ∧
  (in_unit_interval (arg_top a) = true ∨ is_nan (arg_top a) = true) ∧
  (in_unit_interval (arg_mutatProb a) = true ∨ is_nan (arg_mutatProb a) = true) ∧
  0 ≤ int_of_double (arg_earlyStopParam a).
Proof.
  rewrite main_invokes_iff, <- !range_test_spec.
  split; intros H; repeat split; try tauto; lia.
Qed.

Lemma main_validation_exact_witness :
  ∃ c, main 10 {| arg_numThreads := 1;
                  arg_numNodes := 4;
                  arg_population := 6;
                  arg_top := nan;
                  arg_maxIt := 50;
                  arg_mutatProb := 0.125;
                  arg_earlyStopRounds := 5;
                  arg_earlyStopParam := 0 |} = Invokes c.
Proof.
  apply (proj2 (main_validation_exact 10 _)).
  cbn [arg_numThreads arg_numNodes arg_population arg_top arg_maxIt
       arg_mutatProb arg_earlyStopRounds arg_earlyStopParam].
  split; [lia|]. split; [lia|]. split; [lia|].
  split; [unfold AVGELEMS; lia|]. split; [lia|].
  split; [by right|]. split; [by left|]. by vm_compute.
Defined.

(** A double of magnitude below 1 is converted to the [int] 0. *)
Lemma int_of_double_below_one (x : float) :
  (abs x <? 1)%float = true → int_of_double x = 0.
Proof.
  rewrite ltb_spec, abs_spec. unfold int_of_double.
  pose proof (Prim2SF_valid x) as Hv.
  change (Prim2SF 1) with (S754_finite false 4503599627370496 (- 52)).
  destruct (Prim2SF x) as [s|s| |s m e]; simpl SFabs; intros Hlt; try done.
  apply SFltb_finite_positive in Hlt.
  destruct (finite_valid _ _ _ Hv) as (Hm & He & _).
  destruct (Z.leb_spec 0 e) as [|_]; [lia|].
  assert (Hsmall: Z.pos m < 2 ^ (- e)).
  { destruct Hlt as [Hlt|[-> Hlt]].
    - assert (2 ^ 53 ≤ 2 ^ (- e)) by (apply Z.pow_le_mono_r; lia). lia.
    - change (2 ^ (- - 52)) with 4503599627370496. lia. }
  rewrite Z.quot_small by lia. by destruct s.
Qed.

(** X15.  [main] keeps the threshold in an [int]: for every threshold of
    magnitude below 1, negative ones included, the program does exactly what
    it does for the threshold 0, and the engine, when it is called, gets the
    threshold 0. *)
Theorem main_drops_threshold_fraction (argc : Z) (a : parsed_args) :
  (abs (arg_earlyStopParam a) <? 1)%float = true →
  main argc a
  = main argc {| arg_numThreads := arg_numThreads a;
                 arg_numNodes := arg_numNodes a;
                 arg_population := arg_population a;
                 arg_top := arg_top a;
                 arg_maxIt := arg_maxIt a;
                 arg_mutatProb := arg_mutatProb a;
                 arg_earlyStopRounds := arg_earlyStopRounds a;
                 arg_earlyStopParam := 0 |} ∧
  ∀ c, main argc a = Invokes c → call_earlyStopParam c = 0%float.
Proof.
  intros Hsmall. apply int_of_double_below_one in Hsmall.
  unfold main. cbn [arg_numThreads arg_numNodes arg_population arg_top arg_maxIt
                    arg_mutatProb arg_earlyStopRounds arg_earlyStopParam].
  rewrite Hsmall. change (int_of_double 0) with 0.
  split; [done|]. intros c.
  destruct (argc <? 10); [done|].
  destruct (invalid_arguments _ _ _ _ _ _ _ _); [done|].
  intros [= <-]. done.
Qed.

Lemma main_drops_threshold_fraction_witness :
  main 10 {| arg_numThreads := 1;
             arg_numNodes := 4;
             arg_population := 6;
             arg_top := 0.5;
             arg_maxIt := 50;
             arg_mutatProb := 0.125;
             arg_earlyStopRounds := 5;
             arg_earlyStopParam := 0.75 |}
  = main 10 {| arg_numThreads := 1;
               arg_numNodes := 4;
               arg_population := 6;
               arg_top := 0.5;
               arg_maxIt := 50;
               arg_mutatProb := 0.125;
               arg_earlyStopRounds := 5;
               arg_earlyStopParam := 0 |} ∧
  ∀ c, main 10 {| arg_numThreads := 1;
                  arg_numNodes := 4;
                  arg_population := 6;
                  arg_top := 0.5;
                  arg_maxIt := 50;
                  arg_mutatProb := 0.125;
                  arg_earlyStopRounds := 5;
                  arg_earlyStopParam := 0.75 |} = Invokes c →
       call_earlyStopParam c = 0%float.
Proof.
  exact (main_drops_threshold_fraction 10
           {| arg_numThreads := 1;
              arg_numNodes := 4;
              arg_population := 6;
              arg_top := 0.5;
              arg_maxIt := 50;
              arg_mutatProb := 0.125;
              arg_earlyStopRounds := 5;
              arg_earlyStopParam := 0.75 |} eq_refl).
Defined.

End Validation.

(** ** The window of one entry *)

Section Window.

Local Open Scope Z_scope.

Lemma canonical_exponent (s : bool) (m : positive) (e : Z) :
  valid_binary (S754_finite s m e) = true →
  fexp prec emax (Z.pos (digits2_pos m) + e) = e ∧ e ≤ 971.
Proof.
  unfold SpecFloat.valid_binary, bounded, canonical_mantissa.
  intros [Hc He]%andb_prop.
  apply Z.eqb_eq in Hc. apply Z.leb_le in He. change (emax - prec) with 971 in He.
  done.
Qed.

Lemma Z_div_eucl_mul (a b : Z) :
  0 < b → Z.div_eucl (a * b) b = (a, 0).
Proof.
  intros Hb.
  pose proof (Z.div_mul a b ltac:(lia)) as Hq.
  pose proof (Z.mod_mul a b ltac:(lia)) as Hr.
  unfold Z.div, Z.modulo in Hq, Hr.
  destruct (Z.div_eucl (a * b) b) as [q r]. by subst.
Qed.

(** A double that needs no rounding is left as it is. *)
Lemma binary_round_aux_exact (s : bool) (m : positive) (e : Z) :
  valid_binary (S754_finite s m e) = true →
  binary_round_aux prec emax s (Z.pos m) e loc_Exact = S754_finite s m e.
Proof.
  intros [Hc He]%canonical_exponent.
  unfold binary_round_aux, shr_fexp.
  change (Zdigits2 (Z.pos m)) with (Z.pos (digits2_pos m)).
  rewrite Hc, Z.sub_diag. cbn [shr shr_record_of_loc shr_m loc_of_shr_record
                               round_nearest_even].
  change (Zdigits2 (Z.pos m)) with (Z.pos (digits2_pos m)).
  rewrite Hc, Z.sub_diag. cbn [shr shr_record_of_loc shr_m].
  change (emax - prec) with 971.
  destruct (Z.leb_spec e 971); [done|lia].
Qed.

(** Twice the mantissa with the exponent one lower: one exact shift. *)
Lemma binary_round_aux_exact_double (s : bool) (m : positive) (e : Z) :
  valid_binary (S754_finite s m e) = true →
  binary_round_aux prec emax s (Z.pos m~0) (e - 1) loc_Exact = S754_finite s m e.
Proof.
  intros [Hc He]%canonical_exponent.
  unfold binary_round_aux, shr_fexp.
  change (Zdigits2 (Z.pos m~0)) with (Z.pos (Pos.succ (digits2_pos m))).
  rewrite Pos2Z.inj_succ.
  replace (Z.succ (Z.pos (digits2_pos m)) + (e - 1))
    with (Z.pos (digits2_pos m) + e) by lia.
  rewrite Hc. replace (e - (e - 1)) with 1 by lia.
  cbn [shr shr_record_of_loc SpecFloat.iter_pos shr_1 orb shr_m shr_r shr_s
       loc_of_shr_record round_nearest_even].
  replace (e - 1 + 1) with e by lia.
  change (Zdigits2 (Z.pos m)) with (Z.pos (digits2_pos m)).
  rewrite Hc, Z.sub_diag. cbn [shr shr_record_of_loc shr_m].
  change (emax - prec) with 971.
  destruct (Z.leb_spec e 971); [done|lia].
Qed.

(** Dividing a double by 1 gives the double back. *)
Lemma SFdiv_one (s : bool) (m : positive) (e : Z) :
  valid_binary (S754_finite s m e) = true →
  SF64div (S754_finite s m e) (S754_finite false 4503599627370496 (- 52))
  = S754_finite s m e.
Proof.
  intros Hv. destruct (canonical_exponent _ _ _ Hv) as [Hc He].
  pose proof (digits2_pos_bounds m) as [Hd1 Hd2].
  unfold SF64div, SFdiv, SFdiv_core_binary.
  change (Zdigits2 (Z.pos 4503599627370496)) with 53.
  change (Zdigits2 (Z.pos m)) with (Z.pos (digits2_pos m)).
  rewrite fexp_64 in Hc |- *.
  set (d := Z.pos (digits2_pos m)) in *.
  rewrite xorb_false_r.
  destruct (Z_lt_le_dec (- 1074) (d + e - 53)) as [Hnorm|Hsub].
  - replace (Z.min (Z.max (d + e - (53 + - 52) - 53) (- 1074)) (e - - 52))
      with (e - 1) by lia.
    replace (e - - 52 - (e - 1)) with 53 by lia.
    rewrite Z.shiftl_mul_pow2 by lia.
    replace (Z.pos m * 2 ^ 53) with (Z.pos m~0 * 4503599627370496)
      by (rewrite (Pos2Z.inj_xO m); change (2 ^ 53) with (2 * 4503599627370496); lia).
    rewrite Z_div_eucl_mul by lia.
    change (new_location 4503599627370496 0) with loc_Exact.
    by apply binary_round_aux_exact_double.
  - replace (Z.min (Z.max (d + e - (53 + - 52) - 53) (- 1074)) (e - - 52))
      with e by lia.
    replace (e - - 52 - e) with 52 by lia.
    rewrite Z.shiftl_mul_pow2 by lia.
    change (2 ^ 52) with 4503599627370496.
    rewrite Z_div_eucl_mul by lia.
    change (new_location 4503599627370496 0) with loc_Exact.
    by apply binary_round_aux_exact.
Qed.

(** A double minus itself is zero. *)
Lemma SFsub_diag (s : bool) (m : positive) (e : Z) :
  SF64sub (S754_finite s m e) (S754_finite s m e) = S754_zero false.
Proof.
  unfold SF64sub, SFsub. cbv zeta. by rewrite Z.sub_diag.
Qed.

(** The doubles that are numbers: zeros and finite values. *)
Lemma finite_double_cases (x : float) :
  (abs x <? infinity)%float = true →
  (∃ s, Prim2SF x = S754_zero s) ∨
  (∃ s m e, Prim2SF x = S754_finite s m e ∧
            valid_binary (S754_finite s m e) = true).
Proof.
  rewrite ltb_spec, abs_spec. pose proof (Prim2SF_valid x) as Hv.
  change (Prim2SF infinity) with (S754_infinity false).
  destruct (Prim2SF x) as [s|s| |s m e]; simpl; intros H; try done.
  - left. eauto.
  - right. eauto.
Qed.

Lemma stdDev_one_entry (x : float) :
  (abs x <? infinity)%float = true → stdDev [x] 1 = 0%float.
Proof.
  intros Hx. apply Prim2SF_inj. unfold stdDev. cbv zeta. cbn [for_loop].
  change ([x] !!! 0%nat) with x. change (double_of_nat 1) with 1%float.
  rewrite sqrt_spec, div_spec, add_spec, mul_spec, sub_spec, div_spec, add_spec.
  change (Prim2SF 0) with (S754_zero false).
  change (Prim2SF 1) with (S754_finite false 4503599627370496 (- 52)).
  destruct (finite_double_cases x Hx) as [[s ->]|(s & m & e & -> & Hv)].
  - by destruct s.
  - change (SF64add (S754_zero false) (S754_finite s m e))
      with (S754_finite s m e).
    rewrite SFdiv_one by done. rewrite SFsub_diag. done.
Qed.

End Window.

(** X16.  With a window of one entry the standard deviation is 0 whatever
    the entry, so long as it is a number: from the first generation on the
    controller signals convergence for every threshold that is not negative,
    and never for a negative one. *)
Theorem single_entry_window_converges (generation_cost : list Z)
    (lastRounds : list float) (i : nat) (earlyStopParam : float) :
  1 ≤ i → AVGELEMS ≤ length generation_cost → length lastRounds = 1 →
  (abs (mean_of_best generation_cost) <? infinity)%float = true →
  stdDev [mean_of_best generation_cost] 1 = 0%float ∧
  early_stop generation_cost lastRounds i 1 earlyStopParam
  = Ok ([mean_of_best generation_cost], Some 0%float,
        (0 <=? earlyStopParam)%float).
Proof.
  intros Hi Hcost Hlen Hfin.
  pose proof (stdDev_one_entry _ Hfin) as Hsd. split; [done|].
  unfold early_stop.
  rewrite (for_loop_fold (λ avg c, avg + double_of_int c)%float generation_cost)
    by done.
  rewrite <- (fold_left_map PrimFloat.add double_of_int).
  fold (float_sum (map double_of_int (take AVGELEMS generation_cost))).
  fold (mean_of_best generation_cost).
  destruct (decide (1 = 0)%nat) as [|_]; [done|].
  rewrite Nat.mod_1_r.
  destruct lastRounds as [|w [|w' rest]]; [done| |done].
  cbn [insert list_insert].
  destruct (decide (1 ≤ i)) as [_|]; [|lia].
  by rewrite Hsd.
Qed.

Lemma single_entry_window_converges_witness :
  stdDev [mean_of_best [10; 12; 13; 15; 20; 31]%Z] 1 = 0%float ∧
  early_stop [10; 12; 13; 15; 20; 31]%Z [7%float] 1 1 0.5%float
  = Ok ([mean_of_best [10; 12; 13; 15; 20; 31]%Z], Some 0%float,
        (0 <=? 0.5)%float).
Proof.
  exact (single_entry_window_converges [10; 12; 13; 15; 20; 31]%Z [7%float] 1
           0.5%float ltac:(lia) ltac:(unfold AVGELEMS; simpl; lia) eq_refl
           eq_refl).
Defined.

(** ** The engine and the memory it is given *)

Lemma early_stop_windows (generation_cost : list Z) (w1 w2 : list float)
    (i earlyStopRounds : nat) (earlyStopParam : float) :
  1 ≤ i → windows_agree earlyStopRounds i w1 w2 →
  match early_stop generation_cost w1 i earlyStopRounds earlyStopParam,
        early_stop generation_cost w2 i earlyStopRounds earlyStopParam with
  | Ok (w1', sd1, c1), Ok (w2', sd2, c2) =>
      sd1 = sd2 ∧ c1 = c2 ∧ windows_agree earlyStopRounds (Datatypes.S i) w1' w2'
  | DivByZero, DivByZero => True
  | NoMoreDraws, NoMoreDraws => True
  | _, _ => False
  end.
Proof.
  intros Hi (Hl1 & Hl2 & Hag). unfold early_stop.
  destruct (decide (earlyStopRounds = 0)) as [|HR]; [done|].
  set (avg := (for_loop AVGELEMS 0
                 (λ j avg, avg + double_of_int (generation_cost !!! j)) 0
               / double_of_nat AVGELEMS)%float).
  pose proof (Nat.mod_upper_bound (i - 1) earlyStopRounds HR) as Hslot.
  assert (Hag': windows_agree earlyStopRounds (Datatypes.S i)
                  (<[(i - 1) mod earlyStopRounds := avg]> w1)
                  (<[(i - 1) mod earlyStopRounds := avg]> w2)).
  { split; [by rewrite length_insert|]. split; [by rewrite length_insert|].
    intros s Hs HsR.
    destruct (decide (s = (i - 1) mod earlyStopRounds)) as [->|Hne].
    - rewrite !list_lookup_total_insert_eq by lia. done.
    - rewrite !list_lookup_total_insert_ne by done. apply Hag; [|done].
      destruct (decide (s = i - 1)) as [->|]; [|lia].
      rewrite Nat.mod_small in Hne by done. done. }
  destruct (decide (earlyStopRounds ≤ i)) as [Hfull|Hpart]; [|done].
  assert (Heq: <[(i - 1) mod earlyStopRounds := avg]> w1
               = <[(i - 1) mod earlyStopRounds := avg]> w2).
  { destruct Hag' as (Hla & Hlb & Hc). apply list_eq_total; [lia|].
    intros s Hs. apply Hc; lia. }
  split; [by rewrite Heq|]. split; [by rewrite Heq|]. done.
Qed.

Section Memory.

Variable rank_generation_detailed :
  list Z → list nat → list nat → list Z → nat → nat → Z → nat →
  list Z * list nat * list nat.
Variable generate_detailed :
  list nat → nat → Z → nat → Z → nat → Rand (list nat).
Variables (numThreads : nat) (cost_matrix : list Z) (numNodes population : nat).
Variables (best_num probCentile : Z).
Variables (earlyStopRounds : nat) (earlyStopParam : float).

Lemma generation_loop_windows (count i : nat) (st1 st2 : engine_state)
    (rng : list nat) :
  1 ≤ i → states_agree earlyStopRounds i st1 st2 →
  loops_agree earlyStopRounds
    (generation_loop rank_generation_detailed generate_detailed numThreads
       cost_matrix numNodes population best_num probCentile earlyStopRounds
       earlyStopParam count i st1 rng)
    (generation_loop rank_generation_detailed generate_detailed numThreads
       cost_matrix numNodes population best_num probCentile earlyStopRounds
       earlyStopParam count i st2 rng).
Proof.
  revert i st1 st2 rng. induction count as [|c IH]; intros i st1 st2 rng Hi Hst.
  - simpl. unfold ret, loops_agree. split; [done|]. split; [done|]. eauto.
  - cbn [generation_loop]. unfold bind at 1 2. unfold generation_body, bind.
    destruct Hst as (Hg & Hgc & Hc & Hf & Hs & Hw).
    rewrite <- Hg, <- Hgc, <- Hc, <- Hf, <- Hs.
    destruct (generate_detailed _ _ _ _ _ _ rng) as [[g1 r1]| |]; [|done..].
    destruct (rank_generation_detailed _ _ _ _ _ _ _ _) as [[c1 g2] gc2].
    pose proof (early_stop_windows c1 _ _ i earlyStopRounds earlyStopParam
                  Hi Hw) as Hes.
    destruct (early_stop c1 (es_lastRounds st1) i earlyStopRounds earlyStopParam)
      as [[[w1 sd1] cv1]| |];
      destruct (early_stop c1 (es_lastRounds st2) i earlyStopRounds
                  earlyStopParam) as [[[w2 sd2] cv2]| |]; try done.
    destruct Hes as (<- & <- & Hw').
    destruct cv1.
    + unfold ret, loops_agree. split; [done|]. split; [done|].
      exists (Datatypes.S i). unfold states_agree. by cbn.
    + apply IH; [lia|]. unfold states_agree. by cbn.
Qed.

End Memory.

Lemma write_solution_overwrites (s1 s2 : list Z) (generation : list nat)
    (generation_cost : list Z) (numNodes : nat) :
  length s1 = numNodes + 2 → length s2 = numNodes + 2 →
  s1 !!! (numNodes + 1) = s2 !!! (numNodes + 1) →
  write_solution s1 generation generation_cost numNodes
  = write_solution s2 generation generation_cost numNodes.
Proof.
  intros Hl1 Hl2 Hflag.
  destruct (write_solution_spec s1 generation generation_cost numNodes
              ltac:(lia) _ eq_refl) as (Ha & Hrow1 & Hc1 & Hrest1).
  destruct (write_solution_spec s2 generation generation_cost numNodes
              ltac:(lia) _ eq_refl) as (Hb & Hrow2 & Hc2 & Hrest2).
  apply list_eq_total; [lia|]. intros k Hk.
  destruct (decide (k < numNodes)) as [Hlo|Hhi].
  - by rewrite Hrow1, Hrow2.
  - destruct (decide (k = numNodes)) as [->|Hne]; [by rewrite Hc1, Hc2|].
    rewrite Hrest1, Hrest2 by lia.
    replace k with (numNodes + 1) by lia. done.
Qed.

(** X17.  The engine never reads a cell of the window [lastRounds] or of
    the array [solution] before writing it: [stdDev] is first called when all
    [earlyStopRounds] slots of the window have been written, and all
    [numNodes + 2] cells of [solution] are written before it is returned.
    So the run is the same whatever these two fresh buffers hold. *)
Theorem engine_ignores_fresh_window
    (rank_generation_detailed :
       list Z → list nat → list nat → list Z → nat → nat → Z → nat →
       list Z * list nat * list nat)
    (generate_detailed : list nat → nat → Z → nat → Z → nat → Rand (list nat))
    (mem : fresh_memory) (lastRounds2 : list float) (solution2 : list Z)
    (numThreads : nat) (cost_matrix : list Z) (numNodes population : nat)
    (top : float) (maxIt : nat) (mutatProb : float) (earlyStopRounds : nat)
    (earlyStopParam : float) (rng : list nat) :
  length (fresh_lastRounds mem) = earlyStopRounds →
  length lastRounds2 = earlyStopRounds →
  length (fresh_solution mem) = numNodes + 2 →
  length solution2 = numNodes + 2 →
  genetic_tsp rank_generation_detailed generate_detailed mem numThreads
    cost_matrix numNodes population top maxIt mutatProb earlyStopRounds
    earlyStopParam rng
  = genetic_tsp rank_generation_detailed generate_detailed
      {| fresh_lastRounds := lastRounds2;
         fresh_solution := solution2;
         fresh_generation := fresh_generation mem;
         fresh_generation_copy := fresh_generation_copy mem;
         fresh_generation_cost := fresh_generation_cost mem |}
      numThreads cost_matrix numNodes population top maxIt mutatProb
      earlyStopRounds earlyStopParam rng.
Proof.
  intros Hw1 Hw2 Hs1 Hs2. unfold genetic_tsp.
  cbn [fresh_lastRounds fresh_solution fresh_generation fresh_generation_copy
       fresh_generation_cost].
  set (best_num := int_of_double (double_of_nat population * top)).
  unfold bind at 1 3.
  destruct (init_population (fresh_generation mem) numNodes population rng)
    as [[g0 rng0]| |]; [|done..].
  destruct (rank_generation_detailed (fresh_generation_cost mem) g0
              (fresh_generation_copy mem) cost_matrix numNodes population
              best_num numThreads) as [[cost1 g1] copy1].
  assert (Hflag0: ∀ g c,
            write_solution (<[numNodes + 1 := 0%Z]> (fresh_solution mem)) g c
              numNodes
            = write_solution (<[numNodes + 1 := 0%Z]> solution2) g c numNodes).
  { intros g c.
    apply write_solution_overwrites; rewrite ?length_insert; try done.
    by rewrite !list_lookup_total_insert_eq by lia. }
  destruct (decide (Z.of_nat population = best_num)) as [Heq|Hne].
  - unfold ret. by rewrite Hflag0.
  - unfold bind.
    pose proof (generation_loop_windows rank_generation_detailed
                  generate_detailed numThreads cost_matrix numNodes population
                  best_num (int_of_double (mutatProb * 100)) earlyStopRounds
                  earlyStopParam maxIt 1
                  {| es_generation := g1; es_generation_copy := copy1;
                     es_generation_cost := cost1;
                     es_lastRounds := fresh_lastRounds mem;
                     es_generationFile := []; es_stdDev_calls := [] |}
                  {| es_generation := g1; es_generation_copy := copy1;
                     es_generation_cost := cost1;
                     es_lastRounds := lastRounds2;
                     es_generationFile := []; es_stdDev_calls := [] |}
                  rng0 ltac:(lia)) as Hloop.
    destruct (generation_loop _ _ _ _ _ _ _ _ _ _ maxIt 1
                {| es_lastRounds := fresh_lastRounds mem |} rng0)
      as [[[st1 c1] r1]| |];
      destruct (generation_loop _ _ _ _ _ _ _ _ _ _ maxIt 1
                  {| es_lastRounds := lastRounds2 |} rng0)
        as [[[st2 c2] r2]| |];
      try (exfalso; apply Hloop; repeat split; try done; intros; lia);
      try done.
    destruct Hloop as (<- & <- & j & Hg & _ & Hc & Hf & Hs & _).
    { repeat split; try done. intros; lia. }
    unfold ret. rewrite Hg, Hc, Hf, Hs. do 3 f_equal.
    apply write_solution_overwrites.
    + destruct c1; rewrite ?length_insert; done.
    + destruct c1; rewrite ?length_insert; done.
    + destruct c1;
        rewrite !list_lookup_total_insert_eq by (rewrite ?length_insert; lia);
        done.
Qed.

Lemma engine_ignores_fresh_window_witness :
  genetic_tsp rank_generation_detailed_model generate_detailed_model
    {| fresh_lastRounds := [3; 3]%float;
       fresh_solution := [7; 7; 7; 7; 7; 7]%Z;
       fresh_generation := replicate 24 9;
       fresh_generation_copy := replicate 24 8;
       fresh_generation_cost := replicate 6 5%Z |}
    1 [0; 10; 15; 20; 10; 0; 35; 25; 15; 35; 0; 30; 20; 25; 30; 0]%Z 4 6
    0.5%float 50 0.125%float 2 0%float (lcg_draws 700 42)
  = genetic_tsp rank_generation_detailed_model generate_detailed_model
      {| fresh_lastRounds := [0.5; 80]%float;
         fresh_solution := [1; 2; 3; 4; 5; 6]%Z;
         fresh_generation := replicate 24 9;
         fresh_generation_copy := replicate 24 8;
         fresh_generation_cost := replicate 6 5%Z |}
      1 [0; 10; 15; 20; 10; 0; 35; 25; 15; 35; 0; 30; 20; 25; 30; 0]%Z 4 6
      0.5%float 50 0.125%float 2 0%float (lcg_draws 700 42).
Proof.
  exact (engine_ignores_fresh_window rank_generation_detailed_model
           generate_detailed_model
           {| fresh_lastRounds := [3; 3]%float;
              fresh_solution := [7; 7; 7; 7; 7; 7]%Z;
              fresh_generation := replicate 24 9;
              fresh_generation_copy := replicate 24 8;
              fresh_generation_cost := replicate 6 5%Z |}
           [0.5; 80]%float [1; 2; 3; 4; 5; 6]%Z
           1 [0; 10; 15; 20; 10; 0; 35; 25; 15; 35; 0; 30; 20; 25; 30; 0]%Z 4 6
           0.5%float 50 0.125%float 2 0%float (lcg_draws 700 42)
           eq_refl eq_refl eq_refl eq_refl).
Defined.

(** ** The integers genetic_tsp derives from the two fractions *)

Section Fractions.

Local Open Scope Z_scope.

Lemma shr_1_double (q : Z) :
  0 ≤ q →
  shr_1 {| shr_m := q * 2; shr_r := false; shr_s := false |}
  = {| shr_m := q; shr_r := false; shr_s := false |}.
Proof.
  intros Hq. destruct q as [|p|p]; [done| |lia].
  replace (Z.pos p * 2) with (Z.pos p~0) by lia. done.
Qed.

(** Shifting out bits that are all zero leaves an exact record. *)
Lemma iter_pos_shr_1_exact (p : positive) (q : Z) :
  0 ≤ q →
  SpecFloat.iter_pos shr_1 p
    {| shr_m := q * 2 ^ Z.pos p; shr_r := false; shr_s := false |}
  = {| shr_m := q; shr_r := false; shr_s := false |}.
Proof.
  revert q. induction p as [p IH|p IH|]; intros q Hq; cbn [SpecFloat.iter_pos].
  - assert (Hp: 0 < 2 ^ Z.pos p) by (apply Z.pow_pos_nonneg; lia).
    replace (q * 2 ^ Z.pos p~1) with (q * 2 ^ Z.pos p * 2 ^ Z.pos p * 2).
    2:{ rewrite (Pos2Z.inj_xI p).
        replace (2 * Z.pos p + 1) with (Z.pos p + Z.pos p + 1) by lia.
        rewrite !Z.pow_add_r by lia. change (2 ^ 1) with 2. ring. }
    rewrite shr_1_double by (apply Z.mul_nonneg_nonneg; lia).
    rewrite IH by (apply Z.mul_nonneg_nonneg; lia). by apply IH.
  - assert (Hp: 0 < 2 ^ Z.pos p) by (apply Z.pow_pos_nonneg; lia).
    replace (q * 2 ^ Z.pos p~0) with (q * 2 ^ Z.pos p * 2 ^ Z.pos p).
    2:{ rewrite (Pos2Z.inj_xO p).
        replace (2 * Z.pos p) with (Z.pos p + Z.pos p) by lia.
        rewrite !Z.pow_add_r by lia. ring. }
    rewrite IH by (apply Z.mul_nonneg_nonneg; lia). by apply IH.
  - change (2 ^ 1) with 2. by apply shr_1_double.
Qed.

Lemma pow2_pos (k : Z) : 0 ≤ k → 0 < 2 ^ k.
Proof. intros. apply Z.pow_pos_nonneg; lia. Qed.

Lemma pow2_split (a b : Z) : 0 ≤ a → 0 ≤ b → 2 ^ (a + b) = 2 ^ a * 2 ^ b.
Proof. intros. by apply Z.pow_add_r. Qed.

(** The product of a double that holds the integer [N] and a double of
    [0, 1], rounded: its integer part is between 0 and [N].  [Z.pos M] and
    [- S] are the mantissa and the exponent of the exact product. *)
Lemma binary_round_aux_le (M : positive) (S N : Z) (x : float) :
  0 < S → 0 ≤ N < 2 ^ 31 → Z.pos M ≤ N * 2 ^ S →
  Prim2SF x = binary_round_aux prec emax false (Z.pos M) (- S) loc_Exact →
  0 ≤ int_of_double x ≤ N.
Proof.
  intros HS HN HM.
  pose proof (digits2_pos_bounds M) as [Hd1 Hd2].
  set (d := Z.pos (digits2_pos M)) in *.
  pose proof (pow2_pos S ltac:(lia)) as HpS.
  assert (Hd: d ≤ 31 + S).
  { assert (Hlt: 2 ^ (d - 1) < 2 ^ (31 + S)).
    { rewrite pow2_split by lia.
      apply Z.le_lt_trans with (N * 2 ^ S); [lia|].
      apply Z.mul_lt_mono_pos_r; lia. }
    apply Z.pow_lt_mono_r_iff in Hlt; lia. }
  unfold binary_round_aux, shr_fexp.
  change (Zdigits2 (Z.pos M)) with d. rewrite fexp_64.
  set (e1 := Z.max (d + - S - 53) (- 1074)).
  assert (He1: - 1074 ≤ e1 ≤ - 22) by (unfold e1; lia).
  destruct (shr (shr_record_of_loc (Z.pos M) loc_Exact) (- S) (e1 - - S))
    as [mrs' e'] eqn:Hs1.
  destruct (shr_exact_spec (Z.pos M) _ _ _ _ ltac:(lia) Hs1) as [Hm1 He'].
  set (k1 := Z.max (e1 - - S) 0) in *.
  assert (Hk1: 0 ≤ k1 ≤ S) by (unfold k1; lia).
  assert (He'0: e' = Z.max e1 (- S)) by (unfold k1 in He'; lia).
  pose proof (pow2_pos k1 ltac:(lia)) as Hpk1.
  pose proof (pow2_pos (S - k1) ltac:(lia)) as Hpb.
  set (b := N * 2 ^ (S - k1)).
  assert (Hb: b * 2 ^ k1 = N * 2 ^ S).
  { unfold b. rewrite <- Z.mul_assoc, <- pow2_split by lia.
    do 2 f_equal. lia. }
  assert (Hm1b: 0 ≤ shr_m mrs' ≤ b).
  { rewrite Hm1. split; [apply Z.div_pos; lia|].
    apply Z.div_le_upper_bound; [lia|]. rewrite Z.mul_comm. lia. }
  assert (Hb31: b < 2 ^ (31 - e')).
  { replace (31 - e') with (31 + (S - k1)) by (unfold k1; lia).
    rewrite pow2_split by lia. unfold b.
    apply Z.mul_lt_mono_pos_r; lia. }
  assert (Hm1r: 0 ≤ round_nearest_even (shr_m mrs') (loc_of_shr_record mrs') ≤ b).
  { pose proof (round_nearest_even_bounds (shr_m mrs') (loc_of_shr_record mrs')).
    destruct (Z_lt_le_dec (shr_m mrs') b) as [Hlt|Hge]; [lia|].
    assert (Heq: shr_m mrs' = b) by lia.
    assert (HMeq: Z.pos M = b * 2 ^ k1).
    { pose proof (Z.mul_div_le (Z.pos M) (2 ^ k1) Hpk1) as Hle.
      rewrite <- Hm1, Heq in Hle. lia. }
    assert (Hexact: loc_of_shr_record mrs' = loc_Exact).
    { revert Hs1. rewrite HMeq. unfold shr, k1.
      destruct (e1 - - S) as [|p|p]; intros [= <- _]; [done| |done].
      replace (Z.max (Z.pos p) 0) with (Z.pos p) by lia.
      rewrite iter_pos_shr_1_exact; [done|]. unfold b.
      apply Z.mul_nonneg_nonneg; lia. }
    rewrite Hexact. simpl. lia. }
  set (m1r := round_nearest_even (shr_m mrs') (loc_of_shr_record mrs')) in *.
  rewrite fexp_64.
  assert (Hdr: Zdigits2 m1r ≤ 31 - e').
  { apply Zdigits2_le; lia. }
  set (e2 := Z.max (Zdigits2 m1r + e' - 53) (- 1074)).
  assert (He2: e2 ≤ - 22) by (unfold e2; lia).
  destruct (shr (shr_record_of_loc m1r loc_Exact) e' (e2 - e'))
    as [mrs'' e''] eqn:Hs2.
  apply shr_exact_spec in Hs2 as [Hm2 ->]; [|lia].
  set (k2 := Z.max (e2 - e') 0) in *.
  assert (Hk2: 0 ≤ k2 ∧ e' + k2 ≤ 0) by (unfold k2; lia).
  pose proof (pow2_pos k2 ltac:(lia)) as Hpk2.
  pose proof (pow2_pos (- (e' + k2)) ltac:(lia)) as Hpr.
  assert (Hm2b: 0 ≤ shr_m mrs'' ≤ N * 2 ^ (- (e' + k2))).
  { rewrite Hm2. split; [apply Z.div_pos; lia|].
    apply Z.div_le_upper_bound; [lia|].
    rewrite Z.mul_comm, <- Z.mul_assoc, <- pow2_split by lia.
    replace (- (e' + k2) + k2) with (S - k1) by (unfold k1; lia).
    fold b. lia. }
  unfold int_of_double. intros ->.
  destruct (shr_m mrs'') as [|m2|m2]; [lia| |lia].
  change (emax - prec) with 971.
  destruct (Z.leb_spec (e' + k2) 971) as [_|]; [|lia].
  set (a := if 0 <=? e' + k2 then Z.pos m2 * 2 ^ (e' + k2)
            else Z.pos m2 `quot` 2 ^ (- (e' + k2))).
  assert (Ha: 0 ≤ a ≤ N).
  { unfold a. destruct (Z.leb_spec 0 (e' + k2)) as [Hz|Hneg].
    - replace (e' + k2) with 0 in * by lia.
      change (2 ^ 0) with 1. change (2 ^ (- 0)) with 1 in Hm2b. lia.
    - rewrite Z.quot_div_nonneg by lia.
      split; [apply Z.div_pos; lia|].
      apply Z.div_le_upper_bound; [lia|]. rewrite Z.mul_comm. lia. }
  cbv zeta. fold a.
  assert (Hrange: (- 2 ^ 31 <=? a) && (a <? 2 ^ 31) = true).
  { apply andb_true_intro. split; [apply Z.leb_le|apply Z.ltb_lt]; lia. }
  rewrite Hrange. done.
Qed.

Lemma SFleb_finite_positive (m m0 : positive) (e e0 : Z) :
  SFleb (S754_finite false m e) (S754_finite false m0 e0) = true →
  e < e0 ∨ (e = e0 ∧ Z.pos m ≤ Z.pos m0).
Proof.
  unfold SFleb, SFcompare. intros Hle.
  destruct (Z.compare_spec e e0) as [Heq|Hlt'|Hgt]; [|lia|discriminate].
  right. split; [done|].
  change (Pos.compare_cont Eq m m0) with (Pos.compare m m0) in Hle.
  destruct (Pos.compare_spec m m0); try discriminate; lia.
Qed.

(** The doubles of [0, 1]: zero, or a positive mantissa and a negative
    exponent with [m * 2^e <= 1]. *)
Lemma unit_interval_form (t : float) :
  in_unit_interval t = true →
  (∃ s, Prim2SF t = S754_zero s) ∨
  ∃ m e, Prim2SF t = S754_finite false m e ∧ e < 0 ∧ Z.pos m ≤ 2 ^ (- e).
Proof.
  unfold in_unit_interval. intros [H0 H1]%andb_prop.
  rewrite leb_spec in H0, H1.
  change (Prim2SF 0) with (S754_zero false) in H0.
  change (Prim2SF 1) with (S754_finite false 4503599627370496 (- 52)) in H1.
  pose proof (Prim2SF_valid t) as Hv.
  destruct (Prim2SF t) as [s|s| |s m e]; try done.
  - left. eauto.
  - destruct s; try done.
  - destruct s; [done|]. right. exists m, e. split; [done|].
    destruct (finite_valid _ _ _ Hv) as (Hm & He & _).
    apply SFleb_finite_positive in H1.
    destruct H1 as [Hlt|[-> Hle]].
    + split; [lia|].
      assert (2 ^ 53 ≤ 2 ^ (- e)) by (apply Z.pow_le_mono_r; lia). lia.
    + split; [lia|]. change (2 ^ (- - 52)) with 4503599627370496. lia.
Qed.

Lemma iter_xO_spec (k p : positive) :
  Z.pos (Pos.iter xO p k) = Z.pos p * 2 ^ Z.pos k ∧
  digits2_pos (Pos.iter xO p k) = (digits2_pos p + k)%positive.
Proof.
  induction k as [|k [IH1 IH2]] using Pos.peano_ind.
  - split; [simpl; lia|]. simpl. by rewrite Pos.add_1_r.
  - rewrite Pos.iter_succ. split.
    + rewrite (Pos2Z.inj_xO (Pos.iter xO p k)), IH1, Pos2Z.inj_succ.
      rewrite Z.pow_succ_r by lia. ring.
    + simpl. rewrite IH2. by rewrite Pos.add_succ_r.
Qed.

Lemma valid_normal (s : bool) (m : positive) (e : Z) :
  Z.pos (digits2_pos m) = 53 → - 1074 ≤ e ≤ 971 →
  valid_binary (S754_finite s m e) = true.
Proof.
  intros Hd He. unfold SpecFloat.valid_binary, bounded, canonical_mantissa.
  rewrite fexp_64, Hd. change (emax - prec) with 971.
  apply andb_true_intro. split; [apply Z.eqb_eq|apply Z.leb_le]; lia.
Qed.

(** The double of a positive integer below 2^53 holds the integer. *)
Lemma double_of_nat_form (n : nat) :
  0 < Z.of_nat n < 2 ^ 53 →
  ∃ ma ea, Prim2SF (double_of_nat n) = S754_finite false ma ea ∧ ea ≤ 0 ∧
           Z.pos ma = Z.of_nat n * 2 ^ (- ea).
Proof.
  intros Hn. unfold double_of_nat, double_of_int.
  destruct (Z.ltb_spec (Z.of_nat n) 0) as [|_]; [lia|].
  rewrite of_uint63_spec, Uint63.of_Z_spec.
  rewrite Z.mod_small
    by (change Uint63Axioms.wB with 9223372036854775808;
        change (2 ^ 53) with 9007199254740992 in Hn; lia).
  destruct (Z.of_nat n) as [|p|p]; [lia| |lia].
  unfold binary_normalize, binary_round.
  pose proof (digits2_pos_bounds p) as [Hd1 Hd2].
  rewrite fexp_64.
  set (d := Z.pos (digits2_pos p)) in *.
  assert (Hd: 1 ≤ d ≤ 53).
  { split; [unfold d; lia|].
    assert (Hlt: 2 ^ (d - 1) < 2 ^ 53) by lia.
    apply Z.pow_lt_mono_r_iff in Hlt; lia. }
  replace (Z.max (d + 0 - 53) (- 1074)) with (d - 53) by lia.
  unfold shl_align. rewrite Z.sub_0_r.
  destruct (d - 53) as [|k|k] eqn:Hk; [|lia|].
  - exists p, 0. rewrite binary_round_aux_exact by (apply valid_normal; lia).
    split; [done|]. split; [lia|]. change (2 ^ (- 0)) with 1. lia.
  - destruct (iter_xO_spec k p) as [Hv Hdig].
    exists (Pos.iter xO p k), (Z.neg k).
    rewrite binary_round_aux_exact.
    + split; [done|]. split; [lia|]. rewrite Hv. done.
    + apply valid_normal; [|lia]. rewrite Hdig, Pos2Z.inj_add. fold d. lia.
Qed.

End Fractions.

(** X18.  For a population below 2^31 and fractions that pass the test of
    [main] as numbers of [0, 1], the two integers [genetic_tsp] derives in
    lines 44 and 45 stay within their bounds: [best_num], the product
    [population * top] truncated, lies between 0 and [population], so the
    elite rows fit in the population; and [probCentile], the product
    [mutatProb * 100] truncated, lies between 0 and 100. *)
Theorem fractions_give_bounded_integers (population : nat)
    (top mutatProb : float) :
  (Z.of_nat population < 2 ^ 31)%Z →
  in_unit_interval top = true → in_unit_interval mutatProb = true →
  (0 ≤ int_of_double (double_of_nat population * top) ≤ Z.of_nat population)%Z ∧
  Z.to_nat (int_of_double (double_of_nat population * top)) ≤ population ∧
  (0 ≤ int_of_double (mutatProb * 100) ≤ 100)%Z.
Proof.
  intros Hp Htop Hmut.
  assert (Hbest: (0 ≤ int_of_double (double_of_nat population * top)
                  ≤ Z.of_nat population)%Z).
  { destruct (decide (population = 0)) as [->|Hpos].
    - unfold int_of_double. rewrite mul_spec.
      change (Prim2SF (double_of_nat 0)) with (S754_zero false).
      destruct (unit_interval_form top Htop) as [[s ->]|(m & e & -> & _)];
        simpl; lia.
    - destruct (double_of_nat_form population) as (ma & ea & Hform & Hea & Hma).
      { change (2 ^ 53)%Z with 9007199254740992%Z.
        change (2 ^ 31)%Z with 2147483648%Z in Hp. lia. }
      destruct (unit_interval_form top Htop) as [[s Hz]|(m & e & Ht & He & Hm)].
      + unfold int_of_double. rewrite mul_spec, Hform, Hz. simpl. lia.
      + apply (binary_round_aux_le (ma * m) (- (ea + e))%Z); [lia|lia| |].
        * rewrite Pos2Z.inj_mul, Hma.
          replace (- (ea + e))%Z with (- ea + - e)%Z by lia.
          rewrite Z.pow_add_r by lia. rewrite <- Z.mul_assoc.
          apply Z.mul_le_mono_nonneg_l; [lia|].
          apply Z.mul_le_mono_nonneg_l; [|done].
          apply Z.pow_nonneg. lia.
        * rewrite mul_spec, Hform, Ht. unfold SF64mul, SFmul.
          rewrite Z.opp_involutive. done. }
  split; [done|]. split; [lia|].
  destruct (unit_interval_form mutatProb Hmut) as [[s Hz]|(m & e & Ht & He & Hm)].
  - unfold int_of_double. rewrite mul_spec, Hz.
    change (Prim2SF 100) with (S754_finite false 7036874417766400 (- 46)).
    simpl. lia.
  - apply (binary_round_aux_le (m * 7036874417766400) (- (e + - 46))%Z);
      [lia|lia| |].
    + rewrite Pos2Z.inj_mul.
      replace (- (e + - 46))%Z with (- e + 46)%Z by lia.
      rewrite Z.pow_add_r by lia.
      change (Z.pos 7036874417766400) with (100 * 2 ^ 46)%Z.
      assert (H46: (0 < 2 ^ 46)%Z) by done.
      revert Hm H46. generalize (2 ^ 46)%Z (2 ^ (- e))%Z (Z.pos m).
      intros Y X m' Hm HY.
      apply Z.le_trans with (X * (100 * Y))%Z;
        [apply Z.mul_le_mono_nonneg_r; lia|lia].
    + rewrite mul_spec, Ht.
      change (Prim2SF 100) with (S754_finite false 7036874417766400 (- 46)).
      unfold SF64mul, SFmul. rewrite Z.opp_involutive. done.
Qed.

Lemma fractions_give_bounded_integers_witness :
  (0 ≤ int_of_double (double_of_nat 6 * 0.5) ≤ Z.of_nat 6)%Z ∧
  Z.to_nat (int_of_double (double_of_nat 6 * 0.5)) ≤ 6 ∧
  (0 ≤ int_of_double (0.125 * 100) ≤ 100)%Z.
Proof.
  exact (fractions_give_bounded_integers 6 0.5%float 0.125%float
           ltac:(simpl; lia) eq_refl eq_refl).
Defined.

(** ** From one generation to the next *)

Lemma tour_cells_below (numNodes : nat) (t : list nat) :
  is_tour numNodes t → ∀ k, k < numNodes → t !!! k < numNodes.
Proof. intros (_ & H & _)%is_tour_alt. exact H. Qed.

(** X19.  The best cost never gets worse from one generation to the next.
    When both rankings start from a zeroed cost vector and the edge sums fit
    in an [int], the least cost after ranking the population that
    [move_top] and [generate] made out of a ranked population is at most the
    least cost of that population: the best tour is an elite row, [generate]
    leaves it where it is, and the second ranking finds it again. *)
Theorem best_cost_never_increases (rank rank_next : list nat)
    (cost cost_next : list Z) (generation generation_copy : list nat)
    (cost_matrix : list Z) (numNodes population best_num : nat) (bound : Z)
    (mutatProb : float) (rng : list nat)
    (rank1 : list nat) (cost1 : list Z) (g1 copy1 g2 rng' : list nat)
    (rank2 : list nat) (cost2 : list Z) :
  1 ≤ numNodes → 0 < best_num ≤ population →
  length rank = population → length cost = population →
  length rank_next = population → length cost_next = population →
  population * numNodes ≤ length generation →
  population * numNodes ≤ length generation_copy →
  (∀ s, s < population → is_tour numNodes (row generation numNodes s)) →
  (∀ i, i < population → cost !!! i = 0%Z) →
  (∀ i, i < population → cost_next !!! i = 0%Z) →
  length cost_matrix = numNodes * numNodes →
  Forall (λ c, 0 ≤ c ≤ bound)%Z cost_matrix →
  (Z.of_nat numNodes * bound < 2 ^ 31)%Z →
  rank_generation rank cost generation cost_matrix numNodes population best_num
  = (rank1, cost1) →
  move_top rank1 generation generation_copy numNodes best_num = (g1, copy1) →
  generate g1 population best_num numNodes mutatProb rng = Ok (g2, rng') →
  rank_generation rank_next cost_next g2 cost_matrix numNodes population best_num
  = (rank2, cost2) →
  cost1 !!! 0 = tour_cost cost_matrix numNodes (row g2 numNodes 0) ∧
  (cost2 !!! 0%nat ≤ cost1 !!! 0%nat)%Z ∧
  ∀ s, s < population →
       (cost2 !!! 0%nat ≤ tour_cost cost_matrix numNodes (row g2 numNodes s))%Z.
Proof.
  intros Hn Hb Hlr Hlc Hlr2 Hlc2 Hfit Hfitc Htours Hz Hz2 Hlm Hall Hbound
    Hrank1 Hmove Hgen Hrank2.
  assert (Hexact: ∀ prior t, prior = 0%Z → is_tour numNodes t →
            computed_cost prior cost_matrix numNodes t
            = tour_cost cost_matrix numNodes t).
  { intros prior t -> Ht. unfold computed_cost. rewrite Z.add_0_l.
    pose proof (tour_cost_bounds cost_matrix bound numNodes t Hn Hlm Hall
                  (tour_cells_below _ _ Ht)).
    apply wrap_int_in_range. unfold in_int_range. lia. }
  destruct (rank_generation_spec _ _ _ _ _ _ _ _ _ Hn Hlr Hlc Hrank1)
    as (_ & _ & _ & Hcost1 & _).
  destruct (move_top_spec _ _ _ _ _ _ _ Hmove) as (_ & Hl1 & _ & Hcopied).
  assert (Helite: ∀ k, k < best_num →
            row g1 numNodes k = row generation numNodes (rank1 !!! k) ∧
            is_tour numNodes (row g1 numNodes k)).
  { intros k Hk. destruct (Hcost1 k ltac:(lia)) as [Hr _].
    assert (Hrow: row g1 numNodes k = row generation numNodes (rank1 !!! k)).
    { apply row_eq_cells; [nia|nia|].
      intros c Hc. apply Hcopied; [done|done|nia]. }
    split; [done|]. rewrite Hrow. by apply Htours. }
  destruct (generate_spec g1 population best_num numNodes mutatProb rng g2 rng'
              ltac:(lia) (λ k Hk, proj2 (Helite k Hk)) Hgen)
    as (Hl2 & _ & Hkeep & Hnew).
  assert (Htours2: ∀ s, s < population → is_tour numNodes (row g2 numNodes s)).
  { intros s Hs. destruct (decide (s < best_num)) as [Hlo|Hhi].
    - rewrite Hkeep by done. by apply Helite.
    - apply Hnew. lia. }
  destruct (rank_generation_spec _ _ _ _ _ _ _ _ _ Hn Hlr2 Hlc2 Hrank2)
    as (_ & _ & Hperm2 & Hcost2 & Hord2).
  assert (Hmin: ∀ s, s < population →
            (cost2 !!! 0%nat
             ≤ tour_cost cost_matrix numNodes (row g2 numNodes s))%Z).
  { intros s Hs.
    assert (Hin: s ∈ rank2) by (rewrite Hperm2; apply elem_of_seq; lia).
    apply list_elem_of_lookup in Hin as [k Hk].
    pose proof (lookup_lt_Some _ _ _ Hk) as Hklt.
    assert (Hks: rank2 !!! k = s) by (rewrite list_lookup_total_alt, Hk; done).
    destruct (Hcost2 k) as [_ Hck].
    { apply Permutation_length in Hperm2. rewrite length_seq in Hperm2. lia. }
    rewrite Hks, Hexact in Hck by auto. rewrite <- Hck.
    destruct (decide (k = 0)) as [->|Hne]; [lia|].
    apply Hord2. apply Permutation_length in Hperm2.
    rewrite length_seq in Hperm2. lia. }
  assert (Hbest: cost1 !!! 0 = tour_cost cost_matrix numNodes (row g2 numNodes 0)).
  { destruct (Hcost1 0 ltac:(lia)) as [Hr0 Hc0].
    rewrite Hexact in Hc0 by auto.
    rewrite Hkeep by lia. destruct (Helite 0 ltac:(lia)) as [-> _]. done. }
  split; [done|]. split; [|done].
  rewrite Hbest. apply Hmin. lia.
Qed.

Lemma best_cost_never_increases_witness :
  let g2 := [0; 1; 3; 2; 1; 0; 2; 3; 0; 3; 2; 1; 1; 0; 2; 3] in
  let cost_matrix :=
    [0; 10; 15; 20; 10; 0; 35; 25; 15; 35; 0; 30; 20; 25; 30; 0]%Z in
  let cost1 := [80; 80; 95; 95]%Z in
  let cost2 := [80; 80; 80; 95]%Z in
  cost1 !!! 0 = tour_cost cost_matrix 4 (row g2 4 0) ∧
  (cost2 !!! 0%nat ≤ cost1 !!! 0%nat)%Z ∧
  ∀ s, s < 4 → (cost2 !!! 0%nat ≤ tour_cost cost_matrix 4 (row g2 4 s))%Z.
Proof.
  apply (best_cost_never_increases [0; 0; 0; 0] [0; 0; 0; 0]
           [0; 0; 0; 0]%Z [0; 0; 0; 0]%Z
           [0; 1; 2; 3; 0; 2; 1; 3; 0; 1; 3; 2; 1; 0; 2; 3]
           (replicate 16 9)
           [0; 10; 15; 20; 10; 0; 35; 25; 15; 35; 0; 30; 20; 25; 30; 0]%Z
           4 4 2 35 1%float [5; 1; 7; 5; 0; 1; 3; 3; 2; 1]
           [2; 3; 0; 1] [80; 80; 95; 95]%Z
           [0; 1; 3; 2; 1; 0; 2; 3; 9; 9; 9; 9; 9; 9; 9; 9]
           [0; 1; 2; 3; 0; 2; 1; 3; 0; 1; 3; 2; 1; 0; 2; 3]
           [0; 1; 3; 2; 1; 0; 2; 3; 0; 3; 2; 1; 1; 0; 2; 3] [1]
           [0; 1; 3; 2] [80; 80; 80; 95]%Z).
  - lia.
  - lia.
  - reflexivity.
  - reflexivity.
  - reflexivity.
  - reflexivity.
  - simpl. lia.
  - simpl. lia.
  - intros s Hs. apply is_tourb_correct.
    destruct s as [|[|[|[|s]]]]; [reflexivity..|lia].
  - intros i Hi. destruct i as [|[|[|[|i]]]]; [reflexivity..|lia].
  - intros i Hi. destruct i as [|[|[|[|i]]]]; [reflexivity..|lia].
  - reflexivity.
  - repeat constructor; lia.
  - lia.
  - reflexivity.
  - reflexivity.
  - reflexivity.
  - reflexivity.
Defined.
